(** * QEM mesh simplification: a shallow embedding of the mesh builder,
      the quadric/cost computations, the edge collapse and the scheduler.

    Scalars are IEEE-754 binary32 numbers (the C++ [float]), taken from the
    Standard Library's executable specification of floating-point arithmetic
    ([SpecFloat], precision 24, exponent bound 128, round-to-nearest-even).
    Vertex, edge and face indices are the non-negative [int]s the program
    derives from [std::vector] sizes; they never wrap and are modelled as
    [nat].  Reads of a vector use the total lookup [!!!] and writes use
    [alter]: reading or writing outside the vector is undefined in the
    source; the model then reads a default element and writes nothing, and
    the theorems about what a collapse reads and writes are stated for
    well-formed meshes, where every index is inside its vector. *)

From Stdlib Require Import ZArith Lia Floats.SpecFloat.
From stdpp Require Import base option list gmap.

Set Default Proof Using "Type".

(* ===================================================================== *)
(** ** binary32 arithmetic                                                *)
(* ===================================================================== *)

Module F32.
Definition prec : Z := 24.
Definition emax : Z := 128.

Definition float : Type := spec_float.

Definition add : float -> float -> float := SFadd prec emax.
Definition sub : float -> float -> float := SFsub prec emax.
Definition mul : float -> float -> float := SFmul prec emax.
Definition div : float -> float -> float := SFdiv prec emax.
Definition sqrt : float -> float := SFsqrt prec emax.
Definition opp : float -> float := SFopp.
Definition abs : float -> float := SFabs.
Definition ltb : float -> float -> bool := SFltb.

(** [a > b] of the source is [b < a]. *)
Definition gtb (a b : float) : bool := SFltb b a.

Definition zero : float := S754_zero false.
Definition one : float := S754_finite false 8388608 (-23).
Definition half : float := S754_finite false 8388608 (-24).

(** [std::numeric_limits<float>::max()]. *)
Definition FLT_MAX : float := S754_finite false 16777215 104.

(** The literals [1e-10f], [0.001f] and [0.0001f], rounded to binary32. *)
Definition lit_1em10 : float := S754_finite false 14411519 (-57).
Definition lit_1em3 : float := S754_finite false 8589935 (-33).
Definition lit_1em4 : float := S754_finite false 13743895 (-37).

(** Neither infinite nor NaN. *)
Definition is_finite (x : float) : bool :=
  match x with
  | S754_zero _ | S754_finite _ _ _ => true
  | S754_infinity _ | S754_nan => false
  end.

(** [(int)std::floor(x)].  The conversion of a NaN, of an infinity or of
    a value outside the range of [int] is undefined in C++; the model
    returns [INT_MIN] there, as the x86 conversion instruction does.  No
    theorem depends on that choice. *)
Definition INT_MIN : Z := - 2 ^ 31.
Definition INT_MAX : Z := 2 ^ 31 - 1.

Definition floor_to_int (x : float) : Z :=
  match x with
  | S754_zero _ => 0
  | S754_infinity _ | S754_nan => INT_MIN
  | S754_finite s m e =>
      let n := cond_Zopp s (Zpos m) in
      let fl := if (0 <=? e)%Z then (n * 2 ^ e)%Z else (n / 2 ^ (- e))%Z in
      if ((INT_MIN <=? fl) && (fl <=? INT_MAX))%Z then fl else INT_MIN
  end.
End F32.

Abbreviation float := F32.float.

Declare Scope f32_scope.
Delimit Scope f32_scope with f32.
Infix "+" := F32.add : f32_scope.
Infix "-" := F32.sub : f32_scope.
Infix "*" := F32.mul : f32_scope.
Infix "/" := F32.div : f32_scope.

(* ===================================================================== *)
(** ** GLM vectors and matrices                                           *)
(* ===================================================================== *)

Record vec2 : Type := Vec2 { x2 : float; y2 : float }.
Record vec3 : Type := Vec3 { x3 : float; y3 : float; z3 : float }.
Record vec4 : Type := Vec4 { x4 : float; y4 : float; z4 : float; w4 : float }.

(** [glm::mat4] is column-major: [m[c]] is column [c], [m[c][r]] its row [r]. *)
Record mat4 : Type := Mat4 { col0 : vec4; col1 : vec4; col2 : vec4; col3 : vec4 }.

Module glm.
Local Open Scope f32_scope.

Definition vec2_add (a b : vec2) : vec2 := Vec2 (x2 a + x2 b) (y2 a + y2 b).
Definition vec2_scale (a : vec2) (s : float) : vec2 := Vec2 (x2 a * s) (y2 a * s).

Definition vec3_add (a b : vec3) : vec3 :=
  Vec3 (x3 a + x3 b) (y3 a + y3 b) (z3 a + z3 b).
Definition vec3_sub (a b : vec3) : vec3 :=
  Vec3 (x3 a - x3 b) (y3 a - y3 b) (z3 a - z3 b).
Definition vec3_scale (a : vec3) (s : float) : vec3 :=
  Vec3 (x3 a * s) (y3 a * s) (z3 a * s).

Definition vec4_add (a b : vec4) : vec4 :=
  Vec4 (x4 a + x4 b) (y4 a + y4 b) (z4 a + z4 b) (w4 a + w4 b).
Definition vec4_scale (a : vec4) (s : float) : vec4 :=
  Vec4 (x4 a * s) (y4 a * s) (z4 a * s) (w4 a * s).

(** [glm::vec4(v, w)] and [glm::vec3(v4)]. *)
Definition vec4_of (v : vec3) (w : float) : vec4 := Vec4 (x3 v) (y3 v) (z3 v) w.
Definition vec3_of (v : vec4) : vec3 := Vec3 (x4 v) (y4 v) (z4 v).

(** [glm::vec4(1.0f)]: every component the same scalar. *)
Definition vec4_splat (s : float) : vec4 := Vec4 s s s s.

Definition dot3 (a b : vec3) : float :=
  x3 a * x3 b + y3 a * y3 b + z3 a * z3 b.
Definition dot4 (a b : vec4) : float :=
  (x4 a * x4 b + y4 a * y4 b) + (z4 a * z4 b + w4 a * w4 b).

Definition cross (a b : vec3) : vec3 :=
  Vec3 (y3 a * z3 b - y3 b * z3 a)
       (z3 a * x3 b - z3 b * x3 a)
       (x3 a * y3 b - x3 b * y3 a).

Definition length (v : vec3) : float := F32.sqrt (dot3 v v).
Definition distance (a b : vec3) : float := length (vec3_sub b a).
Definition inversesqrt (s : float) : float := F32.one / F32.sqrt s.
Definition normalize (v : vec3) : vec3 := vec3_scale v (inversesqrt (dot3 v v)).

Definition min (a b : float) : float := if F32.ltb b a then b else a.
Definition max (a b : float) : float := if F32.ltb a b then b else a.
Definition clamp (s lo hi : float) : float := min (max s lo) hi.

(** [glm::mix(a, b, t) = a * (1 - t) + b * t]. *)
Definition mix2 (a b : vec2) (t : float) : vec2 :=
  vec2_add (vec2_scale a (F32.one - t)) (vec2_scale b t).
Definition mix4 (a b : vec4) (t : float) : vec4 :=
  vec4_add (vec4_scale a (F32.one - t)) (vec4_scale b t).

(** [glm::mat4(0.0f)]. *)
Definition mat4_zero : mat4 :=
  let z := vec4_splat F32.zero in Mat4 z z z z.

Definition mat4_add (a b : mat4) : mat4 :=
  Mat4 (vec4_add (col0 a) (col0 b)) (vec4_add (col1 a) (col1 b))
       (vec4_add (col2 a) (col2 b)) (vec4_add (col3 a) (col3 b)).

(** [glm::outerProduct(c, r)]: column [i] is [c * r[i]]. *)
Definition outerProduct (c r : vec4) : mat4 :=
  Mat4 (vec4_scale c (x4 r)) (vec4_scale c (y4 r))
       (vec4_scale c (z4 r)) (vec4_scale c (w4 r)).

(** [m * v]: the columns scaled by the components of [v], summed pairwise. *)
Definition mat4_mul_vec4 (m : mat4) (v : vec4) : vec4 :=
  vec4_add (vec4_add (vec4_scale (col0 m) (x4 v)) (vec4_scale (col1 m) (y4 v)))
           (vec4_add (vec4_scale (col2 m) (z4 v)) (vec4_scale (col3 m) (w4 v))).

(** [glm::determinant] of a 4x4 matrix: expansion along the first column
    through the 2x2 sub-factors of the last two columns. *)
Definition determinant (m : mat4) : float :=
  let '(Mat4 m0 m1 m2 m3) := m in
  let SubFactor00 := z4 m2 * w4 m3 - z4 m3 * w4 m2 in
  let SubFactor01 := y4 m2 * w4 m3 - y4 m3 * w4 m2 in
  let SubFactor02 := y4 m2 * z4 m3 - y4 m3 * z4 m2 in
  let SubFactor03 := x4 m2 * w4 m3 - x4 m3 * w4 m2 in
  let SubFactor04 := x4 m2 * z4 m3 - x4 m3 * z4 m2 in
  let SubFactor05 := x4 m2 * y4 m3 - x4 m3 * y4 m2 in
  let DetCof0 :=
    (y4 m1 * SubFactor00 - z4 m1 * SubFactor01) + w4 m1 * SubFactor02 in
  let DetCof1 :=
    F32.opp ((x4 m1 * SubFactor00 - z4 m1 * SubFactor03) + w4 m1 * SubFactor04) in
  let DetCof2 :=
    (x4 m1 * SubFactor01 - y4 m1 * SubFactor03) + w4 m1 * SubFactor05 in
  let DetCof3 :=
    F32.opp ((x4 m1 * SubFactor02 - y4 m1 * SubFactor04) + z4 m1 * SubFactor05) in
  ((x4 m0 * DetCof0 + y4 m0 * DetCof1) + z4 m0 * DetCof2) + w4 m0 * DetCof3.
End glm.

Global Instance vec2_inhabited : Inhabited vec2 := populate (Vec2 F32.zero F32.zero).
Global Instance vec3_inhabited : Inhabited vec3 :=
  populate (Vec3 F32.zero F32.zero F32.zero).
Global Instance vec4_inhabited : Inhabited vec4 := populate (glm.vec4_splat F32.zero).

(* ===================================================================== *)
(** ** The mesh data model (Vertex.h, Edge.h, Face.h, Mesh.h)              *)
(* ===================================================================== *)

Module Vertex.
Record t : Type := mk {
  position : vec3;
  normal : vec3;
  texCoord : vec2;
  color : vec4;
  adjacentVertices : list nat;
  quadric : mat4;
  isDeleted : bool
}.

(** [Vertex(pos, norm, uv, col)]. *)
Definition ctor (pos norm : vec3) (uv : vec2) (col : vec4) : t :=
  mk pos norm uv col [] glm.mat4_zero false.

Definition set_position (p : vec3) (v : t) : t :=
  mk p (normal v) (texCoord v) (color v) (adjacentVertices v) (quadric v) (isDeleted v).
Definition set_texCoord (uv : vec2) (v : t) : t :=
  mk (position v) (normal v) uv (color v) (adjacentVertices v) (quadric v) (isDeleted v).
Definition set_color (c : vec4) (v : t) : t :=
  mk (position v) (normal v) (texCoord v) c (adjacentVertices v) (quadric v) (isDeleted v).
Definition set_quadric (q : mat4) (v : t) : t :=
  mk (position v) (normal v) (texCoord v) (color v) (adjacentVertices v) q (isDeleted v).
Definition set_isDeleted (b : bool) (v : t) : t :=
  mk (position v) (normal v) (texCoord v) (color v) (adjacentVertices v) (quadric v) b.
End Vertex.

Module Edge.
Record t : Type := mk {
  v1 : nat;
  v2 : nat;
  cost : float;
  optimalPosition : vec3;
  isBoundary : bool;
  isDirty : bool;
  isDeleted : bool
}.

(** [Edge(vertex1, vertex2)].  The constructor leaves [optimalPosition]
    uninitialised: [garbage] stands for whatever the memory holds. *)
Definition ctor (garbage : vec3) (vertex1 vertex2 : nat) : t :=
  mk vertex1 vertex2 F32.zero garbage false false false.

Definition set_v1 (i : nat) (e : t) : t :=
  mk i (v2 e) (cost e) (optimalPosition e) (isBoundary e) (isDirty e) (isDeleted e).
Definition set_v2 (i : nat) (e : t) : t :=
  mk (v1 e) i (cost e) (optimalPosition e) (isBoundary e) (isDirty e) (isDeleted e).
Definition set_cost (c : float) (e : t) : t :=
  mk (v1 e) (v2 e) c (optimalPosition e) (isBoundary e) (isDirty e) (isDeleted e).
Definition set_optimalPosition (p : vec3) (e : t) : t :=
  mk (v1 e) (v2 e) (cost e) p (isBoundary e) (isDirty e) (isDeleted e).
Definition set_isDirty (b : bool) (e : t) : t :=
  mk (v1 e) (v2 e) (cost e) (optimalPosition e) (isBoundary e) b (isDeleted e).
Definition set_isDeleted (b : bool) (e : t) : t :=
  mk (v1 e) (v2 e) (cost e) (optimalPosition e) (isBoundary e) (isDirty e) b.
End Edge.

Module Face.
Local Open Scope f32_scope.

Record t : Type := mk {
  v1 : nat;
  v2 : nat;
  v3 : nat;
  normal : vec3;
  planeEquation : vec4;
  isDeleted : bool
}.

(** [Face::computeNormal]: returns the two fields it assigns. *)
Definition computeNormal (pos1 pos2 pos3 : vec3) : vec3 * vec4 :=
  let edge1 := glm.vec3_sub pos2 pos1 in
  let edge2 := glm.vec3_sub pos3 pos1 in
  let normal := glm.normalize (glm.cross edge1 edge2) in
  let d := F32.opp (glm.dot3 normal pos1) in
  (normal, Vec4 (x3 normal) (y3 normal) (z3 normal) d).

(** [Face(idx1, idx2, idx3, pos1, pos2, pos3)]. *)
Definition ctor (idx1 idx2 idx3 : nat) (pos1 pos2 pos3 : vec3) : t :=
  let '(n, p) := computeNormal pos1 pos2 pos3 in
  mk idx1 idx2 idx3 n p false.

Definition set_v1 (i : nat) (f : t) : t :=
  mk i (v2 f) (v3 f) (normal f) (planeEquation f) (isDeleted f).
Definition set_v2 (i : nat) (f : t) : t :=
  mk (v1 f) i (v3 f) (normal f) (planeEquation f) (isDeleted f).
Definition set_v3 (i : nat) (f : t) : t :=
  mk (v1 f) (v2 f) i (normal f) (planeEquation f) (isDeleted f).
Definition set_isDeleted (b : bool) (f : t) : t :=
  mk (v1 f) (v2 f) (v3 f) (normal f) (planeEquation f) b.
End Face.

Global Instance Vertex_inhabited : Inhabited Vertex.t :=
  populate (Vertex.ctor inhabitant inhabitant inhabitant inhabitant).
Global Instance Edge_inhabited : Inhabited Edge.t :=
  populate (Edge.ctor inhabitant 0 0).
Global Instance Face_inhabited : Inhabited Face.t :=
  populate (Face.mk 0 0 0 inhabitant inhabitant true).

Module Mesh.
Record t : Type := mk {
  vertices : list Vertex.t;
  edges : list Edge.t;
  faces : list Face.t;
  deletedVertices : nat
}.

(** A default-constructed [Mesh]. *)
Definition empty : t := mk [] [] [] 0.
End Mesh.

(* ===================================================================== *)
(** ** QEM.cpp                                                            *)
(* ===================================================================== *)

(** [const float QEM_EPSILON = 1e-10f]. *)
Definition QEM_EPSILON : float := F32.lit_1em10.

Section Program.
(** [glm::inverse] on 4x4 matrices is used as a black box. *)
Variable glm_inverse : mat4 -> mat4.
(** The contents of a default-constructed (uninitialised) [glm::vec4]
    local, and of the [optimalPosition] an [Edge] constructor leaves
    unset. *)
Variable uninit_vec4 : vec4.
Variable uninit_vec3 : vec3.

(** [Q_bar[0][3] = 0; Q_bar[1][3] = 0; Q_bar[2][3] = 0; Q_bar[3][3] = 1]. *)
Definition constrain_last_row (Q : mat4) : mat4 :=
  let set_w (w : float) (c : vec4) := Vec4 (x4 c) (y4 c) (z4 c) w in
  Mat4 (set_w F32.zero (col0 Q)) (set_w F32.zero (col1 Q))
       (set_w F32.zero (col2 Q)) (set_w F32.one (col3 Q)).

(** One round of the candidate loop of the singular branch. *)
Definition try_candidate (Q : mat4) (acc : float * vec4) (cand : vec3)
  : float * vec4 :=
  let '(minCost, optimalPos) := acc in
  let candidate := glm.vec4_of cand F32.one in
  let cost := glm.dot4 candidate (glm.mat4_mul_vec4 Q candidate) in
  if F32.ltb cost minCost then (cost, candidate) else (minCost, optimalPos).

Definition computeCost (edge : Edge.t) (vertices : list Vertex.t) : Edge.t :=
  let p1 := Vertex.position (vertices !!! Edge.v1 edge) in
  let p2 := Vertex.position (vertices !!! Edge.v2 edge) in
  let Q := glm.mat4_add (Vertex.quadric (vertices !!! Edge.v1 edge))
                        (Vertex.quadric (vertices !!! Edge.v2 edge)) in
  let Q_bar := constrain_last_row Q in
  let det := glm.determinant Q_bar in
  let '(minCost, optimalPos) :=
    if F32.gtb (F32.abs det) QEM_EPSILON then
      let optimalPos :=
        glm.mat4_mul_vec4 (glm_inverse Q_bar)
                          (Vec4 F32.zero F32.zero F32.zero F32.one) in
      (glm.dot4 optimalPos (glm.mat4_mul_vec4 Q optimalPos), optimalPos)
    else
      fold_left (try_candidate Q)
                [p1; p2; glm.vec3_scale (glm.vec3_add p1 p2) F32.half]
                (F32.FLT_MAX, uninit_vec4)
  in
  Edge.set_cost minCost (Edge.set_optimalPosition (glm.vec3_of optimalPos) edge).

(** [vertices[i].quadric += Kp]. *)
Definition add_quadric (Kp : mat4) (v : Vertex.t) : Vertex.t :=
  Vertex.set_quadric (glm.mat4_add (Vertex.quadric v) Kp) v.

(** The fundamental quadric [p . p^T] of a face's stored plane. *)
Definition face_Kp (face : Face.t) : mat4 :=
  glm.outerProduct (Face.planeEquation face) (Face.planeEquation face).

Definition face_has (face : Face.t) (vertexIndex : nat) : bool :=
  bool_decide (Face.v1 face = vertexIndex)
  || bool_decide (Face.v2 face = vertexIndex)
  || bool_decide (Face.v3 face = vertexIndex).

Definition computeQuadric (vertexIndex : nat) (vertices : list Vertex.t)
    (faces : list Face.t) : list Vertex.t :=
  fold_left
    (fun vertices face =>
       if Face.isDeleted face then vertices
       else if face_has face vertexIndex
            then alter (add_quadric (face_Kp face)) vertexIndex vertices
            else vertices)
    faces
    (alter (Vertex.set_quadric glm.mat4_zero) vertexIndex vertices).

Definition computeAllQuadrics (vertices : list Vertex.t) (faces : list Face.t)
  : list Vertex.t :=
  fold_left
    (fun vertices face =>
       if Face.isDeleted face then vertices
       else
         let Kp := face_Kp face in
         let vertices := alter (add_quadric Kp) (Face.v1 face) vertices in
         let vertices := alter (add_quadric Kp) (Face.v2 face) vertices in
         alter (add_quadric Kp) (Face.v3 face) vertices)
    faces
    (Vertex.set_quadric glm.mat4_zero <$> vertices).

(** The body of the edge loop of [edgeCollapse] (step 4) for one edge: the
    edge afterwards, and whether its index enters [affectedEdgeIndices]. *)
Definition collapse_edge (v1 v2 : nat) (e : Edge.t) : Edge.t * bool :=
  if Edge.isDeleted e then (e, false)
  else
    let e := if decide (Edge.v1 e = v2) then Edge.set_v1 v1 e else e in
    let e := if decide (Edge.v2 e = v2) then Edge.set_v2 v1 e else e in
    if decide (Edge.v1 e = Edge.v2 e) then (Edge.set_isDeleted true e, false)
    else (e, bool_decide (Edge.v1 e = v1) || bool_decide (Edge.v2 e = v1)).

(** The edge loop, from index [i] on: the edges afterwards and the
    affected indices (the source keeps them in an unordered set; they are
    listed here in increasing order). *)
Fixpoint collapse_edges (v1 v2 i : nat) (es : list Edge.t)
  : list Edge.t * list nat :=
  match es with
  | [] => ([], [])
  | e :: rest =>
      let '(e', hit) := collapse_edge v1 v2 e in
      let '(rest', affected) := collapse_edges v1 v2 (S i) rest in
      (e' :: rest', if hit then i :: affected else affected)
  end.

(** The body of the face loop of [edgeCollapse] (step 5). *)
Definition collapse_face (v1 v2 : nat) (face : Face.t) : Face.t :=
  if Face.isDeleted face then face
  else
    let face := if decide (Face.v1 face = v2) then Face.set_v1 v1 face else face in
    let face := if decide (Face.v2 face = v2) then Face.set_v2 v1 face else face in
    let face := if decide (Face.v3 face = v2) then Face.set_v3 v1 face else face in
    if bool_decide (Face.v1 face = Face.v2 face)
       || bool_decide (Face.v2 face = Face.v3 face)
       || bool_decide (Face.v3 face = Face.v1 face)
    then Face.set_isDeleted true face
    else face.

(** Step 7: the cost of every affected edge that is still live. *)
Definition recompute_costs (vertices : list Vertex.t) (affected : list nat)
    (edges : list Edge.t) : list Edge.t :=
  fold_left
    (fun edges edgeIdx =>
       if Edge.isDeleted (edges !!! edgeIdx) then edges
       else alter (fun e => computeCost e vertices) edgeIdx edges)
    affected edges.

(** Step 8: the interpolation weight, from the positions stored in the
    vertex array at that point. *)
Definition interpolation_weight (vertices : list Vertex.t) (v1 v2 : nat)
    (newPosition : vec3) : float :=
  let v1Pos := Vertex.position (vertices !!! v1) in
  let v2Pos := Vertex.position (vertices !!! v2) in
  let totalDist := glm.length (glm.vec3_sub v1Pos v2Pos) in
  if F32.gtb totalDist QEM_EPSILON then
    let distToV1 := glm.length (glm.vec3_sub newPosition v1Pos) in
    glm.clamp (F32.div distToV1 totalDist) F32.zero F32.one
  else F32.half.

(** [edgeCollapse(mesh, edge)], where [edge] is the element
    [mesh.edges[edgeIndex]] (the reference the scheduler passes): writes
    through [edge] are writes to that element. *)
Definition edgeCollapse (mesh : Mesh.t) (edgeIndex : nat) : Mesh.t :=
  let edge := Mesh.edges mesh !!! edgeIndex in
  let v1 := Edge.v1 edge in
  let v2 := Edge.v2 edge in
  let newPosition := Edge.optimalPosition edge in
  (* Step 1 *)
  let vertices := alter (Vertex.set_position newPosition) v1 (Mesh.vertices mesh) in
  let vertices := alter (Vertex.set_position newPosition) v2 vertices in
  let vertices := alter (Vertex.set_isDeleted true) v2 vertices in
  let deletedVertices := Mesh.deletedVertices mesh + 1 in
  (* Step 2 *)
  let edges := alter (Edge.set_isDeleted true) edgeIndex (Mesh.edges mesh) in
  (* Steps 3 and 4 *)
  let '(edges, affectedEdgeIndices) := collapse_edges v1 v2 0 edges in
  (* Step 5 *)
  let faces := collapse_face v1 v2 <$> Mesh.faces mesh in
  (* Step 6 *)
  let vertices := computeQuadric v1 vertices faces in
  (* Step 7 *)
  let edges := recompute_costs vertices affectedEdgeIndices edges in
  (* Step 8 *)
  let t := interpolation_weight vertices v1 v2 newPosition in
  let vertices :=
    alter (Vertex.set_texCoord
             (glm.mix2 (Vertex.texCoord (vertices !!! v1))
                       (Vertex.texCoord (vertices !!! v2)) t)) v1 vertices in
  let vertices :=
    alter (Vertex.set_color
             (glm.mix4 (Vertex.color (vertices !!! v1))
                       (Vertex.color (vertices !!! v2)) t)) v1 vertices in
  Mesh.mk vertices edges faces deletedVertices.

Definition initializeQuadrics (mesh : Mesh.t) : Mesh.t :=
  Mesh.mk
    (fold_left
       (fun vertices i =>
          if Vertex.isDeleted (vertices !!! i) then vertices
          else computeQuadric i vertices (Mesh.faces mesh))
       (seq 0 (length (Mesh.vertices mesh))) (Mesh.vertices mesh))
    (Mesh.edges mesh) (Mesh.faces mesh) (Mesh.deletedVertices mesh).

Definition initializeEdgeCosts (mesh : Mesh.t) : Mesh.t :=
  Mesh.mk (Mesh.vertices mesh)
    ((fun edge => if Edge.isDeleted edge then edge
                  else computeCost edge (Mesh.vertices mesh))
       <$> Mesh.edges mesh)
    (Mesh.faces mesh) (Mesh.deletedVertices mesh).

(* =================================================================== *)
(** ** Mesh::buildMesh (Mesh.h)                                         *)
(* =================================================================== *)

Definition GRID_SIZE : float := F32.lit_1em3.
Definition EPSILON : float := F32.lit_1em4.

(** [(gx, gy, gz)], the key of the spatial hash. *)
Definition grid_key (pos : vec3) : Z * Z * Z :=
  (F32.floor_to_int (F32.div (x3 pos) GRID_SIZE),
   F32.floor_to_int (F32.div (y3 pos) GRID_SIZE),
   F32.floor_to_int (F32.div (z3 pos) GRID_SIZE)).

(** The search through the candidates of one cell: the first one closer
    than [EPSILON]. *)
Fixpoint find_welded (pos : vec3) (verts : list Vertex.t) (candidates : list nat)
  : option nat :=
  match candidates with
  | [] => None
  | existingIdx :: rest =>
      let existingPos := Vertex.position (verts !!! existingIdx) in
      if F32.ltb (glm.distance pos existingPos) EPSILON then Some existingIdx
      else find_welded pos verts rest
  end.

(** [this->vertices], [spatialHash] and [vertexMapping] during step 1. *)
Record weld_state : Type := WeldState {
  w_vertices : list Vertex.t;
  w_spatialHash : gmap (Z * Z * Z) (list nat);
  w_vertexMapping : list nat
}.

(** One round of the welding loop, for input corner [i]. *)
Definition weld_step (vertices : list vec3) (uvs : list vec2) (normals : list vec3)
    (st : weld_state) (i : nat) : weld_state :=
  let pos := vertices !!! i in
  let key := grid_key pos in
  let found :=
    match w_spatialHash st !! key with
    | Some candidates => find_welded pos (w_vertices st) candidates
    | None => None
    end in
  match found with
  | Some existingIdx =>
      WeldState (w_vertices st) (w_spatialHash st)
                (<[i := existingIdx]> (w_vertexMapping st))
  | None =>
      let newIdx := length (w_vertices st) in
      WeldState
        (w_vertices st
           ++ [Vertex.ctor pos (normals !!! i) (uvs !!! i) (glm.vec4_splat F32.one)])
        (<[key := default [] (w_spatialHash st !! key) ++ [newIdx]]> (w_spatialHash st))
        (<[i := newIdx]> (w_vertexMapping st))
  end.

(** One round of the face loop (step 2), for the triangle starting at
    corner [i]. *)
Definition face_step (numVertices : nat) (verts : list Vertex.t)
    (vertexMapping : list nat) (faces : list Face.t) (i : nat) : list Face.t :=
  if decide (i + 2 < numVertices) then
    let v1 := vertexMapping !!! i in
    let v2 := vertexMapping !!! (i + 1) in
    let v3 := vertexMapping !!! (i + 2) in
    if bool_decide (v1 = v2) || bool_decide (v2 = v3) || bool_decide (v3 = v1)
    then faces
    else faces ++ [Face.ctor v1 v2 v3
                     (Vertex.position (verts !!! v1))
                     (Vertex.position (verts !!! v2))
                     (Vertex.position (verts !!! v3))]
  else faces.

(** [if (!edgeSet[e]) { edges.push_back(Edge(e.first, e.second));
    edgeSet[e] = true; }].  A key that is absent reads as [false]. *)
Definition add_edge (e : nat * nat) (st : list Edge.t * gmap (nat * nat) bool)
  : list Edge.t * gmap (nat * nat) bool :=
  if default false (st.2 !! e) then st
  else (st.1 ++ [Edge.ctor uninit_vec3 e.1 e.2], <[e := true]> st.2).

(** One round of the edge loop (step 3). *)
Definition edge_step (st : list Edge.t * gmap (nat * nat) bool) (face : Face.t)
  : list Edge.t * gmap (nat * nat) bool :=
  let e1 := (Nat.min (Face.v1 face) (Face.v2 face), Nat.max (Face.v1 face) (Face.v2 face)) in
  let e2 := (Nat.min (Face.v2 face) (Face.v3 face), Nat.max (Face.v2 face) (Face.v3 face)) in
  let e3 := (Nat.min (Face.v3 face) (Face.v1 face), Nat.max (Face.v3 face) (Face.v1 face)) in
  add_edge e3 (add_edge e2 (add_edge e1 st)).

(** [this->buildMesh(numVertices, vertices, uvs, normals)]. *)
Definition buildMesh (this : Mesh.t) (numVertices : nat) (vertices : list vec3)
    (uvs : list vec2) (normals : list vec3) : Mesh.t :=
  (* Step 1 *)
  let welded :=
    fold_left (weld_step vertices uvs normals) (seq 0 numVertices)
              (WeldState (Mesh.vertices this) ∅ (replicate numVertices 0)) in
  (* Step 2: i = 0, 3, 6, ... while i < numVertices *)
  let faces :=
    fold_left (face_step numVertices (w_vertices welded) (w_vertexMapping welded))
              ((fun j => 3 * j) <$> seq 0 ((numVertices + 2) / 3))
              (Mesh.faces this) in
  (* Step 3 *)
  let '(edges, _) := fold_left edge_step faces (Mesh.edges this, ∅) in
  Mesh.mk (w_vertices welded) edges faces (Mesh.deletedVertices this).

(* =================================================================== *)
(** ** The scheduler: meshSimplify (main.cpp)                           *)
(* =================================================================== *)

(** [std::priority_queue<Edge, std::vector<Edge>, EdgeComparator>] with
    [EdgeComparator(a, b) = a.cost > b.cost]: the entries as a list, [top]
    an entry of least cost.  Which of several entries of least cost comes
    first is left to the library; the model takes the one pushed first. *)
Fixpoint pq_top_index (q : list Edge.t) : nat :=
  match q with
  | [] => 0
  | e :: rest =>
      match rest with
      | [] => 0
      | _ :: _ =>
          let j := pq_top_index rest in
          if F32.ltb (Edge.cost (rest !!! j)) (Edge.cost e) then S j else 0
      end
  end.

Definition pq_push (e : Edge.t) (q : list Edge.t) : list Edge.t := q ++ [e].

(** [top()] followed by [pop()]. *)
Definition pq_pop (q : list Edge.t) : option (Edge.t * list Edge.t) :=
  match q with
  | [] => None
  | _ :: _ => let i := pq_top_index q in Some (q !!! i, delete i q)
  end.

(** The globals [mesh] and [edgeQueue]. *)
Record Sim : Type := MkSim { sim_mesh : Mesh.t; sim_edgeQueue : list Edge.t }.

(** The initialisation of an empty queue: every live edge gets its cost,
    a clear dirty flag and one entry. *)
Definition init_queue_step (vertices : list Vertex.t)
    (acc : list Edge.t * list Edge.t) (e : Edge.t) : list Edge.t * list Edge.t :=
  let '(edges, queue) := acc in
  if Edge.isDeleted e then (edges ++ [e], queue)
  else
    let e := Edge.set_isDirty false (computeCost e vertices) in
    (edges ++ [e], pq_push e queue).

Definition init_queue (st : Sim) : Sim :=
  match sim_edgeQueue st with
  | [] =>
      let mesh := sim_mesh st in
      let '(edges, queue) :=
        fold_left (init_queue_step (Mesh.vertices mesh)) (Mesh.edges mesh) ([], []) in
      MkSim (Mesh.mk (Mesh.vertices mesh) edges (Mesh.faces mesh)
                     (Mesh.deletedVertices mesh)) queue
  | _ :: _ => st
  end.

(** The linear search for the entry's endpoints, in either direction. *)
Fixpoint find_edge_from (i : nat) (a b : nat) (es : list Edge.t) : option nat :=
  match es with
  | [] => None
  | e :: rest =>
      if bool_decide (Edge.v1 e = a ∧ Edge.v2 e = b)
         || bool_decide (Edge.v1 e = b ∧ Edge.v2 e = a)
      then Some i
      else find_edge_from (S i) a b rest
  end.

(** The loop after a collapse: every live edge at [newVertexIndex] is
    marked dirty and pushed. *)
Definition mark_dirty_step (newVertexIndex : nat)
    (acc : list Edge.t * list Edge.t) (e : Edge.t) : list Edge.t * list Edge.t :=
  let '(edges, queue) := acc in
  if Edge.isDeleted e then (edges ++ [e], queue)
  else if bool_decide (Edge.v1 e = newVertexIndex)
          || bool_decide (Edge.v2 e = newVertexIndex)
  then let e := Edge.set_isDirty true e in (edges ++ [e], pq_push e queue)
  else (edges ++ [e], queue).

Definition mark_dirty (newVertexIndex : nat) (mesh : Mesh.t) (queue : list Edge.t)
  : Sim :=
  let '(edges, queue) :=
    fold_left (mark_dirty_step newVertexIndex) (Mesh.edges mesh) ([], queue) in
  MkSim (Mesh.mk (Mesh.vertices mesh) edges (Mesh.faces mesh)
                 (Mesh.deletedVertices mesh)) queue.

(** One round of the [while (!edgeQueue.empty())] loop.  [budget] is
    [originalVertexCount / 100] and [count] the number of collapses so
    far.  [Return]: the loop is left (empty queue, or [break]);
    [Continue]: the next round starts from the given state. *)
Inductive round : Type :=
| Return (st : Sim) (count : nat)
| Continue (st : Sim) (count : nat).

Definition simplify_round (budget : nat) (st : Sim) (count : nat) : round :=
  match pq_pop (sim_edgeQueue st) with
  | None => Return st count
  | Some (edge, queue) =>
      let mesh := sim_mesh st in
      match find_edge_from 0 (Edge.v1 edge) (Edge.v2 edge) (Mesh.edges mesh) with
      | None => Continue (MkSim mesh queue) count
      | Some edgeIndex =>
          if Edge.isDeleted (Mesh.edges mesh !!! edgeIndex) then
            Continue (MkSim mesh queue) count
          else if Edge.isDirty (Mesh.edges mesh !!! edgeIndex) then
            let e := Edge.set_isDirty false
                       (computeCost (Mesh.edges mesh !!! edgeIndex)
                                    (Mesh.vertices mesh)) in
            let mesh := Mesh.mk (Mesh.vertices mesh)
                                (<[edgeIndex := e]> (Mesh.edges mesh))
                                (Mesh.faces mesh) (Mesh.deletedVertices mesh) in
            Continue (MkSim mesh (pq_push e queue)) count
          else
            let mesh := edgeCollapse mesh edgeIndex in
            let newVertexIndex := Edge.v1 (Mesh.edges mesh !!! edgeIndex) in
            let st := mark_dirty newVertexIndex mesh queue in
            let count := S count in
            if decide (budget <= count) then Return st count
            else Continue st count
      end
  end.

(** The loop; [fuel] bounds the number of rounds ([None]: out of fuel). *)
Fixpoint simplify_loop (fuel budget : nat) (st : Sim) (count : nat)
  : option (Sim * nat) :=
  match fuel with
  | 0 => None
  | S fuel =>
      match simplify_round budget st count with
      | Return st count => Some (st, count)
      | Continue st count => simplify_loop fuel budget st count
      end
  end.

(** [meshSimplify()], with the global [originalVertexCount]; the result
    carries the final value of the local [count]. *)
Definition meshSimplify (fuel originalVertexCount : nat) (st : Sim)
  : option (Sim * nat) :=
  simplify_loop fuel (originalVertexCount / 100) (init_queue st) 0.

(* =================================================================== *)
(** ** The render buffers: updateRenderData (main.cpp)                  *)
(* =================================================================== *)

(** The globals [verticesVec4], [colors] and [uvs]. *)
Record RenderData : Type := MkRenderData {
  r_verticesVec4 : list vec4;
  r_colors : list vec4;
  r_uvs : list vec2
}.

(** The body of the face loop: a live face appends its three corners to
    each buffer. *)
Definition render_face (vertices : list Vertex.t) (buf : RenderData) (face : Face.t)
  : RenderData :=
  if Face.isDeleted face then buf
  else
    let v1 := vertices !!! Face.v1 face in
    let v2 := vertices !!! Face.v2 face in
    let v3 := vertices !!! Face.v3 face in
    MkRenderData
      (r_verticesVec4 buf
         ++ [glm.vec4_of (Vertex.position v1) F32.one;
             glm.vec4_of (Vertex.position v2) F32.one;
             glm.vec4_of (Vertex.position v3) F32.one])
      (r_colors buf ++ [Vertex.color v1; Vertex.color v2; Vertex.color v3])
      (r_uvs buf ++ [Vertex.texCoord v1; Vertex.texCoord v2; Vertex.texCoord v3]).

(** [updateRenderData()]: the three buffers after the face loop, and the
    returned [verticesVec4.size()].  The buffers are cleared first; their
    upload to the GPU is outside the model. *)
Definition updateRenderData (mesh : Mesh.t) : RenderData * nat :=
  let buf :=
    fold_left (render_face (Mesh.vertices mesh)) (Mesh.faces mesh)
              (MkRenderData [] [] []) in
  (buf, length (r_verticesVec4 buf)).

(* =================================================================== *)
(** ** Invariants and reachable states                                  *)
(* =================================================================== *)

(** Index [i] refers to a live vertex. *)
Definition live_vertex (vs : list Vertex.t) (i : nat) : Prop :=
  Vertex.isDeleted <$> vs !! i = Some false.

(** A live face has three pairwise-distinct indices of live vertices. *)
Definition face_ok (vs : list Vertex.t) (f : Face.t) : Prop :=
  Face.isDeleted f = false ->
  Face.v1 f <> Face.v2 f /\ Face.v2 f <> Face.v3 f /\ Face.v3 f <> Face.v1 f
  /\ live_vertex vs (Face.v1 f) /\ live_vertex vs (Face.v2 f)
  /\ live_vertex vs (Face.v3 f).

(** A live edge has two distinct endpoints, both live vertices. *)
Definition edge_ok (vs : list Vertex.t) (e : Edge.t) : Prop :=
  Edge.isDeleted e = false ->
  Edge.v1 e <> Edge.v2 e
  /\ live_vertex vs (Edge.v1 e) /\ live_vertex vs (Edge.v2 e).

Definition mesh_ok (m : Mesh.t) : Prop :=
  Forall (face_ok (Mesh.vertices m)) (Mesh.faces m)
  /\ Forall (edge_ok (Mesh.vertices m)) (Mesh.edges m).

(** Edge [i] exists and is live. *)
Definition live_edge (m : Mesh.t) (i : nat) : Prop :=
  Edge.isDeleted <$> Mesh.edges m !! i = Some false.

(** The mesh states of the program: built by [buildMesh] on the empty
    mesh from input vectors that hold [numVertices] corners, given its
    quadrics by [computeAllQuadrics], its edge costs and dirty flags by
    the scheduler, collapsed along live edges, and run through whole calls
    of [meshSimplify]. *)
Inductive reachable : Mesh.t -> Prop :=
| reach_build numVertices vertices uvs normals :
    numVertices <= length vertices ->
    numVertices <= length uvs ->
    numVertices <= length normals ->
    reachable (buildMesh Mesh.empty numVertices vertices uvs normals)
| reach_quadrics m :
    reachable m ->
    reachable (Mesh.mk (computeAllQuadrics (Mesh.vertices m) (Mesh.faces m))
                       (Mesh.edges m) (Mesh.faces m) (Mesh.deletedVertices m))
| reach_cost m i dirty :
    reachable m ->
    reachable (Mesh.mk (Mesh.vertices m)
                 (alter (fun e => Edge.set_isDirty dirty (computeCost e (Mesh.vertices m)))
                        i (Mesh.edges m))
                 (Mesh.faces m) (Mesh.deletedVertices m))
| reach_dirty m i dirty :
    reachable m ->
    reachable (Mesh.mk (Mesh.vertices m)
                 (alter (Edge.set_isDirty dirty) i (Mesh.edges m))
                 (Mesh.faces m) (Mesh.deletedVertices m))
| reach_collapse m edgeIndex :
    reachable m -> live_edge m edgeIndex ->
    reachable (edgeCollapse m edgeIndex)
| reach_simplify fuel originalVertexCount st st' count :
    reachable (sim_mesh st) ->
    meshSimplify fuel originalVertexCount st = Some (st', count) ->
    reachable (sim_mesh st').

(** The undirected key [(min(v1,v2), max(v1,v2))] of every live edge. *)
Definition live_edge_keys (es : list Edge.t) : list (nat * nat) :=
  (fun e => (Nat.min (Edge.v1 e) (Edge.v2 e), Nat.max (Edge.v1 e) (Edge.v2 e)))
    <$> filter (fun e => Edge.isDeleted e = false) es.

(** The interpolation weight as the specification words it: from the
    endpoint positions BEFORE the collapse. *)
Definition spec_interpolation_weight (v1_pre v2_pre optimal : vec3) : float :=
  let total := glm.length (glm.vec3_sub v2_pre v1_pre) in
  if F32.ltb total QEM_EPSILON then F32.half
  else glm.clamp (F32.div (glm.length (glm.vec3_sub optimal v1_pre)) total)
                 F32.zero F32.one.

(** A run of collapses, one edge index after the other. *)
Definition collapse_all (m : Mesh.t) (edgeIndices : list nat) : Mesh.t :=
  fold_left edgeCollapse edgeIndices m.

(* ===================================================================== *)
(** ** Intermediate states and loop invariants                            *)
(* ===================================================================== *)

(** The vertex array after step 1 of [edgeCollapse]. *)
Definition collapse_vertices (m : Mesh.t) (edgeIndex : nat) : list Vertex.t :=
  let edge := Mesh.edges m !!! edgeIndex in
  alter (Vertex.set_isDeleted true) (Edge.v2 edge)
    (alter (Vertex.set_position (Edge.optimalPosition edge)) (Edge.v2 edge)
       (alter (Vertex.set_position (Edge.optimalPosition edge)) (Edge.v1 edge)
          (Mesh.vertices m))).

(** The vertex array after step 6. *)
Definition collapse_quadrics (m : Mesh.t) (edgeIndex : nat) : list Vertex.t :=
  let edge := Mesh.edges m !!! edgeIndex in
  computeQuadric (Edge.v1 edge) (collapse_vertices m edgeIndex)
    (collapse_face (Edge.v1 edge) (Edge.v2 edge) <$> Mesh.faces m).

(** [edge_ok] reads the endpoints and the tombstone only. *)
Definition edge_topology (e : Edge.t) : nat * nat * bool :=
  (Edge.v1 e, Edge.v2 e, Edge.isDeleted e).

(** The state of the welding loop before corner [i] is read. *)
Record weld_inv (numVertices i : nat) (st : weld_state) : Prop := WeldInv {
  weld_live : Forall (fun v => Vertex.isDeleted v = false) (w_vertices st);
  weld_hash : forall key candidates,
    w_spatialHash st !! key = Some candidates ->
    Forall (fun idx => idx < length (w_vertices st)) candidates;
  weld_length : length (w_vertexMapping st) = numVertices;
  weld_mapped : forall j, j < i -> w_vertexMapping st !!! j < length (w_vertices st)
}.

(** A face as the builder emits it: live and well formed. *)
Definition built_face (vs : list Vertex.t) (f : Face.t) : Prop :=
  Face.isDeleted f = false /\ face_ok vs f.

(** What both quadric computations add at vertex [i]: the fundamental
    quadric of every live face that has [i], in face order. *)
Definition quadric_sum (i : nat) (fs : list Face.t) (q0 : mat4) : mat4 :=
  fold_left
    (fun q f => if Face.isDeleted f then q
                else if face_has f i then glm.mat4_add q (face_Kp f) else q)
    fs q0.

(** The live faces of [fs] have three pairwise-distinct indices. *)
Definition faces_nondegenerate (fs : list Face.t) : Prop :=
  Forall (fun f => Face.isDeleted f = false ->
                   Face.v1 f <> Face.v2 f /\ Face.v2 f <> Face.v3 f
                   /\ Face.v3 f <> Face.v1 f) fs.

(* ===================================================================== *)
(** ** Floats, measures and planes                                        *)
(* ===================================================================== *)

(** A zero of either sign, or a NaN. *)
Definition zero_or_nan (x : float) : bool :=
  match x with
  | S754_zero _ | S754_nan => true
  | S754_infinity _ | S754_finite _ _ _ => false
  end.

(** No coordinate is infinite or a NaN. *)
Definition finite_vec3 (p : vec3) : Prop :=
  F32.is_finite (x3 p) = true /\ F32.is_finite (y3 p) = true
  /\ F32.is_finite (z3 p) = true.

(** The number of edges whose dirty flag is set. *)
Definition dirty_count (es : list Edge.t) : nat :=
  sum_list ((fun e => if Edge.isDirty e then 1 else 0) <$> es).

(** Rounds that do not collapse shrink this: they drop a queue entry, or
    trade a dirty flag for one. *)
Definition sim_measure (st : Sim) : nat :=
  length (sim_edgeQueue st) + dirty_count (Mesh.edges (sim_mesh st)).

(** The global [mesh.deletedVertices]. *)
Definition sim_deleted (st : Sim) : nat := Mesh.deletedVertices (sim_mesh st).

(** From [(st, count)] the loop ends once it has enough fuel; it ends
    with at most [max budget (count + 1)] collapses counted, each of
    which tombstoned one vertex. *)
Definition halts (budget : nat) (st : Sim) (count : nat) : Prop :=
  exists fuel, forall fuel', fuel <= fuel' ->
    exists st' count',
      simplify_loop fuel' budget st count = Some (st', count')
      /\ count <= count' /\ count' <= Nat.max budget (S count)
      /\ sim_deleted st' + count = sim_deleted st + count'.

(** The endpoints of every edge, as stored. *)
Definition edge_pairs (es : list Edge.t) : list (nat * nat) :=
  (fun e => (Edge.v1 e, Edge.v2 e)) <$> es.

(** The edge list and [edgeSet] during step 3 of [buildMesh]. *)
Record edge_set_inv (st : list Edge.t * gmap (nat * nat) bool) : Prop := EdgeSetInv {
  edges_nodup : NoDup (edge_pairs st.1);
  edges_seen : forall e, default false (st.2 !! e) = true <-> e ∈ edge_pairs st.1;
  edges_sorted : Forall (fun e => Edge.v1 e < Edge.v2 e /\ Edge.isDeleted e = false) st.1
}.

(** The [planeEquation] of every face, live or tombstoned. *)
Definition face_planes (m : Mesh.t) : list vec4 :=
  Face.planeEquation <$> Mesh.faces m.

(** The plane [Face::computeNormal] derives from the positions the vertex
    array [vs] holds for the three corners of [f]. *)
Definition plane_from (vs : list Vertex.t) (f : Face.t) : vec4 :=
  (Face.computeNormal (Vertex.position (vs !!! Face.v1 f))
                      (Vertex.position (vs !!! Face.v2 f))
                      (Vertex.position (vs !!! Face.v3 f))).2.

(* ===================================================================== *)
(** ** The unit square of scenario S1, as the program prepares it         *)
(* ===================================================================== *)

(** The six corners of the two triangles. *)
Definition square_corners : list vec3 :=
  [Vec3 F32.zero F32.zero F32.zero; Vec3 F32.one F32.zero F32.zero;
   Vec3 F32.one F32.one F32.zero;
   Vec3 F32.zero F32.zero F32.zero; Vec3 F32.one F32.one F32.zero;
   Vec3 F32.zero F32.one F32.zero].

(** Texture coordinates equal to the corner's [(x, y)]; normals [(0,0,1)]. *)
Definition square_uvs : list vec2 :=
  [Vec2 F32.zero F32.zero; Vec2 F32.one F32.zero; Vec2 F32.one F32.one;
   Vec2 F32.zero F32.zero; Vec2 F32.one F32.one; Vec2 F32.zero F32.one].

Definition square_normals : list vec3 :=
  replicate 6 (Vec3 F32.zero F32.zero F32.one).

(** [mesh.buildMesh(...)] followed by [computeAllQuadrics(...)], as [main]
    runs them; [originalVertexCount] is then 4 and the queue empty. *)
Definition square_mesh : Mesh.t :=
  let m := buildMesh Mesh.empty 6 square_corners square_uvs square_normals in
  Mesh.mk (computeAllQuadrics (Mesh.vertices m) (Mesh.faces m))
          (Mesh.edges m) (Mesh.faces m) (Mesh.deletedVertices m).

(** The globals before the first call of [meshSimplify]. *)
Definition square_sim : Sim := MkSim square_mesh [].

(** The state a call of [meshSimplify] ends in (the start state when the
    fuel does not suffice). *)
Definition after_call (fuel originalVertexCount : nat) (st : Sim) : Sim :=
  match meshSimplify fuel originalVertexCount st with
  | Some (st', _) => st'
  | None => st
  end.

(** The state a round leaves. *)
Definition round_state (r : round) : Sim :=
  match r with Return st _ | Continue st _ => st end.

(** The mesh the second call of [meshSimplify] on the square hands to
    [edgeCollapse]: the first call has run, then two rounds of the second
    (a stale entry dropped, a dirty edge refreshed). *)
Definition square_before_second_collapse : Mesh.t :=
  let st1 := init_queue (after_call 100 4 square_sim) in
  let st2 := round_state (simplify_round 0 st1 0) in
  sim_mesh (round_state (simplify_round 0 st2 0)).

(* ===================================================================== *)
(** ** A checker for the invariant                                        *)
(* ===================================================================== *)

Definition live_vertexb (vs : list Vertex.t) (i : nat) : bool :=
  match vs !! i with
  | Some v => negb (Vertex.isDeleted v)
  | None => false
  end.

Definition face_okb (vs : list Vertex.t) (f : Face.t) : bool :=
  Face.isDeleted f
  || (negb (Face.v1 f =? Face.v2 f) && negb (Face.v2 f =? Face.v3 f)
      && negb (Face.v3 f =? Face.v1 f)
      && live_vertexb vs (Face.v1 f) && live_vertexb vs (Face.v2 f)
      && live_vertexb vs (Face.v3 f)).

Definition edge_okb (vs : list Vertex.t) (e : Edge.t) : bool :=
  Edge.isDeleted e
  || (negb (Edge.v1 e =? Edge.v2 e)
      && live_vertexb vs (Edge.v1 e) && live_vertexb vs (Edge.v2 e)).

Definition mesh_okb (m : Mesh.t) : bool :=
  forallb (face_okb (Mesh.vertices m)) (Mesh.faces m)
  && forallb (edge_okb (Mesh.vertices m)) (Mesh.edges m).

(* ===================================================================== *)
(** ** Values for the parameters, and a floating segment                  *)
(* ===================================================================== *)

(** The scenarios are planar or carry zero quadrics: every determinant the
    solver sees is zero, [glm::inverse] is never called and no
    uninitialised value is read.  They are stated for all values of the
    three parameters, and closed with these. *)
Definition unused_inverse (m : mat4) : mat4 := m.

Definition zero3 : vec3 := Vec3 F32.zero F32.zero F32.zero.

Definition zero4 : vec4 := glm.vec4_splat F32.zero.

(** The float 2. *)
Definition two : float := F32.add F32.one F32.one.

(** A floating segment from [(0,0,0)] to [(2,0,0)]: two fresh vertices
    (zero quadrics) and the edge between them. *)
Definition segment_vertices : list Vertex.t :=
  [Vertex.ctor zero3 zero3 (Vec2 F32.zero F32.zero) (glm.vec4_splat F32.one);
   Vertex.ctor (Vec3 two F32.zero F32.zero) zero3 (Vec2 F32.one F32.zero)
               (glm.vec4_splat F32.one)].

Definition segment_edge : Edge.t := Edge.ctor zero3 0 1.

(** The square when the first call of [meshSimplify] reaches its first
    collapse: every edge has its cost, edge 0 is popped. *)
Definition square_with_costs : Mesh.t := sim_mesh (init_queue square_sim).

(** [computeCost(mesh.edges[i], mesh.vertices); mesh.edges[i].isDirty = false;]
    as the scheduler runs it on one edge. *)
Definition refresh_edge (m : Mesh.t) (i : nat) : Mesh.t :=
  Mesh.mk (Mesh.vertices m)
          (alter (fun e => Edge.set_isDirty false (computeCost e (Mesh.vertices m)))
                 i (Mesh.edges m))
          (Mesh.faces m) (Mesh.deletedVertices m).

(* ===================================================================== *)
(** ** Counting, tombstones and degenerate geometry                       *)
(* ===================================================================== *)

(** The number of flags that are set. *)
Definition count_true (bs : list bool) : nat :=
  sum_list ((fun b : bool => if b then 1 else 0) <$> bs).

(** The number of tombstoned vertices. *)
Definition deleted_count (vs : list Vertex.t) : nat :=
  count_true (Vertex.isDeleted <$> vs).

(** The counter [deletedVertices] agrees with the tombstones. *)
Definition counted (m : Mesh.t) : Prop :=
  Mesh.deletedVertices m = deleted_count (Mesh.vertices m).

(** The faces, and the edges, that are not tombstoned, in order. *)
Definition live_faces (fs : list Face.t) : list Face.t :=
  filter (fun f => Face.isDeleted f = false) fs.

Definition live_edges (es : list Edge.t) : list Edge.t :=
  filter (fun e => Edge.isDeleted e = false) es.

(** Flag lists of equal length; a flag that is set stays set. *)
Definition flags_grow (bs bs' : list bool) : Prop :=
  Forall2 (fun b b' : bool => b = true -> b' = true) bs bs'.

(** No vector changes its length and no tombstone is lifted. *)
Definition tombstones_grow (m m' : Mesh.t) : Prop :=
  flags_grow (Vertex.isDeleted <$> Mesh.vertices m) (Vertex.isDeleted <$> Mesh.vertices m')
  /\ flags_grow (Edge.isDeleted <$> Mesh.edges m) (Edge.isDeleted <$> Mesh.edges m')
  /\ flags_grow (Face.isDeleted <$> Mesh.faces m) (Face.isDeleted <$> Mesh.faces m').

(** The index rewrite of a collapse: [v2] becomes [v1]. *)
Definition remap (v1 v2 x : nat) : nat := if decide (x = v2) then v1 else x.

(** The edge joins [a] and [b], in either direction. *)
Definition edge_joins (e : Edge.t) (a b : nat) : bool :=
  bool_decide (Edge.v1 e = a /\ Edge.v2 e = b)
  || bool_decide (Edge.v1 e = b /\ Edge.v2 e = a).

(** The three sides of a face as [buildMesh] keys them. *)
Definition face_sides (f : Face.t) : list (nat * nat) :=
  [(Nat.min (Face.v1 f) (Face.v2 f), Nat.max (Face.v1 f) (Face.v2 f));
   (Nat.min (Face.v2 f) (Face.v3 f), Nat.max (Face.v2 f) (Face.v3 f));
   (Nat.min (Face.v3 f) (Face.v1 f), Nat.max (Face.v3 f) (Face.v1 f))].

(** A zero of either sign. *)
Definition is_zero (x : float) : bool :=
  match x with S754_zero _ => true | _ => false end.

(** NaN, and the vectors and the matrix with NaN in every component. *)
Definition nan : float := S754_nan.
Definition nan3 : vec3 := Vec3 nan nan nan.
Definition nan4 : vec4 := glm.vec4_splat nan.
Definition mat4_nan : mat4 := Mat4 nan4 nan4 nan4 nan4.

(** [Q[c][r] = Q[r][c]] for all rows and columns. *)
Definition mat4_symmetric (Q : mat4) : Prop :=
  y4 (col0 Q) = x4 (col1 Q) /\ z4 (col0 Q) = x4 (col2 Q) /\ w4 (col0 Q) = x4 (col3 Q)
  /\ z4 (col1 Q) = y4 (col2 Q) /\ w4 (col1 Q) = y4 (col3 Q)
  /\ w4 (col2 Q) = z4 (col3 Q).

(** Every vertex carries a symmetric quadric. *)
Definition quadrics_symmetric (vs : list Vertex.t) : Prop :=
  Forall (fun v => mat4_symmetric (Vertex.quadric v)) vs.

(** [candidate^T * Q * candidate] for the point [c], as the solver
    evaluates it. *)
Definition candidate_cost (Q : mat4) (c : vec3) : float :=
  glm.dot4 (glm.vec4_of c F32.one) (glm.mat4_mul_vec4 Q (glm.vec4_of c F32.one)).

(** The welding test of [buildMesh] accepts the vertex position [q] for
    the corner [p]: [q] is in the grid cell of [p], and the vertex was
    created from this very corner or lies closer than [EPSILON]. *)
Definition near (p q : vec3) : Prop :=
  grid_key q = grid_key p
  /\ (q = p \/ F32.ltb (glm.distance p q) EPSILON = true).

(** The vertex [buildMesh] creates for input corner [i]. *)
Definition corner_vertex (vertices : list vec3) (uvs : list vec2) (normals : list vec3)
    (i : nat) : Vertex.t :=
  Vertex.ctor (vertices !!! i) (normals !!! i) (uvs !!! i) (glm.vec4_splat F32.one).

(** The welding loop alone (step 1 of [buildMesh] on the empty mesh). *)
Definition weld_all (numVertices : nat) (vertices : list vec3) (uvs : list vec2)
    (normals : list vec3) : weld_state :=
  fold_left (weld_step vertices uvs normals) (seq 0 numVertices)
            (WeldState [] ∅ (replicate numVertices 0)).

(** The three input vectors hold the [numVertices] corners that
    [buildMesh] reads. *)
Definition inputs_ok (numVertices : nat) (vertices : list vec3) (uvs : list vec2)
    (normals : list vec3) : Prop :=
  numVertices <= length vertices /\ numVertices <= length uvs
  /\ numVertices <= length normals.

(** What the welding loop has established before corner [i] is read:
    every vertex is the verbatim copy of an earlier corner, every earlier
    corner is mapped to a vertex the welding test accepts for it, and the
    hash cell of a key lists exactly the vertices whose position has that
    key. *)
Record weld_facts (vertices : list vec3) (uvs : list vec2) (normals : list vec3)
    (i : nat) (st : weld_state) : Prop := WeldFacts {
  wf_copies :
    Forall (fun v => exists k, k < i /\ v = corner_vertex vertices uvs normals k)
           (w_vertices st);
  wf_near : forall j, j < i ->
    near (vertices !!! j)
         (Vertex.position (w_vertices st !!! (w_vertexMapping st !!! j)));
  wf_cell : forall k v, w_vertices st !! k = Some v ->
    exists candidates,
      w_spatialHash st !! grid_key (Vertex.position v) = Some candidates
      /\ k ∈ candidates;
  wf_cell_sound : forall key candidates k,
    w_spatialHash st !! key = Some candidates -> k ∈ candidates ->
    k < length (w_vertices st)
    /\ grid_key (Vertex.position (w_vertices st !!! k)) = key;
  wf_count : length (w_vertices st) <= i
}.

(** The corners of the triangle that starts at input corner [3 * j] are
    mapped to the corners of [f]. *)
Definition face_of_triangle (vertices : list vec3) (vs : list Vertex.t) (j : nat)
    (f : Face.t) : Prop :=
  near (vertices !!! (3 * j)) (Vertex.position (vs !!! Face.v1 f))
  /\ near (vertices !!! (3 * j + 1)) (Vertex.position (vs !!! Face.v2 f))
  /\ near (vertices !!! (3 * j + 2)) (Vertex.position (vs !!! Face.v3 f)).

(** The vertex indices [updateRenderData] reads, in order: the three
    corners of every live face. *)
Definition render_indices (fs : list Face.t) : list nat :=
  concat ((fun f => [Face.v1 f; Face.v2 f; Face.v3 f]) <$> live_faces fs).

(** The square after three calls of [meshSimplify]: three collapses, one
    vertex left, stale entries still queued. *)
Definition collapsed_square : Sim := Nat.iter 3 (after_call 100 4) square_sim.

(** A zero-area triangle: three distinct points on the x axis. *)
Definition sliver_corners : list vec3 :=
  [Vec3 F32.zero F32.zero F32.zero; Vec3 F32.one F32.zero F32.zero;
   Vec3 two F32.zero F32.zero].

(** [buildMesh] and [computeAllQuadrics] on the sliver. *)
Definition sliver_mesh : Mesh.t :=
  let m := buildMesh Mesh.empty 3 sliver_corners
             (replicate 3 (Vec2 F32.zero F32.zero))
             (replicate 3 (Vec3 F32.zero F32.zero F32.one)) in
  Mesh.mk (computeAllQuadrics (Mesh.vertices m) (Mesh.faces m))
          (Mesh.edges m) (Mesh.faces m) (Mesh.deletedVertices m).

(* =================================================================== *)
(** ** Lists updated in place                                           *)
(* =================================================================== *)

Lemma fmap_alter_same {A B} (proj : A -> B) (f : A -> A) (i : nat) (l : list A) :
  (forall x, proj (f x) = proj x) ->
  proj <$> alter f i l = proj <$> l.
Proof.
  intros Hf. revert i. induction l as [|a l IH]; intros [|i]; csimpl; try done.
  - by rewrite Hf.
  - by rewrite IH.
Qed.

Lemma fmap_alter_set {A B} (proj : A -> B) (f : A -> A) (b : B) (i : nat) (l : list A) :
  (forall x, proj (f x) = b) ->
  proj <$> alter f i l = <[i := b]> (proj <$> l).
Proof.
  intros Hf. revert i. induction l as [|a l IH]; intros [|i]; csimpl; try done.
  - by rewrite Hf.
  - by rewrite IH.
Qed.

Lemma fold_left_preserves {A B} (P : A -> Prop) (f : A -> B -> A) (l : list B) (a : A) :
  P a -> (forall a b, P a -> P (f a b)) -> P (fold_left f l a).
Proof. intros Ha Hf. revert a Ha. induction l; simpl; auto. Qed.

Lemma lookup_total_fmap {A B} `{Inhabited A} `{Inhabited B}
    (proj : A -> B) (l : list A) (i : nat) :
  i < length l -> proj (l !!! i) = (proj <$> l) !!! i.
Proof.
  intros Hi. rewrite !list_lookup_total_alt, list_lookup_fmap.
  destruct (lookup_lt_is_Some_2 l i Hi) as [x ->]. done.
Qed.

(* =================================================================== *)
(** ** What the quadric and cost computations leave alone               *)
(* =================================================================== *)

Lemma computeQuadric_frame {B} (proj : Vertex.t -> B) i vs fs :
  (forall q v, proj (Vertex.set_quadric q v) = proj v) ->
  proj <$> computeQuadric i vs fs = proj <$> vs.
Proof.
  intros Hq. unfold computeQuadric.
  apply (fold_left_preserves (fun vs' => proj <$> vs' = proj <$> vs)).
  - by apply fmap_alter_same.
  - intros vs' f Hvs'. destruct (Face.isDeleted f); [done|].
    destruct (face_has f i); [|done].
    rewrite <- Hvs'. apply fmap_alter_same. intros v. apply Hq.
Qed.

Lemma computeAllQuadrics_frame {B} (proj : Vertex.t -> B) vs fs :
  (forall q v, proj (Vertex.set_quadric q v) = proj v) ->
  proj <$> computeAllQuadrics vs fs = proj <$> vs.
Proof.
  intros Hq. unfold computeAllQuadrics.
  apply (fold_left_preserves (fun vs' => proj <$> vs' = proj <$> vs)).
  - rewrite <- list_fmap_compose. apply list_fmap_ext. intros ? v _. apply Hq.
  - intros vs' f Hvs'. destruct (Face.isDeleted f); [done|].
    rewrite <- Hvs'. rewrite !fmap_alter_same; [done|..]; intros v; apply Hq.
Qed.

(** [computeCost] writes [cost] and [optimalPosition] only. *)
Lemma computeCost_v1 e vs : Edge.v1 (computeCost e vs) = Edge.v1 e.
Proof. unfold computeCost. by destruct (if F32.gtb _ _ then _ else _). Qed.

Lemma computeCost_v2 e vs : Edge.v2 (computeCost e vs) = Edge.v2 e.
Proof. unfold computeCost. by destruct (if F32.gtb _ _ then _ else _). Qed.

Lemma computeCost_isDeleted e vs :
  Edge.isDeleted (computeCost e vs) = Edge.isDeleted e.
Proof. unfold computeCost. by destruct (if F32.gtb _ _ then _ else _). Qed.

Lemma computeCost_isDirty e vs : Edge.isDirty (computeCost e vs) = Edge.isDirty e.
Proof. unfold computeCost. by destruct (if F32.gtb _ _ then _ else _). Qed.

Lemma recompute_costs_frame {B} (proj : Edge.t -> B) vs affected es :
  (forall e, proj (computeCost e vs) = proj e) ->
  proj <$> recompute_costs vs affected es = proj <$> es.
Proof.
  intros Hc. unfold recompute_costs.
  apply (fold_left_preserves (fun es' => proj <$> es' = proj <$> es)); [done|].
  intros es' i Hes'. destruct (Edge.isDeleted _); [done|].
  rewrite <- Hes'. by apply fmap_alter_same.
Qed.

(* =================================================================== *)
(** ** The components of a collapsed mesh                               *)
(* =================================================================== *)

Lemma edgeCollapse_faces m ei :
  Mesh.faces (edgeCollapse m ei)
  = collapse_face (Edge.v1 (Mesh.edges m !!! ei)) (Edge.v2 (Mesh.edges m !!! ei))
      <$> Mesh.faces m.
Proof. unfold edgeCollapse. by destruct (collapse_edges _ _ _ _). Qed.

Lemma edgeCollapse_edges m ei :
  let edge := Mesh.edges m !!! ei in
  let r := collapse_edges (Edge.v1 edge) (Edge.v2 edge) 0
             (alter (Edge.set_isDeleted true) ei (Mesh.edges m)) in
  Mesh.edges (edgeCollapse m ei) = recompute_costs (collapse_quadrics m ei) r.2 r.1.
Proof. unfold edgeCollapse. simpl. by destruct (collapse_edges _ _ _ _). Qed.

Lemma edgeCollapse_deletedVertices m ei :
  Mesh.deletedVertices (edgeCollapse m ei) = Mesh.deletedVertices m + 1.
Proof. unfold edgeCollapse. by destruct (collapse_edges _ _ _ _). Qed.

Lemma edgeCollapse_vertices_frame {B} (proj : Vertex.t -> B) m ei :
  (forall q v, proj (Vertex.set_quadric q v) = proj v) ->
  (forall uv v, proj (Vertex.set_texCoord uv v) = proj v) ->
  (forall c v, proj (Vertex.set_color c v) = proj v) ->
  proj <$> Mesh.vertices (edgeCollapse m ei) = proj <$> collapse_vertices m ei.
Proof.
  intros Hq Huv Hc. unfold edgeCollapse. destruct (collapse_edges _ _ _ _). simpl.
  rewrite fmap_alter_same by (intros; apply Hc).
  rewrite fmap_alter_same by (intros; apply Huv).
  by rewrite computeQuadric_frame.
Qed.

Lemma edgeCollapse_positions m ei :
  let edge := Mesh.edges m !!! ei in
  Vertex.position <$> Mesh.vertices (edgeCollapse m ei)
  = <[Edge.v2 edge := Edge.optimalPosition edge]>
      (<[Edge.v1 edge := Edge.optimalPosition edge]>
         (Vertex.position <$> Mesh.vertices m)).
Proof.
  intros edge. rewrite edgeCollapse_vertices_frame by done.
  unfold collapse_vertices. fold edge.
  rewrite fmap_alter_same by done.
  by rewrite !(fmap_alter_set _ _ (Edge.optimalPosition edge)) by done.
Qed.

Lemma edgeCollapse_isDeleted m ei :
  Vertex.isDeleted <$> Mesh.vertices (edgeCollapse m ei)
  = <[Edge.v2 (Mesh.edges m !!! ei) := true]> (Vertex.isDeleted <$> Mesh.vertices m).
Proof.
  rewrite edgeCollapse_vertices_frame by done. unfold collapse_vertices.
  rewrite (fmap_alter_set _ _ true) by done.
  by rewrite !fmap_alter_same by done.
Qed.

Lemma edgeCollapse_length_vertices m ei :
  length (Mesh.vertices (edgeCollapse m ei)) = length (Mesh.vertices m).
Proof.
  rewrite <- (length_fmap Vertex.isDeleted), edgeCollapse_isDeleted.
  by rewrite length_insert, length_fmap.
Qed.

Lemma collapse_face_planeEquation v1 v2 f :
  Face.planeEquation (collapse_face v1 v2 f) = Face.planeEquation f.
Proof.
  unfold collapse_face. destruct (Face.isDeleted f); [done|].
  repeat case_decide; simpl; try done; by destruct (_ || _).
Qed.

(* =================================================================== *)
(** ** The collapse keeps live faces and live edges well formed         *)
(* =================================================================== *)

Lemma collapse_edges_fst v1 v2 i es :
  (collapse_edges v1 v2 i es).1 = (fun e => (collapse_edge v1 v2 e).1) <$> es.
Proof.
  revert i. induction es as [|e es IH]; intros i; [done|]. simpl.
  specialize (IH (S i)). destruct (collapse_edge v1 v2 e) as [e' hit].
  destruct (collapse_edges v1 v2 (S i) es) as [rest affected]. simpl in *.
  by rewrite IH.
Qed.

Lemma collapse_edges_snd v1 v2 i es j :
  j ∈ (collapse_edges v1 v2 i es).2 <->
  exists k e, j = i + k /\ es !! k = Some e /\ (collapse_edge v1 v2 e).2 = true.
Proof.
  revert i. induction es as [|e es IH]; intros i.
  - simpl. split; [by intros ?%elem_of_nil|]. by intros (k & e & _ & ? & _).
  - simpl. specialize (IH (S i)).
    destruct (collapse_edge v1 v2 e) as [e' hit] eqn:He.
    destruct (collapse_edges v1 v2 (S i) es) as [rest affected]. simpl in *.
    split.
    + intros Hj.
      assert (j ∈ affected \/ (hit = true /\ j = i)) as [Hin|[-> ->]].
      { destruct hit; [apply elem_of_cons in Hj as [->|?]|]; auto. }
      * apply IH in Hin as (k & e0 & -> & Hk & Hhit).
        exists (S k), e0. split; [lia|done].
      * exists 0, e. rewrite He. split; [lia|done].
    + intros ([|k] & e0 & -> & Hk & Hhit); simpl in Hk.
      * injection Hk as <-. rewrite He in Hhit. simpl in Hhit. subst hit.
        replace (i + 0) with i by lia. apply elem_of_cons. by left.
      * assert (i + S k ∈ affected) as Hin.
        { apply IH. exists k, e0. split; [lia|done]. }
        destruct hit; [apply elem_of_cons; by right|done].
Qed.

Lemma live_vertex_lookup vs i :
  live_vertex vs i <-> (Vertex.isDeleted <$> vs) !! i = Some false.
Proof. unfold live_vertex. by rewrite list_lookup_fmap. Qed.

Lemma live_vertex_lt vs i : live_vertex vs i -> i < length vs.
Proof.
  unfold live_vertex. intros Hl. apply lookup_lt_is_Some.
  destruct (vs !! i); [eauto|done].
Qed.

Lemma live_vertex_ext vs vs' i :
  Vertex.isDeleted <$> vs = Vertex.isDeleted <$> vs' ->
  live_vertex vs i -> live_vertex vs' i.
Proof. rewrite !live_vertex_lookup. by intros ->. Qed.

Lemma edgeCollapse_live_vertex m ei i :
  i <> Edge.v2 (Mesh.edges m !!! ei) ->
  live_vertex (Mesh.vertices m) i ->
  live_vertex (Mesh.vertices (edgeCollapse m ei)) i.
Proof.
  intros Hne. rewrite !live_vertex_lookup, edgeCollapse_isDeleted.
  by rewrite list_lookup_insert_ne.
Qed.

Lemma collapse_face_ok vs vs' v1 v2 f :
  v1 <> v2 -> live_vertex vs' v1 ->
  (forall i, i <> v2 -> live_vertex vs i -> live_vertex vs' i) ->
  face_ok vs f -> face_ok vs' (collapse_face v1 v2 f).
Proof.
  intros Hne Hv1 Hlive Hf. unfold collapse_face.
  destruct (Face.isDeleted f) eqn:Hdel; [intros ?; congruence|].
  destruct (Hf Hdel) as (_ & _ & _ & Ha & Hb & Hc).
  set (f1 := if decide (Face.v1 f = v2) then Face.set_v1 v1 f else f).
  set (f2 := if decide (Face.v2 f1 = v2) then Face.set_v2 v1 f1 else f1).
  set (f3 := if decide (Face.v3 f2 = v2) then Face.set_v3 v1 f2 else f2).
  assert (live_vertex vs' (Face.v1 f3) /\ live_vertex vs' (Face.v2 f3)
          /\ live_vertex vs' (Face.v3 f3)) as (Ha' & Hb' & Hc').
  { subst f3 f2 f1. repeat case_decide; simpl in *; auto. }
  destruct (bool_decide (Face.v1 f3 = Face.v2 f3)) eqn:E1; simpl; [done|].
  destruct (bool_decide (Face.v2 f3 = Face.v3 f3)) eqn:E2; simpl; [done|].
  destruct (bool_decide (Face.v3 f3 = Face.v1 f3)) eqn:E3; simpl; [done|].
  apply bool_decide_eq_false in E1, E2, E3. intros _. auto 10.
Qed.

Lemma collapse_edge_ok vs vs' v1 v2 e :
  v1 <> v2 -> live_vertex vs' v1 ->
  (forall i, i <> v2 -> live_vertex vs i -> live_vertex vs' i) ->
  edge_ok vs e -> edge_ok vs' (collapse_edge v1 v2 e).1.
Proof.
  intros Hne Hv1 Hlive He. unfold collapse_edge.
  destruct (Edge.isDeleted e) eqn:Hdel; [intros ?; simpl in *; congruence|].
  destruct (He Hdel) as (_ & Ha & Hb).
  set (e1 := if decide (Edge.v1 e = v2) then Edge.set_v1 v1 e else e).
  set (e2 := if decide (Edge.v2 e1 = v2) then Edge.set_v2 v1 e1 else e1).
  assert (live_vertex vs' (Edge.v1 e2) /\ live_vertex vs' (Edge.v2 e2)) as (Ha' & Hb').
  { subst e2 e1. repeat case_decide; simpl in *; auto. }
  destruct (decide (Edge.v1 e2 = Edge.v2 e2)); simpl; [done|]. intros _. auto.
Qed.

Lemma edge_ok_topology vs es es' :
  edge_topology <$> es = edge_topology <$> es' ->
  Forall (edge_ok vs) es -> Forall (edge_ok vs) es'.
Proof.
  intros Heq Hes.
  assert (Forall (fun t => t.2 = false -> t.1.1 <> t.1.2
                    /\ live_vertex vs t.1.1 /\ live_vertex vs t.1.2)
                 (edge_topology <$> es')) as H.
  { rewrite <- Heq. apply Forall_fmap. eapply Forall_impl; [exact Hes|]. by intros e. }
  apply Forall_fmap in H. eapply Forall_impl; [exact H|]. by intros e.
Qed.

Lemma edge_ok_vertices vs vs' es :
  Vertex.isDeleted <$> vs = Vertex.isDeleted <$> vs' ->
  Forall (edge_ok vs) es -> Forall (edge_ok vs') es.
Proof.
  intros Heq Hes. eapply Forall_impl; [exact Hes|]. intros e He Hdel.
  destruct (He Hdel) as (? & ? & ?). eauto using live_vertex_ext.
Qed.

Lemma face_ok_vertices vs vs' fs :
  Vertex.isDeleted <$> vs = Vertex.isDeleted <$> vs' ->
  Forall (face_ok vs) fs -> Forall (face_ok vs') fs.
Proof.
  intros Heq Hfs. eapply Forall_impl; [exact Hfs|]. intros f Hf Hdel.
  destruct (Hf Hdel) as (? & ? & ? & ? & ? & ?).
  eauto 10 using live_vertex_ext.
Qed.

Lemma live_edge_total m ei :
  live_edge m ei ->
  Mesh.edges m !! ei = Some (Mesh.edges m !!! ei)
  /\ Edge.isDeleted (Mesh.edges m !!! ei) = false.
Proof.
  unfold live_edge. intros Hl. rewrite list_lookup_total_alt.
  destruct (Mesh.edges m !! ei) as [e|]; [|done]. simpl in *. split; congruence.
Qed.

Lemma edgeCollapse_ok m ei :
  mesh_ok m -> live_edge m ei -> mesh_ok (edgeCollapse m ei).
Proof.
  intros [Hfaces Hedges] Hlive.
  destruct (live_edge_total _ _ Hlive) as [Hei Hdel].
  set (edge := Mesh.edges m !!! ei) in *.
  assert (edge_ok (Mesh.vertices m) edge) as Hedge.
  { eapply Forall_lookup_1; eauto. }
  destruct (Hedge Hdel) as (Hne & Hv1 & Hv2).
  assert (live_vertex (Mesh.vertices (edgeCollapse m ei)) (Edge.v1 edge)) as Hv1'.
  { by apply edgeCollapse_live_vertex. }
  assert (forall i, i <> Edge.v2 edge -> live_vertex (Mesh.vertices m) i ->
                    live_vertex (Mesh.vertices (edgeCollapse m ei)) i) as Hkeep.
  { intros i ? ?. by apply edgeCollapse_live_vertex. }
  split.
  - rewrite edgeCollapse_faces. apply Forall_fmap.
    eapply Forall_impl; [exact Hfaces|]. intros f Hf.
    by apply (collapse_face_ok (Mesh.vertices m)).
  - rewrite edgeCollapse_edges. simpl. fold edge.
    eapply edge_ok_topology.
    { symmetry. apply recompute_costs_frame. intros e. unfold edge_topology.
      by rewrite computeCost_v1, computeCost_v2, computeCost_isDeleted. }
    rewrite collapse_edges_fst. apply Forall_fmap.
    assert (Forall (edge_ok (Mesh.vertices m))
              (alter (Edge.set_isDeleted true) ei (Mesh.edges m))) as Hedges'.
    { apply Forall_alter; [done|]. intros e _ He ?. simpl in *. congruence. }
    eapply Forall_impl; [exact Hedges'|]. intros e He.
    by apply (collapse_edge_ok (Mesh.vertices m)).
Qed.

(* =================================================================== *)
(** ** What buildMesh establishes                                       *)
(* =================================================================== *)

Lemma find_welded_elem_of pos verts candidates idx :
  find_welded pos verts candidates = Some idx -> idx ∈ candidates.
Proof.
  induction candidates as [|c cs IH]; simpl; [done|].
  destruct (F32.ltb _ _).
  - intros [= ->]. apply elem_of_cons. by left.
  - intros H. apply elem_of_cons. right. by apply IH.
Qed.

Lemma weld_step_inv numVertices vertices uvs normals i st :
  i < numVertices ->
  weld_inv numVertices i st ->
  weld_inv numVertices (S i) (weld_step vertices uvs normals st i).
Proof.
  intros Hi [Hlive Hhash Hlen Hmap]. unfold weld_step.
  set (pos := vertices !!! i). set (key := grid_key pos).
  destruct (match w_spatialHash st !! key with
            | Some candidates => find_welded pos (w_vertices st) candidates
            | None => None
            end) as [existingIdx|] eqn:Hfound.
  - assert (existingIdx < length (w_vertices st)) as Hex.
    { destruct (w_spatialHash st !! key) as [candidates|] eqn:Hkey; [|done].
      apply find_welded_elem_of in Hfound. specialize (Hhash _ _ Hkey).
      rewrite Forall_forall in Hhash. by apply Hhash. }
    split; simpl; [done|done|by rewrite length_insert|].
    intros j Hj. destruct (decide (j = i)) as [->|Hne].
    + rewrite list_lookup_total_insert_eq by lia. done.
    + rewrite list_lookup_total_insert_ne by done. apply Hmap. lia.
  - split; simpl.
    + apply Forall_app. split; [done|]. by repeat constructor.
    + intros key' candidates. rewrite length_app. simpl.
      destruct (decide (key = key')) as [<-|Hne].
      * rewrite lookup_insert_eq. intros [= <-]. apply Forall_app. split.
        -- destruct (w_spatialHash st !! key) as [c|] eqn:Hkey; simpl; [|done].
           eapply Forall_impl; [by eapply Hhash|]. simpl. lia.
        -- repeat constructor. lia.
      * rewrite lookup_insert_ne by done. intros Hk.
        eapply Forall_impl; [by eapply Hhash|]. simpl. lia.
    + by rewrite length_insert.
    + intros j Hj. rewrite length_app. simpl.
      destruct (decide (j = i)) as [->|Hne].
      * rewrite list_lookup_total_insert_eq by lia. lia.
      * rewrite list_lookup_total_insert_ne by done.
        assert (j < i) as Hji by lia. specialize (Hmap j Hji). lia.
Qed.

Lemma weld_loop_inv numVertices vertices uvs normals k :
  k <= numVertices ->
  weld_inv numVertices k
    (fold_left (weld_step vertices uvs normals) (seq 0 k)
               (WeldState [] ∅ (replicate numVertices 0))).
Proof.
  induction k as [|k IH]; intros Hk.
  - split; simpl; [done| |by rewrite length_replicate|lia].
    intros key candidates. by rewrite lookup_empty.
  - rewrite seq_S, fold_left_app. simpl. apply weld_step_inv; [lia|]. apply IH. lia.
Qed.

Lemma live_vertex_intro vs i :
  Forall (fun v => Vertex.isDeleted v = false) vs -> i < length vs -> live_vertex vs i.
Proof.
  intros Hall Hi. unfold live_vertex.
  destruct (lookup_lt_is_Some_2 vs i Hi) as [v Hv]. rewrite Hv. simpl.
  f_equal. eapply Forall_lookup_1 in Hv; [|exact Hall]. done.
Qed.

Lemma face_step_inv numVertices vs vertexMapping faces i :
  Forall (fun v => Vertex.isDeleted v = false) vs ->
  (forall j, j < numVertices -> vertexMapping !!! j < length vs) ->
  Forall (built_face vs) faces ->
  Forall (built_face vs) (face_step numVertices vs vertexMapping faces i).
Proof.
  intros Hlive Hmap Hfaces. unfold face_step.
  case_decide as Hi; [|done].
  case_bool_decide as E1; simpl; [done|].
  case_bool_decide as E2; simpl; [done|].
  case_bool_decide as E3; simpl; [done|].
  apply Forall_app. split; [done|]. apply Forall_singleton. split; [done|].
  intros _. change (Face.v1 (Face.ctor ?a ?b ?c _ _ _)) with a.
  change (Face.v2 (Face.ctor ?a ?b ?c _ _ _)) with b.
  change (Face.v3 (Face.ctor ?a ?b ?c _ _ _)) with c.
  repeat split; try done; apply live_vertex_intro; try done; apply Hmap; lia.
Qed.

Lemma add_edge_inv vs a b st :
  a <> b -> live_vertex vs a -> live_vertex vs b ->
  Forall (edge_ok vs) st.1 ->
  Forall (edge_ok vs) (add_edge (Nat.min a b, Nat.max a b) st).1.
Proof.
  intros Hne Ha Hb Hst. unfold add_edge.
  destruct (default false _); [done|]. simpl.
  apply Forall_app. split; [done|]. apply Forall_singleton. intros _. simpl.
  destruct (Nat.min_spec a b) as [[? ->]|[? ->]];
    destruct (Nat.max_spec a b) as [[? ->]|[? ->]]; try lia; auto.
Qed.

Lemma edge_step_inv vs st f :
  built_face vs f ->
  Forall (edge_ok vs) st.1 -> Forall (edge_ok vs) (edge_step st f).1.
Proof.
  intros [Hdel Hf] Hst. destruct (Hf Hdel) as (? & ? & ? & ? & ? & ?).
  unfold edge_step. by repeat apply add_edge_inv.
Qed.

Lemma edge_loop_inv vs faces st :
  Forall (built_face vs) faces ->
  Forall (edge_ok vs) st.1 -> Forall (edge_ok vs) (fold_left edge_step faces st).1.
Proof.
  intros Hfaces. revert st. induction Hfaces as [|f faces Hf _ IH]; intros st Hst.
  - done.
  - simpl. apply IH. by apply edge_step_inv.
Qed.

Lemma buildMesh_ok numVertices vertices uvs normals :
  mesh_ok (buildMesh Mesh.empty numVertices vertices uvs normals).
Proof.
  unfold buildMesh. simpl.
  set (welded := fold_left _ (seq 0 numVertices) _).
  destruct (weld_loop_inv numVertices vertices uvs normals numVertices (le_n _))
    as [Hlive _ _ Hmap]. fold welded in Hlive, Hmap.
  set (faces := fold_left _ _ []).
  assert (Forall (built_face (w_vertices welded)) faces) as Hfaces.
  { subst faces. apply (fold_left_preserves (Forall (built_face (w_vertices welded)))).
    - constructor.
    - intros fs i Hfs. by apply face_step_inv. }
  pose proof (edge_loop_inv (w_vertices welded) faces ([], ∅) Hfaces) as Hedges.
  destruct (fold_left edge_step faces ([], ∅)) as [edges edgeSet]. simpl in *.
  split; simpl.
  - eapply Forall_impl; [exact Hfaces|]. by intros f [_ ?].
  - apply Hedges. constructor.
Qed.

Lemma mesh_ok_quadrics m :
  mesh_ok m ->
  mesh_ok (Mesh.mk (computeAllQuadrics (Mesh.vertices m) (Mesh.faces m))
                   (Mesh.edges m) (Mesh.faces m) (Mesh.deletedVertices m)).
Proof.
  intros [Hf He].
  assert (Vertex.isDeleted <$> Mesh.vertices m
          = Vertex.isDeleted <$> computeAllQuadrics (Mesh.vertices m) (Mesh.faces m)) as Heq.
  { symmetry. by apply computeAllQuadrics_frame. }
  split; simpl; eauto using face_ok_vertices, edge_ok_vertices.
Qed.

Lemma mesh_ok_edges m es :
  edge_topology <$> Mesh.edges m = edge_topology <$> es ->
  mesh_ok m ->
  mesh_ok (Mesh.mk (Mesh.vertices m) es (Mesh.faces m) (Mesh.deletedVertices m)).
Proof. intros Heq [Hf He]. split; simpl; eauto using edge_ok_topology. Qed.

(** ** The quadric of one vertex, face by face *)

Lemma quadric_alter_add K (j : nat) (vs : list Vertex.t) :
  Vertex.quadric <$> alter (add_quadric K) j vs
  = alter (fun q => glm.mat4_add q K) j (Vertex.quadric <$> vs).
Proof. apply list_fmap_alter. by apply Forall_forall. Qed.

Lemma computeQuadric_lookup i vs fs :
  i < length vs ->
  (Vertex.quadric <$> computeQuadric i vs fs) !! i
  = Some (quadric_sum i fs glm.mat4_zero).
Proof.
  intros Hi. unfold computeQuadric, quadric_sum.
  set (vs0 := alter (Vertex.set_quadric glm.mat4_zero) i vs).
  assert ((Vertex.quadric <$> vs0) !! i = Some glm.mat4_zero) as H0.
  { subst vs0. rewrite (fmap_alter_set _ _ glm.mat4_zero) by done.
    apply list_lookup_insert_eq. by rewrite length_fmap. }
  clearbody vs0. clear vs Hi. revert vs0 H0. generalize glm.mat4_zero.
  induction fs as [|f fs IH]; intros q vs Hq; simpl; [done|].
  destruct (Face.isDeleted f); [by apply IH|].
  destruct (face_has f i); [|by apply IH].
  apply IH. rewrite quadric_alter_add, list_lookup_alter_eq, Hq. done.
Qed.

Lemma computeAllQuadrics_lookup i vs fs :
  faces_nondegenerate fs -> i < length vs ->
  (Vertex.quadric <$> computeAllQuadrics vs fs) !! i
  = Some (quadric_sum i fs glm.mat4_zero).
Proof.
  intros Hfs Hi. unfold computeAllQuadrics, quadric_sum.
  set (vs0 := Vertex.set_quadric glm.mat4_zero <$> vs).
  assert ((Vertex.quadric <$> vs0) !! i = Some glm.mat4_zero) as H0.
  { subst vs0. rewrite <- list_fmap_compose, list_lookup_fmap.
    destruct (lookup_lt_is_Some_2 vs i Hi) as [v ->]. done. }
  clearbody vs0. clear vs Hi. revert vs0 H0. generalize glm.mat4_zero.
  induction Hfs as [|f fs Hf _ IH]; intros q vs Hq; simpl; [done|].
  destruct (Face.isDeleted f) eqn:Hdel; [by apply IH|].
  destruct (Hf eq_refl) as (H12 & H23 & H31).
  apply IH. rewrite !quadric_alter_add. unfold face_has.
  repeat case_bool_decide; simpl; subst;
    repeat (rewrite list_lookup_alter_eq || rewrite list_lookup_alter_ne by done);
    try congruence; by rewrite Hq.
Qed.

(* =================================================================== *)
(** ** binary32 facts about zeros                                       *)
(* =================================================================== *)

Lemma mul_zero_or_nan_l x y : zero_or_nan x = true -> zero_or_nan (F32.mul x y) = true.
Proof. destruct x, y; simpl; done. Qed.

Lemma mul_zero_or_nan_r x y : zero_or_nan y = true -> zero_or_nan (F32.mul x y) = true.
Proof. destruct x, y; simpl; done. Qed.

Lemma add_zero_or_nan x y :
  zero_or_nan x = true -> zero_or_nan y = true -> zero_or_nan (F32.add x y) = true.
Proof. destruct x as [[]|[]| |[]], y as [[]|[]| |[]]; simpl; done. Qed.

Lemma sqrt_zero_or_nan x : zero_or_nan x = true -> zero_or_nan (F32.sqrt x) = true.
Proof. destruct x as [[]|[]| |[]]; simpl; done. Qed.

Lemma sub_self_zero_or_nan x : zero_or_nan (F32.sub x x) = true.
Proof.
  destruct x as [[]|[]| |s m e]; try done.
  unfold F32.sub. cbv beta iota zeta delta [SFsub]. by rewrite Z.sub_diag.
Qed.

Lemma ltb_zero_or_nan_zero x : zero_or_nan x = true -> F32.ltb x F32.zero = false.
Proof. destruct x as [[]|[]| |[]]; simpl; done. Qed.

(** The quadratic form of the zero matrix is a zero or a NaN everywhere... *)
Lemma zero_form_zero_or_nan (c : vec4) :
  zero_or_nan (glm.dot4 c (glm.mat4_mul_vec4 glm.mat4_zero c)) = true.
Proof.
  destruct c as [x y z w].
  unfold glm.dot4, glm.mat4_mul_vec4, glm.mat4_zero, glm.vec4_add, glm.vec4_scale,
    glm.vec4_splat.
  cbn [x4 y4 z4 w4 col0 col1 col2 col3].
  repeat (apply add_zero_or_nan || (apply mul_zero_or_nan_l; reflexivity)
          || apply mul_zero_or_nan_r).
Qed.

(** ... and exactly [+0] at a finite point [(x, y, z, 1)]. *)
Lemma zero_form_finite (p : vec3) :
  finite_vec3 p ->
  glm.dot4 (glm.vec4_of p F32.one)
           (glm.mat4_mul_vec4 glm.mat4_zero (glm.vec4_of p F32.one)) = F32.zero.
Proof.
  destruct p as [x y z]. intros (Hx & Hy & Hz). simpl in *.
  destruct x as [[]|?| |[] ? ?]; try discriminate Hx;
    destruct y as [[]|?| |[] ? ?]; try discriminate Hy;
    destruct z as [[]|?| |[] ? ?]; try discriminate Hz; reflexivity.
Qed.

(** The length of a vector minus itself never exceeds [QEM_EPSILON]. *)
Lemma length_sub_self (p : vec3) :
  F32.gtb (glm.length (glm.vec3_sub p p)) QEM_EPSILON = false.
Proof.
  assert (zero_or_nan (glm.length (glm.vec3_sub p p)) = true) as H.
  { unfold glm.length, glm.dot3, glm.vec3_sub. cbn [x3 y3 z3].
    apply sqrt_zero_or_nan.
    repeat (apply add_zero_or_nan || apply mul_zero_or_nan_r);
      apply sub_self_zero_or_nan. }
  destruct (glm.length _) as [[]|[]| |[]]; done.
Qed.

(* =================================================================== *)
(** ** The cost solver on zero quadrics                                 *)
(* =================================================================== *)

Lemma try_candidate_first (p : vec3) :
  finite_vec3 p ->
  try_candidate glm.mat4_zero (F32.FLT_MAX, uninit_vec4) p
  = (F32.zero, glm.vec4_of p F32.one).
Proof. intros Hp. unfold try_candidate. by rewrite zero_form_finite. Qed.

Lemma try_candidate_tie (best : vec4) (p : vec3) :
  try_candidate glm.mat4_zero (F32.zero, best) p = (F32.zero, best).
Proof.
  unfold try_candidate.
  by rewrite ltb_zero_or_nan_zero by apply zero_form_zero_or_nan.
Qed.

Lemma computeCost_zero_quadrics edge vertices :
  Vertex.quadric (vertices !!! Edge.v1 edge) = glm.mat4_zero ->
  Vertex.quadric (vertices !!! Edge.v2 edge) = glm.mat4_zero ->
  finite_vec3 (Vertex.position (vertices !!! Edge.v1 edge)) ->
  computeCost edge vertices
  = Edge.set_cost F32.zero
      (Edge.set_optimalPosition (Vertex.position (vertices !!! Edge.v1 edge)) edge).
Proof.
  intros H1 H2 Hfin. unfold computeCost. rewrite H1, H2.
  change (glm.mat4_add glm.mat4_zero glm.mat4_zero) with glm.mat4_zero.
  change (F32.gtb (F32.abs (glm.determinant (constrain_last_row glm.mat4_zero)))
                  QEM_EPSILON) with false.
  cbn [fold_left]. rewrite try_candidate_first by done.
  rewrite !try_candidate_tie.
  by destruct (Vertex.position (vertices !!! Edge.v1 edge)).
Qed.

(* =================================================================== *)
(** ** The interpolation weight of a collapse                           *)
(* =================================================================== *)

Lemma fmap_eq_lookup_total {A B} `{Inhabited A} (proj : A -> B) (l l' : list A) i :
  proj <$> l = proj <$> l' -> i < length l -> proj (l !!! i) = proj (l' !!! i).
Proof.
  intros Heq Hi.
  assert (i < length l') as Hi'.
  { rewrite <- (length_fmap proj l'), <- Heq, length_fmap. done. }
  assert ((proj <$> l) !! i = (proj <$> l') !! i) as Hl by by rewrite Heq.
  rewrite !list_lookup_fmap in Hl. rewrite !list_lookup_total_alt.
  destruct (lookup_lt_is_Some_2 l i Hi) as [x Hx].
  destruct (lookup_lt_is_Some_2 l' i Hi') as [x' Hx'].
  rewrite Hx, Hx' in *. simpl in *. congruence.
Qed.

Lemma fmap_eq_lookup_total_insert {A B} `{Inhabited A} (proj : A -> B)
    (l : list A) (k : list B) i b :
  proj <$> l = <[i := b]> k -> i < length k -> proj (l !!! i) = b.
Proof.
  intros Heq Hi.
  assert ((proj <$> l) !! i = Some b) as Hl.
  { rewrite Heq. by apply list_lookup_insert_eq. }
  rewrite list_lookup_fmap in Hl. rewrite list_lookup_total_alt.
  destruct (l !! i); simpl in *; congruence.
Qed.

Lemma collapse_quadrics_positions m ei :
  let edge := Mesh.edges m !!! ei in
  Vertex.position <$> collapse_quadrics m ei
  = <[Edge.v2 edge := Edge.optimalPosition edge]>
      (<[Edge.v1 edge := Edge.optimalPosition edge]>
         (Vertex.position <$> Mesh.vertices m)).
Proof.
  intros edge. unfold collapse_quadrics. rewrite computeQuadric_frame by done.
  unfold collapse_vertices. fold edge. rewrite fmap_alter_same by done.
  by rewrite !(fmap_alter_set _ _ (Edge.optimalPosition edge)) by done.
Qed.

Lemma insert_insert_lookup_total {B} `{Inhabited B} (k : list B) i j b :
  i < length k -> (<[j := b]> (<[i := b]> k)) !!! i = b.
Proof.
  intros Hi. destruct (decide (j = i)) as [->|Hne].
  - by rewrite list_lookup_total_insert_eq by by rewrite length_insert.
  - rewrite list_lookup_total_insert_ne by done.
    by rewrite list_lookup_total_insert_eq.
Qed.

Lemma collapse_quadrics_position_v1 m ei :
  let edge := Mesh.edges m !!! ei in
  Edge.v1 edge < length (Mesh.vertices m) ->
  Vertex.position (collapse_quadrics m ei !!! Edge.v1 edge) = Edge.optimalPosition edge.
Proof.
  intros edge Hv1. pose proof (collapse_quadrics_positions m ei) as Hpos.
  assert (length (collapse_quadrics m ei) = length (Mesh.vertices m)) as Hlen.
  { rewrite <- (length_fmap Vertex.position), Hpos.
    by rewrite !length_insert, length_fmap. }
  rewrite lookup_total_fmap by (rewrite Hlen; exact Hv1). rewrite Hpos.
  apply insert_insert_lookup_total. by rewrite length_fmap.
Qed.

Lemma collapse_quadrics_position_v2 m ei :
  let edge := Mesh.edges m !!! ei in
  Edge.v2 edge < length (Mesh.vertices m) ->
  Vertex.position (collapse_quadrics m ei !!! Edge.v2 edge) = Edge.optimalPosition edge.
Proof.
  intros edge Hv2.
  apply (fmap_eq_lookup_total_insert _ _ _ _ _ (collapse_quadrics_positions m ei)).
  by rewrite length_insert, length_fmap.
Qed.

Lemma interpolation_weight_same vs v1 v2 newPosition :
  Vertex.position (vs !!! v1) = Vertex.position (vs !!! v2) ->
  interpolation_weight vs v1 v2 newPosition = F32.half.
Proof. intros Hp. unfold interpolation_weight. by rewrite Hp, length_sub_self. Qed.

(** Both endpoints already sit at [optimalPosition] when the weight is
    computed, so the weight is the default [0.5f] whatever the input. *)
Lemma edgeCollapse_weight m ei :
  let edge := Mesh.edges m !!! ei in
  Edge.v1 edge < length (Mesh.vertices m) ->
  Edge.v2 edge < length (Mesh.vertices m) ->
  interpolation_weight (collapse_quadrics m ei) (Edge.v1 edge) (Edge.v2 edge)
                       (Edge.optimalPosition edge) = F32.half.
Proof.
  intros edge Hv1 Hv2. subst edge. apply interpolation_weight_same.
  by rewrite collapse_quadrics_position_v1, collapse_quadrics_position_v2.
Qed.

Lemma edgeCollapse_vertices m ei :
  let edge := Mesh.edges m !!! ei in
  let vs := collapse_quadrics m ei in
  let t := interpolation_weight vs (Edge.v1 edge) (Edge.v2 edge)
                                (Edge.optimalPosition edge) in
  let vs1 := alter (Vertex.set_texCoord
                      (glm.mix2 (Vertex.texCoord (vs !!! Edge.v1 edge))
                                (Vertex.texCoord (vs !!! Edge.v2 edge)) t))
                   (Edge.v1 edge) vs in
  Mesh.vertices (edgeCollapse m ei)
  = alter (Vertex.set_color
             (glm.mix4 (Vertex.color (vs1 !!! Edge.v1 edge))
                       (Vertex.color (vs1 !!! Edge.v2 edge)) t))
          (Edge.v1 edge) vs1.
Proof. unfold edgeCollapse. simpl. by destruct (collapse_edges _ _ _ _). Qed.

Lemma lookup_total_alter_proj {A B} `{Inhabited A} (proj : A -> B) (f : A -> A)
    (i j : nat) (l : list A) :
  (forall x, proj (f x) = proj x) -> proj (alter f i l !!! j) = proj (l !!! j).
Proof.
  intros Hf. rewrite list_lookup_total_alter.
  case_decide as Hd; [destruct Hd as [-> _]; apply Hf|done].
Qed.

Lemma collapse_quadrics_frame {B} (proj : Vertex.t -> B) m ei :
  (forall q v, proj (Vertex.set_quadric q v) = proj v) ->
  (forall p v, proj (Vertex.set_position p v) = proj v) ->
  (forall b v, proj (Vertex.set_isDeleted b v) = proj v) ->
  proj <$> collapse_quadrics m ei = proj <$> Mesh.vertices m.
Proof.
  intros Hq Hp Hd. unfold collapse_quadrics. rewrite computeQuadric_frame by done.
  unfold collapse_vertices. by rewrite !fmap_alter_same.
Qed.

Lemma collapse_quadrics_length m ei :
  length (collapse_quadrics m ei) = length (Mesh.vertices m).
Proof.
  by rewrite <- (length_fmap Vertex.texCoord), collapse_quadrics_frame, length_fmap.
Qed.

(** The attributes of the surviving vertex: always the plain average
    ([glm::mix] with weight [0.5f]) of the two endpoints' attributes. *)
Lemma edgeCollapse_attributes m ei :
  let edge := Mesh.edges m !!! ei in
  let vs := Mesh.vertices m in
  Edge.v1 edge < length vs -> Edge.v2 edge < length vs ->
  Vertex.texCoord (Mesh.vertices (edgeCollapse m ei) !!! Edge.v1 edge)
  = glm.mix2 (Vertex.texCoord (vs !!! Edge.v1 edge))
             (Vertex.texCoord (vs !!! Edge.v2 edge)) F32.half
  /\ Vertex.color (Mesh.vertices (edgeCollapse m ei) !!! Edge.v1 edge)
     = glm.mix4 (Vertex.color (vs !!! Edge.v1 edge))
                (Vertex.color (vs !!! Edge.v2 edge)) F32.half.
Proof.
  intros edge vs Hv1 Hv2. subst edge vs.
  rewrite edgeCollapse_vertices. cbv zeta. rewrite edgeCollapse_weight by done.
  set (edge := Mesh.edges m !!! ei) in *. set (vsQ := collapse_quadrics m ei).
  assert (length vsQ = length (Mesh.vertices m)) as Hlen
    by apply collapse_quadrics_length.
  assert (forall k, k < length (Mesh.vertices m) ->
            Vertex.texCoord (vsQ !!! k) = Vertex.texCoord (Mesh.vertices m !!! k)) as Huv.
  { intros k Hk. apply fmap_eq_lookup_total; [|lia]. by apply collapse_quadrics_frame. }
  assert (forall k, k < length (Mesh.vertices m) ->
            Vertex.color (vsQ !!! k) = Vertex.color (Mesh.vertices m !!! k)) as Hcol.
  { intros k Hk. apply fmap_eq_lookup_total; [|lia]. by apply collapse_quadrics_frame. }
  split.
  - rewrite (lookup_total_alter_proj Vertex.texCoord) by done.
    rewrite list_lookup_total_alter_eq by lia. simpl. by rewrite !Huv.
  - rewrite list_lookup_total_alter_eq by (rewrite length_alter; lia). simpl.
    rewrite !(lookup_total_alter_proj Vertex.color) by done. by rewrite !Hcol.
Qed.

(* =================================================================== *)
(** ** The edges a collapse refreshes                                   *)
(* =================================================================== *)

Lemma computeCost_idempotent e vs : computeCost (computeCost e vs) vs = computeCost e vs.
Proof.
  unfold computeCost at 1. rewrite !computeCost_v1, !computeCost_v2.
  unfold computeCost. by destruct (if F32.gtb _ _ then _ else _).
Qed.

Lemma computeCost_ext e vs vs' :
  (forall i, Vertex.position (vs !!! i) = Vertex.position (vs' !!! i)) ->
  (forall i, Vertex.quadric (vs !!! i) = Vertex.quadric (vs' !!! i)) ->
  computeCost e vs = computeCost e vs'.
Proof. intros Hp Hq. unfold computeCost. by rewrite !Hp, !Hq. Qed.

Lemma recompute_costs_lookup vs affected es (i : nat) :
  recompute_costs vs affected es !! i
  = (fun e => if bool_decide (i ∈ affected) && negb (Edge.isDeleted e)
              then computeCost e vs else e) <$> es !! i.
Proof.
  unfold recompute_costs. revert es.
  induction affected as [|a rest IH]; intros es; simpl.
  - by destruct (es !! i).
  - rewrite IH. clear IH.
    assert (bool_decide (i ∈ a :: rest)
            = bool_decide (i = a) || bool_decide (i ∈ rest)) as ->.
    { rewrite <- bool_decide_or. apply bool_decide_ext, elem_of_cons. }
    destruct (Edge.isDeleted (es !!! a)) eqn:Hdel.
    + destruct (es !! i) as [e|] eqn:Hi; simpl; [|done].
      destruct (decide (i = a)) as [->|Hne].
      * rewrite (list_lookup_total_correct _ _ _ Hi) in Hdel. rewrite Hdel.
        by rewrite !andb_false_r.
      * by rewrite (bool_decide_eq_false_2 (i = a)) by done.
    + destruct (decide (i = a)) as [->|Hne].
      * rewrite list_lookup_alter_eq. destruct (es !! a) as [e|] eqn:Hi; simpl; [|done].
        rewrite (list_lookup_total_correct _ _ _ Hi) in Hdel.
        rewrite computeCost_isDeleted, Hdel, computeCost_idempotent.
        rewrite (bool_decide_eq_true_2 (a = a)) by done. simpl.
        by destruct (bool_decide _).
      * rewrite list_lookup_alter_ne by done.
        by rewrite (bool_decide_eq_false_2 (i = a)) by done.
Qed.

Lemma collapse_edge_hit v1 v2 e :
  (collapse_edge v1 v2 e).2 = true <->
  Edge.isDeleted (collapse_edge v1 v2 e).1 = false
  /\ (Edge.v1 (collapse_edge v1 v2 e).1 = v1 \/ Edge.v2 (collapse_edge v1 v2 e).1 = v1).
Proof.
  unfold collapse_edge. destruct (Edge.isDeleted e) eqn:Hdel; simpl.
  { rewrite Hdel. split; [done|]. by intros [? _]. }
  set (e1 := if decide (Edge.v1 e = v2) then Edge.set_v1 v1 e else e).
  set (e2 := if decide (Edge.v2 e1 = v2) then Edge.set_v2 v1 e1 else e1).
  assert (Edge.isDeleted e2 = false) as Hdel2.
  { subst e2 e1. by repeat case_decide. }
  destruct (decide (Edge.v1 e2 = Edge.v2 e2)); simpl.
  - split; [done|]. by intros [? _].
  - rewrite Hdel2, orb_true_iff, !bool_decide_eq_true. tauto.
Qed.

Lemma collapse_edge_isDirty v1 v2 e :
  Edge.isDirty (collapse_edge v1 v2 e).1 = Edge.isDirty e.
Proof.
  unfold collapse_edge. destruct (Edge.isDeleted e); [done|].
  repeat case_decide; done.
Qed.

Lemma edgeCollapse_isDirty m ei :
  Edge.isDirty <$> Mesh.edges (edgeCollapse m ei) = Edge.isDirty <$> Mesh.edges m.
Proof.
  rewrite edgeCollapse_edges. simpl.
  rewrite recompute_costs_frame by (intros e; apply computeCost_isDirty).
  rewrite collapse_edges_fst, <- list_fmap_compose.
  rewrite <- (fmap_alter_same Edge.isDirty (Edge.set_isDeleted true) ei) by done.
  apply list_fmap_ext. intros ? e _. apply collapse_edge_isDirty.
Qed.

(** Every edge that is live and touches [v1] after the collapse carries
    the solver's cost and position for the final vertex data. *)
Lemma edgeCollapse_refreshed m ei i e' :
  Mesh.edges (edgeCollapse m ei) !! i = Some e' ->
  Edge.isDeleted e' = false ->
  Edge.v1 e' = Edge.v1 (Mesh.edges m !!! ei)
  \/ Edge.v2 e' = Edge.v1 (Mesh.edges m !!! ei) ->
  computeCost e' (Mesh.vertices (edgeCollapse m ei)) = e'.
Proof.
  intros Hi Hlive Htouch.
  set (edge := Mesh.edges m !!! ei) in *.
  assert (computeCost e' (Mesh.vertices (edgeCollapse m ei))
          = computeCost e' (collapse_quadrics m ei)) as ->.
  { apply computeCost_ext; intros k; rewrite edgeCollapse_vertices; cbv zeta;
      by rewrite !lookup_total_alter_proj. }
  rewrite edgeCollapse_edges in Hi. cbv zeta in Hi. fold edge in Hi.
  rewrite recompute_costs_lookup, collapse_edges_fst, list_lookup_fmap in Hi.
  destruct (alter (Edge.set_isDeleted true) ei (Mesh.edges m) !! i) as [e0|] eqn:He0;
    simpl in Hi; [|done].
  set (e1 := (collapse_edge (Edge.v1 edge) (Edge.v2 edge) e0).1) in *.
  destruct (bool_decide _ && negb (Edge.isDeleted e1)) eqn:Hhit.
  - injection Hi as <-. apply computeCost_idempotent.
  - injection Hi as <-. exfalso.
    rewrite Hlive in Hhit. simpl in Hhit. rewrite andb_true_r in Hhit.
    apply bool_decide_eq_false in Hhit. apply Hhit.
    apply collapse_edges_snd. exists i, e0. split; [done|]. split; [done|].
    apply collapse_edge_hit. by fold e1.
Qed.

(* =================================================================== *)
(** ** The scheduler loop ends, and how many collapses it makes         *)
(* =================================================================== *)

Lemma pq_top_index_lt q : q <> [] -> pq_top_index q < length q.
Proof.
  induction q as [|e rest IH]; [done|]. intros _. simpl.
  destruct rest as [|e' rest']; [lia|].
  destruct (F32.ltb _ _); [|lia].
  assert (pq_top_index (e' :: rest') < length (e' :: rest')) by by apply IH.
  simpl in *. lia.
Qed.

Lemma pq_pop_length q e q' : pq_pop q = Some (e, q') -> S (length q') = length q.
Proof.
  unfold pq_pop. destruct q as [|e0 rest]; [done|]. intros [= _ <-].
  pose proof (pq_top_index_lt (e0 :: rest)) as Hlt.
  rewrite length_delete by (apply lookup_lt_is_Some_2, Hlt; done).
  specialize (Hlt ltac:(done)). simpl in *. lia.
Qed.

Lemma find_edge_from_lt i a b es idx :
  find_edge_from i a b es = Some idx -> i <= idx < i + length es.
Proof.
  revert i. induction es as [|e rest IH]; intros i; simpl; [done|].
  destruct (_ || _).
  - intros [= <-]. lia.
  - intros H%IH. lia.
Qed.

Lemma dirty_count_cons e es :
  dirty_count (e :: es) = (if Edge.isDirty e then 1 else 0) + dirty_count es.
Proof. done. Qed.

Lemma dirty_count_insert es i e e' :
  es !! i = Some e -> Edge.isDirty e = true -> Edge.isDirty e' = false ->
  S (dirty_count (<[i := e']> es)) = dirty_count es.
Proof.
  revert i. induction es as [|e0 rest IH]; intros [|i]; try done.
  - intros [= ->] Hd Hd'.
    change (<[0 := e']> (e :: rest)) with (e' :: rest).
    by rewrite !dirty_count_cons, Hd, Hd'.
  - intros Hi Hd Hd'.
    change (<[S i := e']> (e0 :: rest)) with (e0 :: <[i := e']> rest).
    rewrite !dirty_count_cons, <- (IH i Hi Hd Hd'). lia.
Qed.

Lemma mark_dirty_deleted nv mesh queue :
  sim_deleted (mark_dirty nv mesh queue) = Mesh.deletedVertices mesh.
Proof. unfold mark_dirty. by destruct (fold_left _ _ _). Qed.

Lemma simplify_round_spec budget st count :
  match simplify_round budget st count with
  | Return st' count' =>
      (st' = st /\ count' = count)
      \/ (count' = S count /\ budget <= S count
          /\ sim_deleted st' = sim_deleted st + 1)
  | Continue st' count' =>
      (count' = count /\ sim_measure st' < sim_measure st
       /\ sim_deleted st' = sim_deleted st)
      \/ (count' = S count /\ S count < budget
          /\ sim_deleted st' = sim_deleted st + 1)
  end.
Proof.
  unfold simplify_round.
  destruct (pq_pop (sim_edgeQueue st)) as [[edge queue]|] eqn:Hpop; [|by left].
  apply pq_pop_length in Hpop.
  destruct (find_edge_from 0 _ _ _) as [edgeIndex|] eqn:Hfind.
  2:{ left. unfold sim_measure. simpl. split; [done|]. split; [lia|done]. }
  apply find_edge_from_lt in Hfind.
  destruct (Edge.isDeleted _) eqn:Hdel.
  { left. unfold sim_measure. simpl. split; [done|]. split; [lia|done]. }
  destruct (Edge.isDirty _) eqn:Hdirty.
  { left. unfold sim_measure, pq_push. simpl. split; [done|]. split; [|done].
    rewrite length_app. simpl.
    assert (Mesh.edges (sim_mesh st) !! edgeIndex
            = Some (Mesh.edges (sim_mesh st) !!! edgeIndex)) as Hlk.
    { apply list_lookup_lookup_total_lt. lia. }
    pose proof (dirty_count_insert _ _ _
                  (Edge.set_isDirty false
                     (computeCost (Mesh.edges (sim_mesh st) !!! edgeIndex)
                                  (Mesh.vertices (sim_mesh st))))
                  Hlk Hdirty eq_refl).
    lia. }
  case_decide.
  - right. rewrite mark_dirty_deleted, edgeCollapse_deletedVertices. done.
  - right. rewrite mark_dirty_deleted, edgeCollapse_deletedVertices.
    split; [done|]. split; [lia|done].
Qed.

Lemma halts_return budget st count st' count' :
  simplify_round budget st count = Return st' count' -> halts budget st count.
Proof.
  intros Hr. pose proof (simplify_round_spec budget st count) as Hs.
  rewrite Hr in Hs. exists 1. intros [|fuel'] Hf; [lia|].
  exists st', count'. simpl. rewrite Hr. split; [done|].
  destruct Hs as [[-> ->]|(-> & ? & ?)]; lia.
Qed.

Lemma halts_continue budget st count st1 count1 :
  simplify_round budget st count = Continue st1 count1 ->
  halts budget st1 count1 -> halts budget st count.
Proof.
  intros Hr (fuel & Hfuel). pose proof (simplify_round_spec budget st count) as Hs.
  rewrite Hr in Hs. exists (S fuel). intros [|fuel'] Hf; [lia|].
  destruct (Hfuel fuel' ltac:(lia)) as (st' & count' & Hloop & Hle & Hmax & Hdel).
  exists st', count'. simpl. rewrite Hr. split; [done|].
  destruct Hs as [(-> & ? & ?)|(-> & ? & ?)]; lia.
Qed.

Lemma halts_between_collapses budget count :
  (forall st1, halts budget st1 (S count)) \/ budget <= S count ->
  forall n st, sim_measure st <= n -> halts budget st count.
Proof.
  intros Hnext. induction n as [|n IH]; intros st Hn.
  all: destruct (simplify_round budget st count) as [st'|st1 count1] eqn:Hr;
    [by eapply halts_return|].
  all: pose proof (simplify_round_spec budget st count) as Hs; rewrite Hr in Hs.
  all: eapply halts_continue; [exact Hr|].
  all: destruct Hs as [(-> & Hlt & _)|(-> & Hlt & _)];
    [|destruct Hnext as [Hnext|Hnext]; [apply Hnext|lia]].
  - lia.
  - apply IH. lia.
Qed.

Lemma simplify_loop_halts budget d :
  forall st count, budget - count <= d -> halts budget st count.
Proof.
  induction d as [|d IH]; intros st count Hd.
  - apply (halts_between_collapses budget count) with (n := sim_measure st); [|done].
    right. lia.
  - apply (halts_between_collapses budget count) with (n := sim_measure st); [|done].
    left. intros st1. apply IH. lia.
Qed.

Lemma init_queue_deleted st : sim_deleted (init_queue st) = sim_deleted st.
Proof.
  unfold init_queue. destruct (sim_edgeQueue st); [|done].
  by destruct (fold_left _ _ _).
Qed.

(* ===================================================================== *)
(** ** The edges buildMesh extracts are pairwise distinct                 *)
(* ===================================================================== *)

Lemma add_edge_set_inv lo hi st :
  lo < hi -> edge_set_inv st -> edge_set_inv (add_edge (lo, hi) st).
Proof.
  intros Hlt [Hnd Hseen Hsorted]. unfold add_edge.
  destruct (default false (st.2 !! (lo, hi))) eqn:Hin; [done|].
  assert ((lo, hi) ∉ edge_pairs st.1) as Hfresh.
  { intros Hel. apply Hseen in Hel. congruence. }
  split; simpl.
  - unfold edge_pairs. rewrite fmap_app. apply NoDup_app. split; [done|]. split.
    + intros e He. simpl. rewrite list_elem_of_singleton. intros ->. done.
    + simpl. apply NoDup_singleton.
  - intros e. unfold edge_pairs. rewrite fmap_app, elem_of_app. simpl.
    rewrite list_elem_of_singleton.
    destruct (decide (e = (lo, hi))) as [->|Hne].
    + rewrite lookup_insert_eq. simpl. split; auto.
    + rewrite lookup_insert_ne by done. rewrite Hseen. unfold edge_pairs. tauto.
  - apply Forall_app. split; [done|]. by apply Forall_singleton.
Qed.

Lemma edge_step_set_inv vs st f :
  built_face vs f -> edge_set_inv st -> edge_set_inv (edge_step st f).
Proof.
  intros [Hdel Hf] Hst. destruct (Hf Hdel) as (? & ? & ? & _).
  unfold edge_step. repeat apply add_edge_set_inv; try done; lia.
Qed.

Lemma live_edge_keys_sorted es :
  Forall (fun e => Edge.v1 e < Edge.v2 e /\ Edge.isDeleted e = false) es ->
  live_edge_keys es = edge_pairs es.
Proof.
  unfold live_edge_keys, edge_pairs. induction 1 as [|e es [Hlt Hdel] _ IH]; [done|].
  rewrite filter_cons_True by done. csimpl. rewrite IH.
  by rewrite Nat.min_l, Nat.max_r by lia.
Qed.

(** Right after [buildMesh] no two live edges join the same two vertices. *)
Lemma buildMesh_edges_distinct numVertices vertices uvs normals :
  NoDup (live_edge_keys
           (Mesh.edges (buildMesh Mesh.empty numVertices vertices uvs normals))).
Proof.
  unfold buildMesh. simpl.
  set (welded := fold_left _ (seq 0 numVertices) _).
  destruct (weld_loop_inv numVertices vertices uvs normals numVertices (le_n _))
    as [Hlive _ _ Hmap]. fold welded in Hlive, Hmap.
  set (faces := fold_left _ _ []).
  assert (Forall (built_face (w_vertices welded)) faces) as Hfaces.
  { subst faces. apply (fold_left_preserves (Forall (built_face (w_vertices welded)))).
    - constructor.
    - intros fs i Hfs. by apply face_step_inv. }
  assert (edge_set_inv (fold_left edge_step faces ([], ∅))) as [Hnd _ Hsorted].
  { assert (edge_set_inv ([], ∅)) as H0.
    { split; simpl; [constructor| |constructor].
      intros e. rewrite lookup_empty. simpl. split; [done|]. by intros ?%elem_of_nil. }
    revert H0. generalize (@nil Edge.t, (∅ : gmap (nat * nat) bool)).
    induction Hfaces as [|f fs Hf _ IH]; intros st Hst; [done|].
    simpl. apply IH. by eapply edge_step_set_inv. }
  destruct (fold_left edge_step faces ([], ∅)) as [edges edgeSet]. simpl in *.
  by rewrite live_edge_keys_sorted.
Qed.

(* ===================================================================== *)
(** ** Face planes                                                        *)
(* ===================================================================== *)

Lemma edgeCollapse_planes m ei : face_planes (edgeCollapse m ei) = face_planes m.
Proof.
  unfold face_planes. rewrite edgeCollapse_faces, <- list_fmap_compose.
  apply list_fmap_ext. intros ? f _. apply collapse_face_planeEquation.
Qed.

Lemma collapse_all_planes m eis : face_planes (collapse_all m eis) = face_planes m.
Proof.
  unfold collapse_all. revert m. induction eis as [|ei eis IH]; intros m; [done|].
  simpl. by rewrite IH, edgeCollapse_planes.
Qed.

Lemma mark_dirty_faces nv mesh queue :
  Mesh.faces (sim_mesh (mark_dirty nv mesh queue)) = Mesh.faces mesh.
Proof. unfold mark_dirty. by destruct (fold_left _ _ _). Qed.

Lemma init_queue_faces st :
  Mesh.faces (sim_mesh (init_queue st)) = Mesh.faces (sim_mesh st).
Proof.
  unfold init_queue. destruct (sim_edgeQueue st); [|done].
  by destruct (fold_left _ _ _).
Qed.

Lemma simplify_round_planes budget st count :
  match simplify_round budget st count with
  | Return st' _ | Continue st' _ =>
      face_planes (sim_mesh st') = face_planes (sim_mesh st)
  end.
Proof.
  unfold simplify_round.
  destruct (pq_pop _) as [[edge queue]|]; [|done].
  destruct (find_edge_from _ _ _ _) as [edgeIndex|]; [|done].
  destruct (Edge.isDeleted _); [done|]. destruct (Edge.isDirty _); [done|].
  case_decide; unfold face_planes; by rewrite mark_dirty_faces, edgeCollapse_faces,
    <- list_fmap_compose; apply list_fmap_ext; intros ? f _;
    apply collapse_face_planeEquation.
Qed.

Lemma simplify_loop_planes fuel budget st count :
  match simplify_loop fuel budget st count with
  | Some (st', _) => face_planes (sim_mesh st') = face_planes (sim_mesh st)
  | None => True
  end.
Proof.
  revert st count. induction fuel as [|fuel IH]; intros st count; simpl; [done|].
  pose proof (simplify_round_planes budget st count) as Hr.
  destruct (simplify_round budget st count) as [st1 c1|st1 c1]; [done|].
  specialize (IH st1 c1). destruct (simplify_loop fuel budget st1 c1) as [[st' c']|];
    [|done]. congruence.
Qed.

Lemma face_step_planes numVertices vs vertexMapping faces i :
  Forall (fun f => Face.planeEquation f = plane_from vs f) faces ->
  Forall (fun f => Face.planeEquation f = plane_from vs f)
         (face_step numVertices vs vertexMapping faces i).
Proof.
  intros Hfaces. unfold face_step. case_decide; [|done].
  destruct (_ || _); [done|]. apply Forall_app. split; [done|].
  by apply Forall_singleton.
Qed.

Lemma buildMesh_planes numVertices vertices uvs normals :
  let m := buildMesh Mesh.empty numVertices vertices uvs normals in
  face_planes m = plane_from (Mesh.vertices m) <$> Mesh.faces m.
Proof.
  unfold buildMesh, face_planes. simpl.
  set (welded := fold_left _ (seq 0 numVertices) _).
  set (faces := fold_left _ _ []).
  assert (Forall (fun f => Face.planeEquation f = plane_from (w_vertices welded) f)
                 faces) as Hfaces.
  { subst faces. apply (fold_left_preserves
      (Forall (fun f => Face.planeEquation f = plane_from (w_vertices welded) f))).
    - constructor.
    - intros fs i Hfs. by apply face_step_planes. }
  destruct (fold_left edge_step faces ([], ∅)) as [edges edgeSet]. simpl.
  apply list_fmap_ext. intros i f Hf. eapply Forall_lookup_1 in Hf; [|exact Hfaces]. done.
Qed.

(* ===================================================================== *)
(** ** The scheduler keeps the mesh well formed                           *)
(* ===================================================================== *)

Lemma init_queue_edges vs es acc q :
  (fold_left (init_queue_step vs) es (acc, q)).1
  = acc ++ ((fun e => if Edge.isDeleted e then e
                      else Edge.set_isDirty false (computeCost e vs)) <$> es).
Proof.
  revert acc q. induction es as [|e es IH]; intros acc q; simpl.
  - by rewrite app_nil_r.
  - destruct (Edge.isDeleted e); rewrite IH, <- app_assoc; done.
Qed.

Lemma mark_dirty_edges nv es acc q :
  (fold_left (mark_dirty_step nv) es (acc, q)).1
  = acc ++ ((fun e => if Edge.isDeleted e then e
                      else if bool_decide (Edge.v1 e = nv) || bool_decide (Edge.v2 e = nv)
                           then Edge.set_isDirty true e else e) <$> es).
Proof.
  revert acc q. induction es as [|e es IH]; intros acc q; simpl.
  - by rewrite app_nil_r.
  - destruct (Edge.isDeleted e); [|destruct (_ || _)]; rewrite IH, <- app_assoc; done.
Qed.

Lemma edge_topology_set_isDirty dirty e :
  edge_topology (Edge.set_isDirty dirty e) = edge_topology e.
Proof. done. Qed.

Lemma edge_topology_computeCost e vs : edge_topology (computeCost e vs) = edge_topology e.
Proof.
  unfold edge_topology. by rewrite computeCost_v1, computeCost_v2, computeCost_isDeleted.
Qed.

Lemma edge_topology_refresh dirty e vs :
  edge_topology (Edge.set_isDirty dirty (computeCost e vs)) = edge_topology e.
Proof. by rewrite edge_topology_set_isDirty, edge_topology_computeCost. Qed.

Lemma init_queue_ok st : mesh_ok (sim_mesh st) -> mesh_ok (sim_mesh (init_queue st)).
Proof.
  intros Hok. unfold init_queue. destruct (sim_edgeQueue st); [|done].
  pose proof (init_queue_edges (Mesh.vertices (sim_mesh st))
                (Mesh.edges (sim_mesh st)) [] []) as Hedges.
  destruct (fold_left _ _ _) as [edges queue]. cbn [fst app] in Hedges. subst edges.
  apply mesh_ok_edges; [|done]. cbn [Mesh.edges sim_mesh]. rewrite <- list_fmap_compose.
  apply list_fmap_ext. intros ? e _. unfold compose.
  destruct (Edge.isDeleted e) eqn:Hdel; [done|]. symmetry. apply edge_topology_refresh.
Qed.

Lemma mark_dirty_ok nv mesh queue :
  mesh_ok mesh -> mesh_ok (sim_mesh (mark_dirty nv mesh queue)).
Proof.
  intros Hok. unfold mark_dirty.
  pose proof (mark_dirty_edges nv (Mesh.edges mesh) [] queue) as Hedges.
  destruct (fold_left _ _ _) as [edges queue']. cbn [fst app] in Hedges. subst edges.
  apply mesh_ok_edges; [|done]. cbn [Mesh.edges sim_mesh]. rewrite <- list_fmap_compose.
  apply list_fmap_ext. intros ? e _. unfold compose.
  destruct (Edge.isDeleted e) eqn:Hdel; [done|]. by destruct (_ || _).
Qed.

Lemma simplify_round_ok budget st count :
  mesh_ok (sim_mesh st) ->
  mesh_ok (sim_mesh (round_state (simplify_round budget st count))).
Proof.
  intros Hok. unfold simplify_round.
  destruct (pq_pop _) as [[edge queue]|]; [|done].
  destruct (find_edge_from _ _ _ _) as [edgeIndex|] eqn:Hfind; [|done].
  apply find_edge_from_lt in Hfind.
  assert (Mesh.edges (sim_mesh st) !! edgeIndex
          = Some (Mesh.edges (sim_mesh st) !!! edgeIndex)) as Hlk.
  { apply list_lookup_lookup_total_lt. lia. }
  destruct (Edge.isDeleted _) eqn:Hdel; [done|].
  destruct (Edge.isDirty _).
  - cbn [round_state sim_mesh]. apply mesh_ok_edges; [|done].
    cbn [Mesh.edges]. rewrite list_fmap_insert.
    symmetry. apply list_insert_id. rewrite list_lookup_fmap, Hlk.
    cbn [fmap option_fmap option_map]. by rewrite edge_topology_refresh.
  - assert (mesh_ok (edgeCollapse (sim_mesh st) edgeIndex)) as Hok'.
    { apply edgeCollapse_ok; [done|]. unfold live_edge. by rewrite Hlk; simpl; rewrite Hdel. }
    case_decide; cbn [round_state]; by apply mark_dirty_ok.
Qed.

Lemma simplify_loop_ok fuel budget st count st' count' :
  mesh_ok (sim_mesh st) ->
  simplify_loop fuel budget st count = Some (st', count') ->
  mesh_ok (sim_mesh st').
Proof.
  revert st count. induction fuel as [|fuel IH]; intros st count Hok; simpl; [done|].
  pose proof (simplify_round_ok budget st count Hok) as Hr.
  destruct (simplify_round budget st count) as [st1 c1|st1 c1]; simpl in Hr.
  - by intros [= <- _].
  - by apply IH.
Qed.

Lemma meshSimplify_ok fuel originalVertexCount st st' count :
  mesh_ok (sim_mesh st) ->
  meshSimplify fuel originalVertexCount st = Some (st', count) ->
  mesh_ok (sim_mesh st').
Proof.
  intros Hok. unfold meshSimplify. apply simplify_loop_ok. by apply init_queue_ok.
Qed.

Lemma after_call_reachable fuel originalVertexCount st :
  reachable (sim_mesh st) -> reachable (sim_mesh (after_call fuel originalVertexCount st)).
Proof.
  intros Hst. unfold after_call.
  destruct (meshSimplify fuel originalVertexCount st) as [[st' count]|] eqn:Hcall; [|done].
  by eapply reach_simplify.
Qed.

Lemma square_mesh_reachable : reachable square_mesh.
Proof.
  exact (reach_quadrics
           (buildMesh Mesh.empty 6 square_corners square_uvs square_normals)
           (reach_build 6 square_corners square_uvs square_normals
              (le_n 6) (le_n 6) (le_n 6))).
Qed.

Lemma refresh_edge_reachable m i : reachable m -> reachable (refresh_edge m i).
Proof. exact (reach_cost m i false). Qed.

Lemma square_with_costs_reachable : reachable square_with_costs.
Proof.
  assert (square_with_costs
          = refresh_edge (refresh_edge (refresh_edge (refresh_edge
              (refresh_edge square_mesh 0) 1) 2) 3) 4) as ->
    by (vm_compute; reflexivity).
  do 5 apply refresh_edge_reachable. apply square_mesh_reachable.
Qed.

Lemma square_before_second_collapse_reachable : reachable square_before_second_collapse.
Proof.
  assert (square_before_second_collapse
          = refresh_edge (sim_mesh (after_call 100 4 square_sim)) 1) as ->
    by (vm_compute; reflexivity).
  apply refresh_edge_reachable, after_call_reachable, square_mesh_reachable.
Qed.

(* ===================================================================== *)
(** ** The claims                                                         *)
(* ===================================================================== *)

Lemma reachable_ok m : reachable m -> mesh_ok m.
Proof.
  induction 1 as [n vs uvs ns _ _ _|m _ IH|m i dirty _ IH|m i dirty _ IH|m ei _ IH Hlive
                  |fuel n st st' count _ IH Hcall].
  - apply buildMesh_ok.
  - by apply mesh_ok_quadrics.
  - apply mesh_ok_edges; [|done]. cbn [Mesh.edges]. symmetry. apply fmap_alter_same.
    intros e. apply edge_topology_refresh.
  - apply mesh_ok_edges; [|done]. simpl. symmetry. by apply fmap_alter_same.
  - by apply edgeCollapse_ok.
  - by eapply meshSimplify_ok.
Qed.

(** C1.  In every reachable mesh state (built by [buildMesh], given
    quadrics and costs, collapsed along live edges only, also by whole
    calls of [meshSimplify]) every live face has three pairwise-distinct
    indices of live vertices, and every live edge has two distinct
    endpoints that are live vertices. *)
Theorem reachable_faces_edges_well_formed m :
  reachable m ->
  Forall (face_ok (Mesh.vertices m)) (Mesh.faces m)
  /\ Forall (edge_ok (Mesh.vertices m)) (Mesh.edges m).
Proof. apply reachable_ok. Qed.

(** C3, as the code has it.  When both endpoints of an edge carry the zero
    quadric and the first endpoint's position is finite, all three
    candidates of the singular branch cost [+0]; the strict comparison
    keeps the first, so [computeCost] stores the position of [v1] (not the
    midpoint) and the cost [0]. *)
Theorem computeCost_zero_quadrics_picks_first_endpoint edge vertices :
  Edge.v1 edge < length vertices -> Edge.v2 edge < length vertices ->
  Vertex.quadric (vertices !!! Edge.v1 edge) = glm.mat4_zero ->
  Vertex.quadric (vertices !!! Edge.v2 edge) = glm.mat4_zero ->
  finite_vec3 (Vertex.position (vertices !!! Edge.v1 edge)) ->
  Edge.optimalPosition (computeCost edge vertices)
  = Vertex.position (vertices !!! Edge.v1 edge)
  /\ Edge.cost (computeCost edge vertices) = F32.zero.
Proof. intros _ _ H1 H2 Hfin. by rewrite computeCost_zero_quadrics. Qed.

(** C4, as the code has it.  A call of [meshSimplify] ends (with enough
    fuel for its rounds) after at most [max 1 k] collapses, where
    [k = originalVertexCount / 100]: the budget is tested after a collapse,
    never before the first.  Every collapse counted tombstones one vertex. *)
Theorem meshSimplify_collapse_count originalVertexCount st :
  exists fuel, forall fuel', fuel <= fuel' ->
    exists st' count,
      meshSimplify fuel' originalVertexCount st = Some (st', count)
      /\ count <= Nat.max 1 (originalVertexCount / 100)
      /\ Mesh.deletedVertices (sim_mesh st')
         = Mesh.deletedVertices (sim_mesh st) + count.
Proof.
  destruct (simplify_loop_halts (originalVertexCount / 100) (originalVertexCount / 100)
              (init_queue st) 0 ltac:(lia)) as (fuel & Hfuel).
  exists fuel. intros fuel' Hle.
  destruct (Hfuel fuel' Hle) as (st' & count & Hloop & _ & Hmax & Hdel).
  exists st', count. unfold meshSimplify. split; [done|]. split; [lia|].
  rewrite init_queue_deleted in Hdel. unfold sim_deleted in Hdel. lia.
Qed.

(** C6.  On a mesh whose live faces are well formed (the invariant of
    every reachable state), the single pass [computeAllQuadrics] leaves at
    every live vertex exactly the quadric the per-vertex scan
    [computeQuadric] computes for it: the same matrices added in the same
    order, starting from the zero matrix. *)
Theorem computeAllQuadrics_matches_computeQuadric m i :
  mesh_ok m -> live_vertex (Mesh.vertices m) i ->
  Vertex.quadric (computeAllQuadrics (Mesh.vertices m) (Mesh.faces m) !!! i)
  = Vertex.quadric (computeQuadric i (Mesh.vertices m) (Mesh.faces m) !!! i).
Proof.
  intros [Hfaces _] Hi%live_vertex_lt.
  assert (faces_nondegenerate (Mesh.faces m)) as Hnd.
  { eapply Forall_impl; [exact Hfaces|]. intros f Hf Hdel.
    destruct (Hf Hdel) as (? & ? & ? & _). done. }
  pose proof (computeAllQuadrics_lookup i _ _ Hnd Hi) as Hall.
  pose proof (computeQuadric_lookup i _ (Mesh.faces m) Hi) as Hone.
  rewrite list_lookup_fmap in Hall, Hone. rewrite !list_lookup_total_alt.
  destruct (computeAllQuadrics _ _ !! i); [|done].
  destruct (computeQuadric _ _ _ !! i); [|done]. simpl in *. congruence.
Qed.

(** C7.  No collapse writes a face's plane: one [edgeCollapse], any run of
    them, and a whole call of [meshSimplify] leave the list of
    [planeEquation]s as it was ([computeQuadric], [computeAllQuadrics] and
    [computeCost] receive the faces read-only and return none).  After any
    run of collapses on a built mesh every face, live or tombstoned, still
    carries the plane of its three build-time corner positions. *)
Theorem face_planes_never_rewritten m edgeIndex edgeIndices fuel originalVertexCount st
    numVertices vertices uvs normals :
  face_planes (edgeCollapse m edgeIndex) = face_planes m
  /\ face_planes (collapse_all m edgeIndices) = face_planes m
  /\ match meshSimplify fuel originalVertexCount st with
     | Some (st', _) => face_planes (sim_mesh st') = face_planes (sim_mesh st)
     | None => True
     end
  /\ let built := buildMesh Mesh.empty numVertices vertices uvs normals in
     face_planes (collapse_all built edgeIndices)
     = plane_from (Mesh.vertices built) <$> Mesh.faces built.
Proof.
  split; [apply edgeCollapse_planes|]. split; [apply collapse_all_planes|]. split.
  - unfold meshSimplify.
    pose proof (simplify_loop_planes fuel (originalVertexCount / 100)
                  (init_queue st) 0) as H.
    destruct (simplify_loop _ _ _ _) as [[st' c]|]; [|done].
    rewrite H. unfold face_planes. by rewrite init_queue_faces.
  - cbv zeta. rewrite collapse_all_planes. apply buildMesh_planes.
Qed.

(** C8.  [buildMesh] on the six corners of the unit square, whatever the
    texture coordinates and normals: the shared corners are welded into 4
    vertices, both triangles are kept, and 5 distinct edges are
    extracted. *)
Theorem buildMesh_unit_square uvs normals :
  let m := buildMesh Mesh.empty 6 square_corners uvs normals in
  length (Mesh.vertices m) = 4 /\ length (Mesh.faces m) = 2
  /\ length (Mesh.edges m) = 5
  /\ Vertex.position <$> Mesh.vertices m
     = [Vec3 F32.zero F32.zero F32.zero; Vec3 F32.one F32.zero F32.zero;
        Vec3 F32.one F32.one F32.zero; Vec3 F32.zero F32.one F32.zero]
  /\ (fun f => (Face.v1 f, Face.v2 f, Face.v3 f)) <$> Mesh.faces m
     = [(0, 1, 2); (0, 2, 3)]
  /\ live_edge_keys (Mesh.edges m) = [(0, 1); (1, 2); (0, 2); (2, 3); (0, 3)].
Proof. vm_compute. repeat split. Qed.

(** C9, as the code has it.  After the collapse of a live edge of a
    well-formed mesh, every edge that is live and touches the surviving
    vertex [v1] holds the cost and optimal position the solver computes
    for it on the final vertex data; [edgeCollapse] writes no dirty flag,
    every edge keeps the one it had. *)
Theorem edgeCollapse_refreshes_costs_keeps_dirty m edgeIndex :
  mesh_ok m -> live_edge m edgeIndex ->
  let m' := edgeCollapse m edgeIndex in
  let v1 := Edge.v1 (Mesh.edges m !!! edgeIndex) in
  (forall i e, Mesh.edges m' !! i = Some e -> Edge.isDeleted e = false ->
               Edge.v1 e = v1 \/ Edge.v2 e = v1 ->
               computeCost e (Mesh.vertices m') = e)
  /\ Edge.isDirty <$> Mesh.edges m' = Edge.isDirty <$> Mesh.edges m.
Proof.
  intros _ _ m' v1. split.
  - intros i e. apply edgeCollapse_refreshed.
  - apply edgeCollapse_isDirty.
Qed.

(** C10.  The collapse of a live edge [(v1, v2)] of a well-formed mesh
    writes the edge's [optimalPosition] into both endpoint records: the
    surviving [v1] and the tombstoned [v2]. *)
Theorem edgeCollapse_moves_both_endpoints m edgeIndex :
  mesh_ok m -> live_edge m edgeIndex ->
  let edge := Mesh.edges m !!! edgeIndex in
  let vs' := Mesh.vertices (edgeCollapse m edgeIndex) in
  Vertex.position (vs' !!! Edge.v1 edge) = Edge.optimalPosition edge
  /\ Vertex.position (vs' !!! Edge.v2 edge) = Edge.optimalPosition edge
  /\ Vertex.isDeleted (vs' !!! Edge.v2 edge) = true.
Proof.
  intros [_ Hedges] Hlive edge vs'.
  destruct (live_edge_total _ _ Hlive) as [Hei Hdel]. fold edge in Hei, Hdel.
  assert (edge_ok (Mesh.vertices m) edge) as Hedge by (eapply Forall_lookup_1; eauto).
  destruct (Hedge Hdel) as (_ & Hv1%live_vertex_lt & Hv2%live_vertex_lt).
  pose proof (edgeCollapse_positions m edgeIndex) as Hpos. cbv zeta in Hpos.
  fold edge vs' in Hpos.
  assert (length vs' = length (Mesh.vertices m)) as Hlen
    by apply edgeCollapse_length_vertices.
  split; [|split].
  - rewrite lookup_total_fmap by lia. rewrite Hpos.
    apply insert_insert_lookup_total. by rewrite length_fmap.
  - apply (fmap_eq_lookup_total_insert _ _ _ _ _ Hpos).
    by rewrite length_insert, length_fmap.
  - apply (fmap_eq_lookup_total_insert _ _ _ _ _ (edgeCollapse_isDeleted m edgeIndex)).
    by rewrite length_fmap.
Qed.

(* ===================================================================== *)
(** ** Further properties: the quadrics                                   *)
(* ===================================================================== *)

Lemma quadric_fold_alter (i : nat) (vs : list Vertex.t) fs q :
  fold_left
    (fun (vertices : list Vertex.t) face =>
       if Face.isDeleted face then vertices
       else if face_has face i
            then alter (add_quadric (face_Kp face)) i vertices
            else vertices)
    fs (alter (Vertex.set_quadric q) i vs)
  = alter (Vertex.set_quadric (quadric_sum i fs q)) i vs.
Proof.
  unfold quadric_sum. revert q. induction fs as [|f fs IH]; intros q; simpl; [done|].
  destruct (Face.isDeleted f); [apply IH|].
  destruct (face_has f i); [|apply IH].
  rewrite list_alter_alter_eq.
  rewrite (list_alter_ext _ (Vertex.set_quadric (glm.mat4_add q (face_Kp f))) vs vs i);
    [apply IH|done|done].
Qed.

Lemma computeQuadric_alter (i : nat) (vs : list Vertex.t) fs :
  computeQuadric i vs fs
  = alter (Vertex.set_quadric (quadric_sum i fs glm.mat4_zero)) i vs.
Proof. apply quadric_fold_alter. Qed.

Lemma quadric_sum_absent i fs q :
  Forall (fun f => Face.isDeleted f = false -> face_has f i = false) fs ->
  quadric_sum i fs q = q.
Proof.
  unfold quadric_sum. induction 1 as [|f fs Hf _ IH]; simpl; [done|].
  destruct (Face.isDeleted f); [done|]. by rewrite Hf.
Qed.


(** X2.  A vertex that no live face uses gets the zero quadric. *)
Theorem computeQuadric_isolated_vertex i vs fs :
  i < length vs ->
  Forall (fun f => Face.isDeleted f = false -> face_has f i = false) fs ->
  Vertex.quadric (computeQuadric i vs fs !!! i) = glm.mat4_zero.
Proof.
  intros Hi Hfs. rewrite computeQuadric_alter, quadric_sum_absent by done.
  destruct (lookup_lt_is_Some_2 vs i Hi) as [v Hv].
  rewrite (list_lookup_total_correct _ i (Vertex.set_quadric glm.mat4_zero v)); [done|].
  by rewrite list_lookup_alter_eq, Hv.
Qed.

Lemma computeAllQuadrics_reset vs vs' fs :
  Vertex.set_quadric glm.mat4_zero <$> vs = Vertex.set_quadric glm.mat4_zero <$> vs' ->
  computeAllQuadrics vs fs = computeAllQuadrics vs' fs.
Proof. unfold computeAllQuadrics. by intros ->. Qed.

(** X3.  [computeAllQuadrics] starts from zero: its result does not depend
    on the quadrics stored before, and a second call in a row returns the
    same vertex array. *)
Theorem computeAllQuadrics_idempotent vs fs :
  computeAllQuadrics (computeAllQuadrics vs fs) fs = computeAllQuadrics vs fs
  /\ forall q, computeAllQuadrics (Vertex.set_quadric q <$> vs) fs
               = computeAllQuadrics vs fs.
Proof.
  split.
  - apply computeAllQuadrics_reset. by apply computeAllQuadrics_frame.
  - intros q. apply computeAllQuadrics_reset. rewrite <- list_fmap_compose.
    by apply list_fmap_ext.
Qed.

Lemma bool_decide_elem_of_cons (i a : nat) (l : list nat) :
  bool_decide (i ∈ a :: l) = bool_decide (i = a) || bool_decide (i ∈ l).
Proof. rewrite <- bool_decide_or. apply bool_decide_ext, elem_of_cons. Qed.

Lemma initializeQuadrics_fold fs (idxs : list nat) (vs : list Vertex.t) :
  let r := fold_left
             (fun (vertices : list Vertex.t) i =>
                if Vertex.isDeleted (vertices !!! i) then vertices
                else computeQuadric i vertices fs) idxs vs in
  Vertex.isDeleted <$> r = Vertex.isDeleted <$> vs
  /\ forall i v, vs !! i = Some v ->
       r !! i = Some (if bool_decide (i ∈ idxs) && negb (Vertex.isDeleted v)
                      then Vertex.set_quadric (quadric_sum i fs glm.mat4_zero) v
                      else v).
Proof.
  revert vs. induction idxs as [|a idxs IH]; intros vs; cbn zeta.
  - split; [done|]. intros i v Hv. simpl. by rewrite Hv.
  - cbn [fold_left].
    set (vs1 := if Vertex.isDeleted (vs !!! a) then vs else computeQuadric a vs fs).
    assert (Vertex.isDeleted <$> vs1 = Vertex.isDeleted <$> vs) as Hdel.
    { subst vs1. destruct (Vertex.isDeleted (vs !!! a)); [done|].
      by apply computeQuadric_frame. }
    destruct (IH vs1) as [Hdel1 Hq1]. split; [congruence|].
    intros i v Hv.
    assert (vs1 !! i = Some (if bool_decide (i = a) && negb (Vertex.isDeleted v)
                             then Vertex.set_quadric (quadric_sum i fs glm.mat4_zero) v
                             else v)) as Hv1.
    { subst vs1. case_bool_decide as Hia; simpl.
      - subst a. rewrite (list_lookup_total_correct _ _ _ Hv).
        destruct (Vertex.isDeleted v); simpl; [done|].
        by rewrite computeQuadric_alter, list_lookup_alter_eq, Hv.
      - destruct (Vertex.isDeleted (vs !!! a)); [done|].
        rewrite computeQuadric_alter, list_lookup_alter_ne by done. done. }
    rewrite (Hq1 _ _ Hv1).
    rewrite bool_decide_elem_of_cons.
    destruct (bool_decide (i = a)), (bool_decide (i ∈ idxs)),
      (Vertex.isDeleted v) eqn:Hd; simpl; rewrite ?Hd; done.
Qed.

(** X4.  [initializeQuadrics] (one [computeQuadric] per live vertex) gives
    every live vertex of a well-formed mesh the quadric [computeAllQuadrics]
    gives it, bit for bit; it leaves the quadric of a tombstoned vertex as
    it was, and changes no other field of any vertex. *)
Theorem initializeQuadrics_matches_computeAllQuadrics m i :
  mesh_ok m -> i < length (Mesh.vertices m) ->
  let vs' := Mesh.vertices (initializeQuadrics m) in
  Vertex.quadric (vs' !!! i)
  = (if Vertex.isDeleted (Mesh.vertices m !!! i)
     then Vertex.quadric (Mesh.vertices m !!! i)
     else Vertex.quadric
            (computeAllQuadrics (Mesh.vertices m) (Mesh.faces m) !!! i))
  /\ Vertex.set_quadric glm.mat4_zero <$> vs'
     = Vertex.set_quadric glm.mat4_zero <$> Mesh.vertices m.
Proof.
  intros [Hfaces _] Hi vs'. subst vs'. unfold initializeQuadrics. cbn [Mesh.vertices].
  destruct (initializeQuadrics_fold (Mesh.faces m) (seq 0 (length (Mesh.vertices m)))
              (Mesh.vertices m)) as [Hdel Hq].
  set (r := fold_left _ _ _) in *. split.
  - destruct (lookup_lt_is_Some_2 _ i Hi) as [v Hv].
    rewrite (list_lookup_total_correct _ _ _ (Hq _ _ Hv)).
    rewrite (list_lookup_total_correct _ _ _ Hv).
    rewrite bool_decide_true by (apply elem_of_seq; lia).
    destruct (Vertex.isDeleted v); simpl; [done|].
    assert (faces_nondegenerate (Mesh.faces m)) as Hnd.
    { eapply Forall_impl; [exact Hfaces|]. intros f Hf Hd.
      destruct (Hf Hd) as (? & ? & ? & _). done. }
    pose proof (computeAllQuadrics_lookup i _ _ Hnd Hi) as Hall.
    rewrite list_lookup_fmap in Hall. rewrite list_lookup_total_alt.
    destruct (computeAllQuadrics _ _ !! i); [|done]. simpl in *. congruence.
  - apply list_eq. intros j. rewrite !list_lookup_fmap.
    destruct (Mesh.vertices m !! j) as [v|] eqn:Hv.
    + rewrite (Hq _ _ Hv). simpl. by destruct (_ && _).
    + assert (r !! j = None) as ->; [|done].
      apply lookup_ge_None. apply lookup_ge_None in Hv.
      by rewrite <- (length_fmap Vertex.isDeleted), Hdel, length_fmap.
Qed.

(* ===================================================================== *)
(** ** Further properties: NaN planes and the cost solver                 *)
(* ===================================================================== *)

Lemma mul_nan_r x : F32.mul x nan = nan.
Proof. by destruct x. Qed.

Lemma add_nan_r x : F32.add x nan = nan.
Proof. by destruct x. Qed.

Lemma add_opp_zero_or_nan x : zero_or_nan (F32.add x (F32.opp x)) = true.
Proof.
  destruct x as [[]|[]| |s m e]; try done.
  unfold F32.add, F32.opp. cbv beta iota zeta delta [SFadd SFopp].
  destruct s; cbn [cond_Zopp negb].
  - by rewrite Z.add_opp_diag_l.
  - by rewrite Z.add_opp_diag_r.
Qed.

(** X5.  The plane [Face::computeNormal] stores is [(normal, d)] with
    [d = -dot(normal, pos1)]: evaluated at the first corner it gives
    exactly zero, or a NaN when the normal is not finite. *)
Theorem computeNormal_plane_through_first_corner pos1 pos2 pos3 :
  let '(normal, plane) := Face.computeNormal pos1 pos2 pos3 in
  glm.vec3_of plane = normal
  /\ zero_or_nan (F32.add (glm.dot3 normal pos1) (w4 plane)) = true.
Proof.
  unfold Face.computeNormal. cbv zeta. split.
  - by destruct (glm.normalize _).
  - cbn [w4]. apply add_opp_zero_or_nan.
Qed.

(** X6.  A triangle of zero area (the cross product of its two edge
    vectors is a zero vector) is not rejected: its normal and its plane
    equation are NaN in every component. *)
Theorem computeNormal_zero_area pos1 pos2 pos3 :
  let c := glm.cross (glm.vec3_sub pos2 pos1) (glm.vec3_sub pos3 pos1) in
  is_zero (x3 c) = true -> is_zero (y3 c) = true -> is_zero (z3 c) = true ->
  Face.computeNormal pos1 pos2 pos3 = (nan3, nan4).
Proof.
  unfold Face.computeNormal. cbv zeta.
  destruct (glm.cross _ _) as [cx cy cz]. cbn [x3 y3 z3].
  intros Hx Hy Hz.
  destruct cx as [sx| | |]; try discriminate Hx.
  destruct cy as [sy| | |]; try discriminate Hy.
  destruct cz as [sz| | |]; try discriminate Hz.
  assert (glm.normalize (Vec3 (S754_zero sx) (S754_zero sy) (S754_zero sz)) = nan3)
    as -> by (by destruct sx, sy, sz).
  reflexivity.
Qed.

Lemma nan_form (c : vec4) : glm.dot4 c (glm.mat4_mul_vec4 mat4_nan c) = nan.
Proof.
  destruct c as [x y z w].
  unfold glm.dot4, glm.mat4_mul_vec4, mat4_nan, nan4, glm.vec4_add, glm.vec4_scale,
    glm.vec4_splat.
  cbn [x4 y4 z4 w4 col0 col1 col2 col3].
  change (F32.mul nan ?a) with nan. change (F32.add nan ?a) with nan.
  by rewrite !mul_nan_r.
Qed.

Lemma mat4_add_nan_l q : glm.mat4_add mat4_nan q = mat4_nan.
Proof. done. Qed.

Lemma mat4_add_nan_r q : glm.mat4_add q mat4_nan = mat4_nan.
Proof.
  unfold glm.mat4_add, mat4_nan, nan4, glm.vec4_add, glm.vec4_splat.
  cbn [x4 y4 z4 w4 col0 col1 col2 col3]. by rewrite !add_nan_r.
Qed.

Lemma try_candidate_nan acc p : try_candidate mat4_nan acc p = acc.
Proof. unfold try_candidate. destruct acc as [c best]. by rewrite nan_form. Qed.

(** X7.  When an endpoint carries an all-NaN quadric (what a zero-area
    face adds to its corners), the determinant test fails, none of the
    three candidates beats [FLT_MAX], and [computeCost] stores the cost
    [FLT_MAX] together with the never-assigned local [optimalPos]. *)
Theorem computeCost_nan_quadric edge vertices :
  Vertex.quadric (vertices !!! Edge.v1 edge) = mat4_nan
  \/ Vertex.quadric (vertices !!! Edge.v2 edge) = mat4_nan ->
  computeCost edge vertices
  = Edge.set_cost F32.FLT_MAX
      (Edge.set_optimalPosition (glm.vec3_of uninit_vec4) edge).
Proof.
  intros H. unfold computeCost.
  assert (glm.mat4_add (Vertex.quadric (vertices !!! Edge.v1 edge))
                       (Vertex.quadric (vertices !!! Edge.v2 edge)) = mat4_nan) as ->.
  { destruct H as [-> | ->]; [apply mat4_add_nan_l|apply mat4_add_nan_r]. }
  change (F32.gtb (F32.abs (glm.determinant (constrain_last_row mat4_nan)))
                  QEM_EPSILON) with false.
  cbn [fold_left]. by rewrite !try_candidate_nan.
Qed.

Lemma try_candidate_cases Q c best p :
  (try_candidate Q (c, best) p = (c, best)
   /\ F32.ltb (candidate_cost Q p) c = false)
  \/ try_candidate Q (c, best) p = (candidate_cost Q p, glm.vec4_of p F32.one).
Proof.
  unfold try_candidate, candidate_cost. destruct (F32.ltb _ _); auto.
Qed.

Lemma candidates_cases Q u (cands : list vec3) c0 :
  let r := fold_left (try_candidate Q) cands (c0, u) in
  r = (c0, u)
  \/ exists c, c ∈ cands /\ r = (candidate_cost Q c, glm.vec4_of c F32.one).
Proof.
  revert c0 u. induction cands as [|p cands IH]; intros c0 u; cbn zeta; [by left|].
  cbn [fold_left].
  destruct (try_candidate_cases Q c0 u p) as [[-> _] | ->].
  - destruct (IH c0 u) as [H | (c & Hin & H)]; [by left|].
    right. exists c. split; [by apply elem_of_cons; right|done].
  - destruct (IH (candidate_cost Q p) (glm.vec4_of p F32.one)) as [H | (c & Hin & H)].
    + right. exists p. split; [by apply elem_of_cons; left|done].
    + right. exists c. split; [by apply elem_of_cons; right|done].
Qed.

Lemma computeCost_singular edge vertices :
  let p1 := Vertex.position (vertices !!! Edge.v1 edge) in
  let p2 := Vertex.position (vertices !!! Edge.v2 edge) in
  let Q := glm.mat4_add (Vertex.quadric (vertices !!! Edge.v1 edge))
                        (Vertex.quadric (vertices !!! Edge.v2 edge)) in
  F32.gtb (F32.abs (glm.determinant (constrain_last_row Q))) QEM_EPSILON = false ->
  computeCost edge vertices
  = (let r := fold_left (try_candidate Q)
                [p1; p2; glm.vec3_scale (glm.vec3_add p1 p2) F32.half]
                (F32.FLT_MAX, uninit_vec4) in
     Edge.set_cost r.1 (Edge.set_optimalPosition (glm.vec3_of r.2) edge)).
Proof.
  intros p1 p2 Q Hdet. unfold computeCost. fold p1 p2 Q. rewrite Hdet.
  cbv zeta. by destruct (fold_left _ _ _).
Qed.

(** X8.  In the singular branch (the determinant test fails) the stored
    position is one of the three candidates tried (first endpoint, second
    endpoint, midpoint) with that candidate's own cost; or no candidate
    was accepted, the cost is [FLT_MAX] and the position is the
    never-assigned local. *)
Theorem computeCost_singular_candidates edge vertices :
  let p1 := Vertex.position (vertices !!! Edge.v1 edge) in
  let p2 := Vertex.position (vertices !!! Edge.v2 edge) in
  let Q := glm.mat4_add (Vertex.quadric (vertices !!! Edge.v1 edge))
                        (Vertex.quadric (vertices !!! Edge.v2 edge)) in
  F32.gtb (F32.abs (glm.determinant (constrain_last_row Q))) QEM_EPSILON = false ->
  let r := computeCost edge vertices in
  (Edge.cost r = F32.FLT_MAX /\ Edge.optimalPosition r = glm.vec3_of uninit_vec4)
  \/ exists c, c ∈ [p1; p2; glm.vec3_scale (glm.vec3_add p1 p2) F32.half]
               /\ Edge.optimalPosition r = c /\ Edge.cost r = candidate_cost Q c.
Proof.
  intros p1 p2 Q Hdet r. subst r.
  rewrite (computeCost_singular edge vertices Hdet). fold p1 p2 Q. cbv zeta.
  destruct (candidates_cases Q uninit_vec4
              [p1; p2; glm.vec3_scale (glm.vec3_add p1 p2) F32.half] F32.FLT_MAX)
    as [-> | (c & Hin & ->)].
  - by left.
  - right. exists c. split; [done|]. split; [|done]. by destruct c.
Qed.

(* ===================================================================== *)
(** ** Further properties: what a collapse tombstones                     *)
(* ===================================================================== *)

Lemma flags_grow_refl bs : flags_grow bs bs.
Proof. by apply Forall_Forall2_diag, Forall_true. Qed.

Lemma flags_grow_trans bs1 bs2 bs3 :
  flags_grow bs1 bs2 -> flags_grow bs2 bs3 -> flags_grow bs1 bs3.
Proof. apply Forall2_trans. auto. Qed.

Lemma flags_grow_fmap {A} (flag : A -> bool) (g : A -> A) (l : list A) :
  (forall x, flag x = true -> flag (g x) = true) ->
  flags_grow (flag <$> l) (flag <$> (g <$> l)).
Proof.
  intros Hg. rewrite <- list_fmap_compose. apply Forall2_fmap.
  apply Forall_Forall2_diag, Forall_true. intros x. apply Hg.
Qed.

Lemma flags_grow_alter {A} (flag : A -> bool) (g : A -> A) (i : nat) (l : list A) :
  (forall x, flag x = true -> flag (g x) = true) ->
  flags_grow (flag <$> l) (flag <$> alter g i l).
Proof.
  intros Hg. apply Forall2_fmap. revert i.
  induction l as [|x l IH]; intros [|i]; csimpl; constructor;
    auto using Forall_Forall2_diag, Forall_true.
Qed.

Lemma flags_grow_insert (bs : list bool) (i : nat) : flags_grow bs (<[i := true]> bs).
Proof.
  revert i. induction bs as [|b bs IH]; intros [|i]; csimpl.
  - constructor.
  - constructor.
  - constructor; [done|apply flags_grow_refl].
  - constructor; [done|apply IH].
Qed.

Lemma tombstones_grow_refl m : tombstones_grow m m.
Proof. repeat split; apply flags_grow_refl. Qed.

Lemma tombstones_grow_trans m1 m2 m3 :
  tombstones_grow m1 m2 -> tombstones_grow m2 m3 -> tombstones_grow m1 m3.
Proof. intros (? & ? & ?) (? & ? & ?). repeat split; eauto using flags_grow_trans. Qed.

(** A step that rewrites edge records but no tombstone. *)
Lemma tombstones_grow_edges m es :
  Edge.isDeleted <$> es = Edge.isDeleted <$> Mesh.edges m ->
  tombstones_grow m (Mesh.mk (Mesh.vertices m) es (Mesh.faces m) (Mesh.deletedVertices m)).
Proof.
  intros Heq. repeat split; cbn [Mesh.vertices Mesh.edges Mesh.faces];
    rewrite ?Heq; apply flags_grow_refl.
Qed.

Lemma collapse_edge_keeps_tombstone v1 v2 e :
  Edge.isDeleted e = true -> Edge.isDeleted (collapse_edge v1 v2 e).1 = true.
Proof. intros H. unfold collapse_edge. by rewrite H. Qed.

Lemma collapse_face_keeps_tombstone v1 v2 f :
  Face.isDeleted f = true -> Face.isDeleted (collapse_face v1 v2 f) = true.
Proof. intros H. unfold collapse_face. by rewrite H. Qed.

Lemma isDeleted_set_isDirty dirty e :
  Edge.isDeleted (Edge.set_isDirty dirty e) = Edge.isDeleted e.
Proof. done. Qed.

Lemma isDeleted_refresh dirty e vs :
  Edge.isDeleted (Edge.set_isDirty dirty (computeCost e vs)) = Edge.isDeleted e.
Proof. by rewrite isDeleted_set_isDirty, computeCost_isDeleted. Qed.

Lemma remap_collision (v1 v2 a b : nat) :
  v1 <> v2 -> a <> b ->
  bool_decide (remap v1 v2 a = remap v1 v2 b)
  = (bool_decide (a = v1) && bool_decide (b = v2))
    || (bool_decide (a = v2) && bool_decide (b = v1)).
Proof.
  intros Hv Hab. unfold remap.
  destruct (decide (a = v2)), (decide (b = v2));
    repeat case_bool_decide; simpl; congruence.
Qed.

Lemma collapse_face_isDeleted v1 v2 f :
  Face.isDeleted f = false ->
  Face.isDeleted (collapse_face v1 v2 f)
  = bool_decide (remap v1 v2 (Face.v1 f) = remap v1 v2 (Face.v2 f))
    || bool_decide (remap v1 v2 (Face.v2 f) = remap v1 v2 (Face.v3 f))
    || bool_decide (remap v1 v2 (Face.v3 f) = remap v1 v2 (Face.v1 f)).
Proof.
  intros Hd. unfold collapse_face, remap. rewrite Hd.
  destruct f as [a b c n p d]. cbn [Face.isDeleted] in Hd. subst d.
  cbn [Face.v1 Face.v2 Face.v3].
  destruct (decide (a = v2));
    cbn [Face.v1 Face.v2 Face.v3 Face.set_v1 Face.set_v2 Face.set_v3];
    destruct (decide (b = v2));
    cbn [Face.v1 Face.v2 Face.v3 Face.set_v1 Face.set_v2 Face.set_v3];
    destruct (decide (c = v2));
    cbn [Face.v1 Face.v2 Face.v3 Face.set_v1 Face.set_v2 Face.set_v3];
    by destruct (_ || _).
Qed.

Lemma collapse_edge_isDeleted v1 v2 e :
  Edge.isDeleted e = false ->
  Edge.isDeleted (collapse_edge v1 v2 e).1
  = bool_decide (remap v1 v2 (Edge.v1 e) = remap v1 v2 (Edge.v2 e)).
Proof.
  intros Hd. unfold collapse_edge, remap. rewrite Hd.
  destruct e as [a b c p bd dirty d]. cbn [Edge.isDeleted] in Hd. subst d.
  cbn [Edge.v1 Edge.v2].
  destruct (decide (a = v2)); cbn [Edge.v1 Edge.v2 Edge.set_v1 Edge.set_v2];
    destruct (decide (b = v2)); cbn [Edge.v1 Edge.v2 Edge.set_v1 Edge.set_v2];
    (case_decide; simpl;
     [by rewrite bool_decide_true by done|by rewrite bool_decide_false by done]).
Qed.

Lemma edgeCollapse_edge_flags m ei :
  Edge.isDeleted <$> Mesh.edges (edgeCollapse m ei)
  = (fun e => Edge.isDeleted
                (collapse_edge (Edge.v1 (Mesh.edges m !!! ei))
                               (Edge.v2 (Mesh.edges m !!! ei)) e).1)
      <$> alter (Edge.set_isDeleted true) ei (Mesh.edges m).
Proof.
  pose proof (edgeCollapse_edges m ei) as H. cbv zeta in H. rewrite H.
  rewrite recompute_costs_frame by (intros e; apply computeCost_isDeleted).
  by rewrite collapse_edges_fst, <- list_fmap_compose.
Qed.

Lemma edgeCollapse_grow m ei : tombstones_grow m (edgeCollapse m ei).
Proof.
  split; [|split].
  - rewrite edgeCollapse_isDeleted. apply flags_grow_insert.
  - rewrite edgeCollapse_edge_flags.
    eapply flags_grow_trans; [by apply (flags_grow_alter _ (Edge.set_isDeleted true) ei)|].
    apply Forall2_fmap, Forall_Forall2_diag, Forall_true.
    intros e. apply collapse_edge_keeps_tombstone.
  - rewrite edgeCollapse_faces. apply flags_grow_fmap.
    intros f. apply collapse_face_keeps_tombstone.
Qed.

Lemma init_queue_grow st : tombstones_grow (sim_mesh st) (sim_mesh (init_queue st)).
Proof.
  unfold init_queue. destruct (sim_edgeQueue st); [|apply tombstones_grow_refl].
  pose proof (init_queue_edges (Mesh.vertices (sim_mesh st))
                (Mesh.edges (sim_mesh st)) [] []) as Hedges.
  destruct (fold_left _ _ _) as [edges queue]. cbn [fst app] in Hedges. subst edges.
  cbn [sim_mesh]. apply tombstones_grow_edges. rewrite <- list_fmap_compose.
  apply list_fmap_ext. intros ? e _. unfold compose.
  destruct (Edge.isDeleted e) eqn:Hdel; [done|]. by rewrite isDeleted_refresh.
Qed.

Lemma mark_dirty_grow nv mesh queue :
  tombstones_grow mesh (sim_mesh (mark_dirty nv mesh queue)).
Proof.
  unfold mark_dirty.
  pose proof (mark_dirty_edges nv (Mesh.edges mesh) [] queue) as Hedges.
  destruct (fold_left _ _ _) as [edges queue']. cbn [fst app] in Hedges. subst edges.
  cbn [sim_mesh]. apply tombstones_grow_edges. rewrite <- list_fmap_compose.
  apply list_fmap_ext. intros ? e _. unfold compose.
  destruct (Edge.isDeleted e) eqn:Hdel; [done|]. by destruct (_ || _).
Qed.

Lemma simplify_round_grow budget st count :
  tombstones_grow (sim_mesh st)
                  (sim_mesh (round_state (simplify_round budget st count))).
Proof.
  unfold simplify_round.
  destruct (pq_pop _) as [[edge queue]|]; [|apply tombstones_grow_refl].
  destruct (find_edge_from _ _ _ _) as [edgeIndex|] eqn:Hfind;
    [|apply tombstones_grow_refl].
  apply find_edge_from_lt in Hfind.
  assert (Mesh.edges (sim_mesh st) !! edgeIndex
          = Some (Mesh.edges (sim_mesh st) !!! edgeIndex)) as Hlk.
  { apply list_lookup_lookup_total_lt. lia. }
  destruct (Edge.isDeleted _) eqn:Hdel; [apply tombstones_grow_refl|].
  destruct (Edge.isDirty _).
  - cbn [round_state sim_mesh]. apply tombstones_grow_edges.
    rewrite list_fmap_insert. apply list_insert_id.
    rewrite list_lookup_fmap, Hlk. cbn [fmap option_fmap option_map].
    by rewrite isDeleted_refresh.
  - case_decide; cbn [round_state];
      (eapply tombstones_grow_trans; [apply edgeCollapse_grow|apply mark_dirty_grow]).
Qed.

Lemma simplify_loop_grow fuel budget st count st' count' :
  simplify_loop fuel budget st count = Some (st', count') ->
  tombstones_grow (sim_mesh st) (sim_mesh st').
Proof.
  revert st count. induction fuel as [|fuel IH]; intros st count; simpl; [done|].
  pose proof (simplify_round_grow budget st count) as Hr.
  destruct (simplify_round budget st count) as [st1 c1|st1 c1]; cbn [round_state] in Hr.
  - by intros [= <- _].
  - intros H. eapply tombstones_grow_trans; [exact Hr|]. by eapply IH.
Qed.

(** X9.  Tombstones are permanent and indices stay valid: a collapse, and
    a whole call of [meshSimplify], leave the vertex, edge and face vectors
    at their lengths and never clear an [isDeleted] flag that was set. *)
Theorem tombstones_are_permanent m edgeIndex fuel originalVertexCount st :
  tombstones_grow m (edgeCollapse m edgeIndex)
  /\ match meshSimplify fuel originalVertexCount st with
     | Some (st', _) => tombstones_grow (sim_mesh st) (sim_mesh st')
     | None => True
     end.
Proof.
  split; [apply edgeCollapse_grow|].
  destruct (meshSimplify fuel originalVertexCount st) as [[st' count]|] eqn:Hcall;
    [|done].
  eapply tombstones_grow_trans; [apply init_queue_grow|].
  by eapply simplify_loop_grow.
Qed.

Lemma live_edge_endpoints m ei :
  mesh_ok m -> live_edge m ei ->
  let edge := Mesh.edges m !!! ei in
  Mesh.edges m !! ei = Some edge /\ Edge.isDeleted edge = false
  /\ Edge.v1 edge <> Edge.v2 edge
  /\ live_vertex (Mesh.vertices m) (Edge.v1 edge)
  /\ live_vertex (Mesh.vertices m) (Edge.v2 edge).
Proof.
  intros [_ Hedges] Hlive edge.
  destruct (live_edge_total _ _ Hlive) as [Hei Hdel]. fold edge in Hei, Hdel.
  assert (edge_ok (Mesh.vertices m) edge) as Hedge by (eapply Forall_lookup_1; eauto).
  destruct (Hedge Hdel) as (? & ? & ?). done.
Qed.

Lemma edgeCollapse_face_flags m ei :
  mesh_ok m -> live_edge m ei ->
  Face.isDeleted <$> Mesh.faces (edgeCollapse m ei)
  = (fun f => Face.isDeleted f
              || (face_has f (Edge.v1 (Mesh.edges m !!! ei))
                  && face_has f (Edge.v2 (Mesh.edges m !!! ei))))
      <$> Mesh.faces m.
Proof.
  intros Hok Hlive.
  destruct (live_edge_endpoints m ei Hok Hlive) as (_ & _ & Hne & _).
  destruct Hok as [Hfaces _].
  rewrite edgeCollapse_faces, <- list_fmap_compose.
  apply list_fmap_ext. intros k f Hf. unfold compose.
  eapply Forall_lookup_1 in Hf; [|exact Hfaces].
  destruct (Face.isDeleted f) eqn:Hd; [by apply collapse_face_keeps_tombstone|].
  destruct (Hf Hd) as (H12 & H23 & H31 & _).
  rewrite collapse_face_isDeleted, !remap_collision by done.
  unfold face_has. cbn [orb].
  repeat case_bool_decide; cbn [orb andb]; try reflexivity; congruence.
Qed.

(** X10.  The collapse of a live edge [(v1, v2)] of a well-formed mesh
    tombstones exactly the live faces that have both [v1] and [v2] as
    corners, exactly the live edges that join [v1] and [v2] (the collapsed
    edge and any parallel copy), and the vertex [v2]; no other tombstone
    changes. *)
Theorem edgeCollapse_tombstones_exactly m edgeIndex :
  mesh_ok m -> live_edge m edgeIndex ->
  let v1 := Edge.v1 (Mesh.edges m !!! edgeIndex) in
  let v2 := Edge.v2 (Mesh.edges m !!! edgeIndex) in
  let m' := edgeCollapse m edgeIndex in
  Face.isDeleted <$> Mesh.faces m'
  = (fun f => Face.isDeleted f || (face_has f v1 && face_has f v2)) <$> Mesh.faces m
  /\ Edge.isDeleted <$> Mesh.edges m'
     = (fun e => Edge.isDeleted e || edge_joins e v1 v2) <$> Mesh.edges m
  /\ Vertex.isDeleted <$> Mesh.vertices m'
     = <[v2 := true]> (Vertex.isDeleted <$> Mesh.vertices m).
Proof.
  intros Hok Hlive v1 v2 m'.
  destruct (live_edge_endpoints m edgeIndex Hok Hlive) as (Hei & Hdel & Hne & _).
  fold v1 v2 in Hne.
  split; [by apply edgeCollapse_face_flags|]. destruct Hok as [Hfaces Hedges]. split.
  - subst m'. rewrite edgeCollapse_edge_flags. fold v1 v2.
    apply list_eq. intros k. rewrite !list_lookup_fmap.
    destruct (decide (k = edgeIndex)) as [->|Hk].
    + rewrite list_lookup_alter_eq, Hei. cbn [fmap option_fmap option_map]. f_equal.
      rewrite collapse_edge_keeps_tombstone by done.
      unfold edge_joins. fold v1 v2. rewrite bool_decide_true by done.
      by rewrite orb_true_r.
    + rewrite list_lookup_alter_ne by done.
      destruct (Mesh.edges m !! k) as [e|] eqn:He; [|done].
      cbn [fmap option_fmap option_map]. f_equal.
      eapply Forall_lookup_1 in He; [|exact Hedges].
      destruct (Edge.isDeleted e) eqn:Hd; [by apply collapse_edge_keeps_tombstone|].
      destruct (He Hd) as (H12 & _).
      rewrite collapse_edge_isDeleted, remap_collision by done.
      unfold edge_joins. by rewrite !bool_decide_and.
  - apply edgeCollapse_isDeleted.
Qed.

Lemma tombstoned_not_live vs i :
  (Vertex.isDeleted <$> vs) !! i = Some true -> forall j, live_vertex vs j -> j <> i.
Proof.
  intros Hi j Hj ->. apply live_vertex_lookup in Hj. congruence.
Qed.

(** X11.  After the collapse of a live edge [(v1, v2)] of a well-formed
    mesh nothing live refers to [v2] any more: no live face has it as a
    corner and no live edge as an endpoint; the surviving [v1] is still
    live. *)
Theorem edgeCollapse_forgets_v2 m edgeIndex :
  mesh_ok m -> live_edge m edgeIndex ->
  let v1 := Edge.v1 (Mesh.edges m !!! edgeIndex) in
  let v2 := Edge.v2 (Mesh.edges m !!! edgeIndex) in
  let m' := edgeCollapse m edgeIndex in
  Forall (fun f => Face.isDeleted f = false -> face_has f v2 = false) (Mesh.faces m')
  /\ Forall (fun e => Edge.isDeleted e = false -> Edge.v1 e <> v2 /\ Edge.v2 e <> v2)
            (Mesh.edges m')
  /\ live_vertex (Mesh.vertices m') v1.
Proof.
  intros Hok Hlive v1 v2 m'.
  destruct (live_edge_endpoints m edgeIndex Hok Hlive) as (_ & _ & Hne & Hv1 & Hv2).
  fold v1 v2 in Hne, Hv1, Hv2.
  destruct (edgeCollapse_ok m edgeIndex Hok Hlive) as [Hfaces Hedges]. fold m' in Hfaces, Hedges.
  assert ((Vertex.isDeleted <$> Mesh.vertices m') !! v2 = Some true) as Hgone.
  { subst m'. rewrite edgeCollapse_isDeleted. fold v2.
    apply list_lookup_insert_eq. rewrite length_fmap. by apply live_vertex_lt. }
  pose proof (tombstoned_not_live _ _ Hgone) as Hnot.
  split; [|split].
  - eapply Forall_impl; [exact Hfaces|]. intros f Hf Hd.
    destruct (Hf Hd) as (_ & _ & _ & L1 & L2 & L3). unfold face_has.
    apply Hnot in L1, L2, L3. by rewrite !bool_decide_false.
  - eapply Forall_impl; [exact Hedges|]. intros e He Hd.
    destruct (He Hd) as (_ & L1 & L2). split; by apply Hnot.
  - apply edgeCollapse_live_vertex; done.
Qed.

(** X12.  The surviving vertex of a collapse always gets the plain average
    of the two texture coordinates and of the two colours (weight 0.5,
    wherever the new position lies); every other vertex keeps its texture
    coordinate and colour, and no vertex normal is ever rewritten. *)
Theorem edgeCollapse_averages_attributes m edgeIndex :
  mesh_ok m -> live_edge m edgeIndex ->
  let v1 := Edge.v1 (Mesh.edges m !!! edgeIndex) in
  let v2 := Edge.v2 (Mesh.edges m !!! edgeIndex) in
  let vs := Mesh.vertices m in
  let vs' := Mesh.vertices (edgeCollapse m edgeIndex) in
  Vertex.texCoord (vs' !!! v1)
  = glm.mix2 (Vertex.texCoord (vs !!! v1)) (Vertex.texCoord (vs !!! v2)) F32.half
  /\ Vertex.color (vs' !!! v1)
     = glm.mix4 (Vertex.color (vs !!! v1)) (Vertex.color (vs !!! v2)) F32.half
  /\ (forall j, j <> v1 ->
        Vertex.texCoord (vs' !!! j) = Vertex.texCoord (vs !!! j)
        /\ Vertex.color (vs' !!! j) = Vertex.color (vs !!! j))
  /\ Vertex.normal <$> vs' = Vertex.normal <$> vs.
Proof.
  intros Hok Hlive v1 v2 vs vs'.
  destruct (live_edge_endpoints m edgeIndex Hok Hlive)
    as (_ & _ & _ & Hv1%live_vertex_lt & Hv2%live_vertex_lt).
  destruct (edgeCollapse_attributes m edgeIndex Hv1 Hv2) as [Huv Hcol].
  split; [exact Huv|]. split; [exact Hcol|]. split.
  - intros j Hj. subst vs'. pose proof (edgeCollapse_vertices m edgeIndex) as Hvs.
    cbv zeta in Hvs. rewrite Hvs. fold v1 v2.
    rewrite !list_lookup_total_alter_ne by done.
    destruct (decide (j < length vs)) as [Hlt|Hge].
    + split.
      * apply fmap_eq_lookup_total; [by apply collapse_quadrics_frame|].
        by rewrite collapse_quadrics_length.
      * apply fmap_eq_lookup_total; [by apply collapse_quadrics_frame|].
        by rewrite collapse_quadrics_length.
    + rewrite !list_lookup_total_alt.
      rewrite (lookup_ge_None_2 (collapse_quadrics m edgeIndex) j)
        by (rewrite collapse_quadrics_length; unfold vs in Hge; lia).
      rewrite (lookup_ge_None_2 vs j) by lia. done.
  - subst vs'. rewrite edgeCollapse_vertices_frame by done.
    unfold collapse_vertices. by rewrite !fmap_alter_same.
Qed.

(* ===================================================================== *)
(** ** Further properties: the counter of tombstoned vertices             *)
(* ===================================================================== *)

Lemma count_true_cons b bs : count_true (b :: bs) = (if b then 1 else 0) + count_true bs.
Proof. done. Qed.

Lemma count_true_insert bs i :
  bs !! i = Some false -> count_true (<[i := true]> bs) = count_true bs + 1.
Proof.
  revert i. induction bs as [|b bs IH]; intros [|i]; try done.
  - intros [= ->]. change (<[0 := true]> (false :: bs)) with (true :: bs).
    rewrite !count_true_cons. lia.
  - intros Hi. change (<[S i := true]> (b :: bs)) with (b :: <[i := true]> bs).
    rewrite !count_true_cons, (IH i Hi). lia.
Qed.

Lemma count_true_all_false bs : Forall (fun b => b = false) bs -> count_true bs = 0.
Proof. induction 1 as [|b bs -> _ IH]; [done|]. by rewrite count_true_cons, IH. Qed.

Lemma counted_vertices m m' :
  Mesh.vertices m' = Mesh.vertices m -> Mesh.deletedVertices m' = Mesh.deletedVertices m ->
  counted m -> counted m'.
Proof. unfold counted. by intros -> ->. Qed.

Lemma edgeCollapse_counted m ei :
  mesh_ok m -> live_edge m ei -> counted m -> counted (edgeCollapse m ei).
Proof.
  intros Hok Hlive Hc.
  destruct (live_edge_endpoints m ei Hok Hlive) as (_ & _ & _ & _ & Hv2).
  unfold counted, deleted_count in *.
  rewrite edgeCollapse_deletedVertices, edgeCollapse_isDeleted, count_true_insert.
  - lia.
  - by apply live_vertex_lookup.
Qed.

Lemma init_queue_vertices st :
  Mesh.vertices (sim_mesh (init_queue st)) = Mesh.vertices (sim_mesh st).
Proof.
  unfold init_queue. destruct (sim_edgeQueue st); [|done].
  by destruct (fold_left _ _ _).
Qed.

Lemma mark_dirty_vertices nv mesh queue :
  Mesh.vertices (sim_mesh (mark_dirty nv mesh queue)) = Mesh.vertices mesh.
Proof. unfold mark_dirty. by destruct (fold_left _ _ _). Qed.

Lemma simplify_round_counted budget st count :
  mesh_ok (sim_mesh st) -> counted (sim_mesh st) ->
  counted (sim_mesh (round_state (simplify_round budget st count))).
Proof.
  intros Hok Hc. unfold simplify_round.
  destruct (pq_pop _) as [[edge queue]|]; [|done].
  destruct (find_edge_from _ _ _ _) as [edgeIndex|] eqn:Hfind; [|done].
  apply find_edge_from_lt in Hfind.
  assert (Mesh.edges (sim_mesh st) !! edgeIndex
          = Some (Mesh.edges (sim_mesh st) !!! edgeIndex)) as Hlk.
  { apply list_lookup_lookup_total_lt. lia. }
  destruct (Edge.isDeleted _) eqn:Hdel; [done|].
  destruct (Edge.isDirty _); [done|].
  assert (counted (edgeCollapse (sim_mesh st) edgeIndex)) as Hc'.
  { apply edgeCollapse_counted; [done| |done].
    unfold live_edge. by rewrite Hlk; simpl; rewrite Hdel. }
  case_decide; cbn [round_state];
    (eapply counted_vertices; [apply mark_dirty_vertices|apply mark_dirty_deleted|done]).
Qed.

Lemma simplify_loop_counted fuel budget st count st' count' :
  mesh_ok (sim_mesh st) -> counted (sim_mesh st) ->
  simplify_loop fuel budget st count = Some (st', count') ->
  counted (sim_mesh st').
Proof.
  revert st count. induction fuel as [|fuel IH]; intros st count Hok Hc; simpl; [done|].
  pose proof (simplify_round_ok budget st count Hok) as Hr.
  pose proof (simplify_round_counted budget st count Hok Hc) as Hr'.
  destruct (simplify_round budget st count) as [st1 c1|st1 c1]; cbn [round_state] in *.
  - by intros [= <- _].
  - by apply IH.
Qed.

Lemma buildMesh_counted numVertices vertices uvs normals :
  counted (buildMesh Mesh.empty numVertices vertices uvs normals).
Proof.
  unfold counted, deleted_count, buildMesh. cbn [Mesh.vertices Mesh.faces Mesh.edges
    Mesh.deletedVertices Mesh.empty].
  destruct (weld_loop_inv numVertices vertices uvs normals numVertices (le_n _))
    as [Hlive _ _ _].
  destruct (fold_left edge_step _ _) as [edges edgeSet].
  cbn [Mesh.vertices Mesh.deletedVertices]. symmetry. apply count_true_all_false.
  by apply Forall_fmap.
Qed.

(** X13.  In every reachable mesh state the counter [deletedVertices]
    equals the number of vertex records whose [isDeleted] flag is set. *)
Theorem deletedVertices_counts_tombstones m :
  reachable m -> Mesh.deletedVertices m = deleted_count (Mesh.vertices m).
Proof.
  induction 1 as [n vs uvs ns _ _ _|m _ IH|m i dirty _ IH|m i dirty _ IH|m ei Hm IH Hlive
                  |fuel n st st' count Hst IH Hcall].
  - apply buildMesh_counted.
  - cbn [Mesh.vertices Mesh.deletedVertices]. unfold deleted_count in *.
    by rewrite computeAllQuadrics_frame.
  - exact IH.
  - exact IH.
  - apply edgeCollapse_counted; [by apply reachable_ok|done|done].
  - unfold meshSimplify in Hcall.
    refine (simplify_loop_counted _ _ _ _ _ _ (init_queue_ok _ (reachable_ok _ Hst))
              _ Hcall).
    eapply counted_vertices; [apply init_queue_vertices|apply init_queue_deleted|done].
Qed.

(* ===================================================================== *)
(** ** Further properties: what buildMesh builds                          *)
(* ===================================================================== *)

Lemma fold_left_measure {S B} (mu : S -> nat) (f : S -> B -> S) (c : nat)
    (l : list B) (s : S) :
  (forall s b, mu (f s b) <= mu s + c) -> mu (fold_left f l s) <= mu s + c * length l.
Proof.
  intros Hf. revert s. induction l as [|b l IH]; intros s; simpl; [lia|].
  specialize (IH (f s b)). specialize (Hf s b). nia.
Qed.

Lemma fold_left_preserves_in {A B} (P : A -> Prop) (Q : B -> Prop) (f : A -> B -> A)
    (l : list B) (a : A) :
  P a -> Forall Q l -> (forall a b, Q b -> P a -> P (f a b)) -> P (fold_left f l a).
Proof.
  intros Ha Hl Hf. revert a Ha. induction Hl as [|b l Hb _ IH]; intros a Ha; simpl; auto.
Qed.

Lemma buildMesh_vertices numVertices vertices uvs normals :
  Mesh.vertices (buildMesh Mesh.empty numVertices vertices uvs normals)
  = w_vertices (weld_all numVertices vertices uvs normals).
Proof.
  unfold buildMesh, weld_all. cbn [Mesh.vertices Mesh.faces Mesh.edges Mesh.empty].
  by destruct (fold_left edge_step _ _).
Qed.

Lemma buildMesh_faces numVertices vertices uvs normals :
  Mesh.faces (buildMesh Mesh.empty numVertices vertices uvs normals)
  = fold_left
      (face_step numVertices (w_vertices (weld_all numVertices vertices uvs normals))
                 (w_vertexMapping (weld_all numVertices vertices uvs normals)))
      ((fun j => 3 * j) <$> seq 0 ((numVertices + 2) / 3)) [].
Proof.
  unfold buildMesh, weld_all. cbn [Mesh.vertices Mesh.faces Mesh.edges Mesh.empty].
  by destruct (fold_left edge_step _ _).
Qed.

Lemma buildMesh_edges numVertices vertices uvs normals :
  Mesh.edges (buildMesh Mesh.empty numVertices vertices uvs normals)
  = (fold_left edge_step
       (Mesh.faces (buildMesh Mesh.empty numVertices vertices uvs normals))
       ([], ∅)).1.
Proof.
  rewrite buildMesh_faces.
  unfold buildMesh, weld_all. cbn [Mesh.vertices Mesh.faces Mesh.edges Mesh.empty].
  by destruct (fold_left edge_step _ _).
Qed.

Lemma buildMesh_built_faces numVertices vertices uvs normals :
  let m := buildMesh Mesh.empty numVertices vertices uvs normals in
  Forall (built_face (Mesh.vertices m)) (Mesh.faces m).
Proof.
  cbv zeta. rewrite buildMesh_vertices, buildMesh_faces.
  destruct (weld_loop_inv numVertices vertices uvs normals numVertices (le_n _))
    as [Hlive _ _ Hmap].
  fold (weld_all numVertices vertices uvs normals) in Hlive, Hmap.
  apply (fold_left_preserves
           (Forall (built_face (w_vertices (weld_all numVertices vertices uvs normals))))).
  - constructor.
  - intros fs i Hfs. by apply face_step_inv.
Qed.

Lemma weld_step_count vertices uvs normals st i :
  length (w_vertices (weld_step vertices uvs normals st i))
  <= length (w_vertices st) + 1.
Proof.
  unfold weld_step.
  destruct (match w_spatialHash st !! grid_key (vertices !!! i) with
            | Some candidates =>
                find_welded (vertices !!! i) (w_vertices st) candidates
            | None => None
            end);
    cbn [w_vertices]; rewrite ?length_app; cbn [length]; lia.
Qed.

Lemma face_step_count numVertices vs vertexMapping faces i :
  length (face_step numVertices vs vertexMapping faces i)
  <= length faces + (if decide (i + 2 < numVertices) then 1 else 0).
Proof.
  unfold face_step. case_decide; [|lia].
  destruct (_ || _); rewrite ?length_app; simpl; lia.
Qed.

Lemma face_loop_count numVertices vs vertexMapping k faces :
  length (fold_left (face_step numVertices vs vertexMapping)
                    ((fun j => 3 * j) <$> seq 0 k) faces)
  <= length faces + Nat.min k (numVertices / 3).
Proof.
  induction k as [|k IH]; [simpl; lia|].
  rewrite seq_S, fmap_app, fold_left_app. cbn [fmap list_fmap fold_left plus].
  pose proof (face_step_count numVertices vs vertexMapping
                (fold_left (face_step numVertices vs vertexMapping)
                           ((fun j => 3 * j) <$> seq 0 k) faces) (3 * k)) as Hstep.
  case_decide as Hk.
  - assert (S k <= numVertices / 3) by (apply Nat.div_le_lower_bound; lia). lia.
  - lia.
Qed.

Lemma add_edge_count e st : length (add_edge e st).1 <= length st.1 + 1.
Proof.
  unfold add_edge. destruct (default false _); cbn [fst]; rewrite ?length_app; simpl; lia.
Qed.

Lemma edge_step_count st f : length (edge_step st f).1 <= length st.1 + 3.
Proof.
  unfold edge_step.
  set (e1 := (Nat.min (Face.v1 f) (Face.v2 f), Nat.max (Face.v1 f) (Face.v2 f))).
  set (e2 := (Nat.min (Face.v2 f) (Face.v3 f), Nat.max (Face.v2 f) (Face.v3 f))).
  set (e3 := (Nat.min (Face.v3 f) (Face.v1 f), Nat.max (Face.v3 f) (Face.v1 f))).
  pose proof (add_edge_count e1 st).
  pose proof (add_edge_count e2 (add_edge e1 st)).
  pose proof (add_edge_count e3 (add_edge e2 (add_edge e1 st))). lia.
Qed.

(** X14.  [buildMesh] on an empty mesh creates at most one vertex per
    input corner, at most one face per complete triple of corners and at
    most three edges per face, and tombstones nothing; with fewer than
    three corners there is no face and no edge. *)
Theorem buildMesh_sizes numVertices vertices uvs normals :
  inputs_ok numVertices vertices uvs normals ->
  let m := buildMesh Mesh.empty numVertices vertices uvs normals in
  length (Mesh.vertices m) <= numVertices
  /\ length (Mesh.faces m) <= numVertices / 3
  /\ length (Mesh.edges m) <= 3 * length (Mesh.faces m)
  /\ Mesh.deletedVertices m = 0
  /\ Forall (fun v => Vertex.isDeleted v = false) (Mesh.vertices m).
Proof.
  intros _ m. subst m. split; [|split; [|split; [|split]]].
  - rewrite buildMesh_vertices. unfold weld_all.
    pose proof (fold_left_measure (fun st => length (w_vertices st))
                  (weld_step vertices uvs normals) 1 (seq 0 numVertices)
                  (WeldState [] ∅ (replicate numVertices 0))
                  (weld_step_count vertices uvs normals)) as H.
    rewrite length_seq in H. cbn [w_vertices length] in H. lia.
  - rewrite buildMesh_faces.
    pose proof (face_loop_count numVertices
                  (w_vertices (weld_all numVertices vertices uvs normals))
                  (w_vertexMapping (weld_all numVertices vertices uvs normals))
                  ((numVertices + 2) / 3) []) as H.
    cbn [length] in H. lia.
  - rewrite buildMesh_edges.
    pose proof (fold_left_measure (fun st : list Edge.t * gmap (nat * nat) bool =>
                                     length st.1)
                  edge_step 3
                  (Mesh.faces (buildMesh Mesh.empty numVertices vertices uvs normals))
                  ([], ∅) edge_step_count) as H.
    cbn [fst length] in H. lia.
  - unfold buildMesh. cbn [Mesh.vertices Mesh.faces Mesh.edges Mesh.deletedVertices
      Mesh.empty].
    by destruct (fold_left edge_step _ _).
  - rewrite buildMesh_vertices.
    by destruct (weld_loop_inv numVertices vertices uvs normals numVertices (le_n _)).
Qed.

Lemma add_edge_pairs p st q :
  edge_set_inv st ->
  q ∈ edge_pairs (add_edge p st).1 <-> q ∈ edge_pairs st.1 \/ q = p.
Proof.
  intros [_ Hseen _]. unfold add_edge. destruct p as [a b].
  destruct (default false (st.2 !! (a, b))) eqn:Hin.
  - apply Hseen in Hin. split; [by left|]. by intros [?| ->].
  - cbn [fst snd]. unfold edge_pairs. rewrite fmap_app, elem_of_app.
    change ((fun e => (Edge.v1 e, Edge.v2 e)) <$> [Edge.ctor uninit_vec3 a b])
      with [(a, b)].
    by rewrite list_elem_of_singleton.
Qed.

Lemma edge_step_pairs vs st f q :
  built_face vs f -> edge_set_inv st ->
  q ∈ edge_pairs (edge_step st f).1 <-> q ∈ edge_pairs st.1 \/ q ∈ face_sides f.
Proof.
  intros [Hdel Hf] Hst. destruct (Hf Hdel) as (H12 & H23 & H31 & _).
  unfold edge_step, face_sides.
  set (e1 := (Nat.min (Face.v1 f) (Face.v2 f), Nat.max (Face.v1 f) (Face.v2 f))).
  set (e2 := (Nat.min (Face.v2 f) (Face.v3 f), Nat.max (Face.v2 f) (Face.v3 f))).
  set (e3 := (Nat.min (Face.v3 f) (Face.v1 f), Nat.max (Face.v3 f) (Face.v1 f))).
  assert (edge_set_inv (add_edge e1 st)) as H1
    by (apply add_edge_set_inv; [lia|done]).
  assert (edge_set_inv (add_edge e2 (add_edge e1 st))) as H2
    by (apply add_edge_set_inv; [lia|done]).
  rewrite (add_edge_pairs e3 _ q H2), (add_edge_pairs e2 _ q H1),
    (add_edge_pairs e1 _ q Hst).
  rewrite !elem_of_cons, elem_of_nil. tauto.
Qed.

Lemma edge_loop_pairs vs faces st q :
  Forall (built_face vs) faces -> edge_set_inv st ->
  edge_set_inv (fold_left edge_step faces st)
  /\ (q ∈ edge_pairs (fold_left edge_step faces st).1
      <-> q ∈ edge_pairs st.1 \/ exists f, f ∈ faces /\ q ∈ face_sides f).
Proof.
  intros Hfaces. revert st. induction Hfaces as [|f faces Hf _ IH]; intros st Hst.
  - split; [done|]. simpl. split; [by left|]. intros [?|(f & Hin & _)]; [done|].
    by apply elem_of_nil in Hin.
  - cbn [fold_left].
    destruct (IH (edge_step st f) (edge_step_set_inv vs st f Hf Hst)) as [Hinv Hiff].
    split; [done|]. rewrite Hiff, (edge_step_pairs vs st f q Hf Hst). split.
    + intros [[?|?]|(f' & Hin & ?)]; [by left| |].
      * right. exists f. split; [by apply elem_of_cons; left|done].
      * right. exists f'. split; [by apply elem_of_cons; right|done].
    + intros [?|(f' & Hin & ?)]; [by left; left|].
      apply elem_of_cons in Hin as [->|Hin]; [by left; right|].
      right. by exists f'.
Qed.

Lemma add_edge_fresh p st :
  Forall (fun e => e = Edge.ctor uninit_vec3 (Edge.v1 e) (Edge.v2 e)) st.1 ->
  Forall (fun e => e = Edge.ctor uninit_vec3 (Edge.v1 e) (Edge.v2 e)) (add_edge p st).1.
Proof.
  intros Hst. unfold add_edge. destruct (default false _); [done|]. cbn [fst].
  apply Forall_app. split; [done|]. by apply Forall_singleton.
Qed.

Lemma empty_edge_set_inv : edge_set_inv ([], ∅).
Proof.
  split; simpl; [constructor| |constructor].
  intros e. rewrite lookup_empty. simpl. split; [done|]. by intros ?%elem_of_nil.
Qed.

(** X15.  The edges [buildMesh] extracts are exactly the sides of its
    faces, each once: the stored endpoint pairs are pairwise distinct, every
    pair is the [(min, max)] key of a side of some face and every side of
    every face is there; each edge is as its constructor leaves it (live,
    not dirty, cost 0, [isBoundary] false, position unset) with [v1 < v2]. *)
Theorem buildMesh_edges_are_face_sides numVertices vertices uvs normals :
  inputs_ok numVertices vertices uvs normals ->
  let m := buildMesh Mesh.empty numVertices vertices uvs normals in
  NoDup (edge_pairs (Mesh.edges m))
  /\ Forall (fun e => Edge.v1 e < Edge.v2 e
                      /\ e = Edge.ctor uninit_vec3 (Edge.v1 e) (Edge.v2 e))
            (Mesh.edges m)
  /\ forall p, p ∈ edge_pairs (Mesh.edges m)
               <-> exists f, f ∈ Mesh.faces m /\ p ∈ face_sides f.
Proof.
  intros _ m.
  pose proof (buildMesh_built_faces numVertices vertices uvs normals) as Hfaces.
  cbv zeta in Hfaces. fold m in Hfaces.
  assert (Mesh.edges m = (fold_left edge_step (Mesh.faces m) ([], ∅)).1) as ->
    by apply buildMesh_edges.
  destruct (edge_loop_pairs _ _ _ (0, 0) Hfaces empty_edge_set_inv)
    as [[Hnd _ Hsorted] _].
  split; [done|]. split.
  - apply Forall_and. split; [by eapply Forall_impl; [exact Hsorted|]; intros e []|].
    apply (fold_left_preserves
             (fun st : list Edge.t * gmap (nat * nat) bool =>
                Forall (fun e => e = Edge.ctor uninit_vec3 (Edge.v1 e) (Edge.v2 e)) st.1)).
    + constructor.
    + intros st f Hst. unfold edge_step. by repeat apply add_edge_fresh.
  - intros p. destruct (edge_loop_pairs _ _ _ p Hfaces empty_edge_set_inv) as [_ Hiff].
    rewrite Hiff. cbn [fst edge_pairs fmap list_fmap]. rewrite elem_of_nil. tauto.
Qed.

Lemma find_welded_Some pos verts candidates idx :
  find_welded pos verts candidates = Some idx ->
  F32.ltb (glm.distance pos (Vertex.position (verts !!! idx))) EPSILON = true.
Proof.
  induction candidates as [|c cs IH]; cbn [find_welded]; [done|].
  destruct (F32.ltb (glm.distance pos (Vertex.position (verts !!! c))) EPSILON) eqn:Hlt;
    [|exact IH].
  intros [= Hc]. by rewrite <- Hc.
Qed.

Lemma find_welded_None pos verts candidates :
  find_welded pos verts candidates = None ->
  Forall (fun idx =>
            F32.ltb (glm.distance pos (Vertex.position (verts !!! idx))) EPSILON = false)
         candidates.
Proof.
  induction candidates as [|c cs IH]; cbn [find_welded]; [constructor|].
  destruct (F32.ltb (glm.distance pos (Vertex.position (verts !!! c))) EPSILON) eqn:Hlt;
    [done|].
  intros H. constructor; auto.
Qed.

Lemma weld_step_facts numVertices vertices uvs normals i st :
  i < numVertices ->
  weld_inv numVertices i st ->
  weld_facts vertices uvs normals i st ->
  weld_facts vertices uvs normals (S i) (weld_step vertices uvs normals st i).
Proof.
  intros Hi [_ _ Hlen Hmap] [Hcopies Hnear Hcell Hsound Hcount]. unfold weld_step.
  set (pos := vertices !!! i). set (key := grid_key pos).
  destruct (match w_spatialHash st !! key with
            | Some candidates => find_welded pos (w_vertices st) candidates
            | None => None
            end) as [existingIdx|] eqn:Hfound.
  - split; cbn [w_vertices w_spatialHash w_vertexMapping].
    + eapply Forall_impl; [exact Hcopies|]. intros v (k & Hk & ->). exists k. split; [lia|done].
    + intros j Hj. destruct (decide (j = i)) as [->|Hne].
      * rewrite list_lookup_total_insert_eq by lia.
        destruct (w_spatialHash st !! key) as [candidates|] eqn:Hkey; [|done]. split.
        -- apply (Hsound key candidates); [done|]. by eapply find_welded_elem_of.
        -- right. by eapply find_welded_Some.
      * rewrite list_lookup_total_insert_ne by done. apply Hnear. lia.
    + done.
    + done.
    + lia.
  - split; cbn [w_vertices w_spatialHash w_vertexMapping].
    + apply Forall_app. split.
      * eapply Forall_impl; [exact Hcopies|]. intros v (k & Hk & ->).
        exists k. split; [lia|done].
      * apply Forall_singleton. exists i. split; [lia|done].
    + intros j Hj. destruct (decide (j = i)) as [->|Hne].
      * rewrite list_lookup_total_insert_eq by lia.
        rewrite lookup_total_app_r by lia. rewrite Nat.sub_diag. split; [done|by left].
      * rewrite list_lookup_total_insert_ne by done.
        rewrite lookup_total_app_l by (apply Hmap; lia). apply Hnear. lia.
    + intros k v Hv. apply lookup_app_Some in Hv as [Hv|[Hge Hv]].
      * destruct (Hcell k v Hv) as (candidates & Hc & Hin).
        destruct (decide (key = grid_key (Vertex.position v))) as [Heq|Hneq].
        -- rewrite <- Heq, lookup_insert_eq. rewrite <- Heq in Hc. rewrite Hc.
           eexists. split; [done|]. apply elem_of_app. by left.
        -- rewrite lookup_insert_ne by done. eauto.
      * apply list_lookup_singleton_Some in Hv as [Hk <-].
        change (Vertex.position (Vertex.ctor pos _ _ _)) with pos. fold key.
        rewrite lookup_insert_eq. eexists. split; [done|].
        apply elem_of_app. right. apply list_elem_of_singleton. lia.
    + intros key' candidates k. rewrite length_app. cbn [length].
      destruct (decide (key = key')) as [<-|Hneq].
      * rewrite lookup_insert_eq. intros [= <-] Hk.
        apply elem_of_app in Hk as [Hk|Hk].
        -- destruct (w_spatialHash st !! key) as [c|] eqn:Hkey;
             [|by apply elem_of_nil in Hk].
           destruct (Hsound key c k Hkey Hk) as [Hlt Hgk]. split; [lia|].
           by rewrite lookup_total_app_l.
        -- apply list_elem_of_singleton in Hk as ->. split; [lia|].
           rewrite lookup_total_app_r by lia. by rewrite Nat.sub_diag.
      * rewrite lookup_insert_ne by done. intros Hc Hk.
        destruct (Hsound key' candidates k Hc Hk) as [Hlt Hgk]. split; [lia|].
        by rewrite lookup_total_app_l.
    + rewrite length_app. simpl. lia.
Qed.

Lemma weld_loop_facts numVertices vertices uvs normals k :
  k <= numVertices ->
  weld_facts vertices uvs normals k
    (fold_left (weld_step vertices uvs normals) (seq 0 k)
               (WeldState [] ∅ (replicate numVertices 0))).
Proof.
  induction k as [|k IH]; intros Hk.
  - split; simpl; [constructor|lia| | |lia].
    + intros ? ? ?. done.
    + intros key candidates k. by rewrite lookup_empty.
  - rewrite seq_S, fold_left_app. simpl.
    apply (weld_step_facts numVertices); [lia| |apply IH; lia].
    apply weld_loop_inv. lia.
Qed.

(** X16.  Welding never blends attributes: every vertex of the built mesh
    is the verbatim copy of one input corner (its position, normal and
    texture coordinate), white, live, with the zero quadric and no
    adjacency. *)
Theorem buildMesh_vertices_are_input_corners numVertices vertices uvs normals :
  inputs_ok numVertices vertices uvs normals ->
  let m := buildMesh Mesh.empty numVertices vertices uvs normals in
  Forall (fun v => exists k, k < numVertices
                             /\ v = corner_vertex vertices uvs normals k)
         (Mesh.vertices m).
Proof.
  intros _ m. subst m. rewrite buildMesh_vertices.
  by destruct (weld_loop_facts numVertices vertices uvs normals numVertices (le_n _)).
Qed.

Lemma sub_self_is_zero x : F32.is_finite x = true -> is_zero (F32.sub x x) = true.
Proof.
  destruct x as [[]|[]| |s m e]; try done. intros _.
  unfold F32.sub. cbv beta iota zeta delta [SFsub]. by rewrite Z.sub_diag.
Qed.

Lemma mul_is_zero x y : is_zero x = true -> is_zero y = true -> is_zero (F32.mul x y) = true.
Proof. by destruct x, y. Qed.

Lemma add_is_zero x y : is_zero x = true -> is_zero y = true -> is_zero (F32.add x y) = true.
Proof. by destruct x as [[]| | |], y as [[]| | |]. Qed.

Lemma sqrt_is_zero x : is_zero x = true -> is_zero (F32.sqrt x) = true.
Proof. by destruct x as [[]| | |]. Qed.

Lemma ltb_is_zero_EPSILON x : is_zero x = true -> F32.ltb x EPSILON = true.
Proof. by destruct x as [[]| | |]. Qed.

(** A finite point is closer than [EPSILON] to itself. *)
Lemma distance_self p : finite_vec3 p -> F32.ltb (glm.distance p p) EPSILON = true.
Proof.
  intros (Hx & Hy & Hz). apply ltb_is_zero_EPSILON.
  unfold glm.distance, glm.length, glm.dot3, glm.vec3_sub. cbn [x3 y3 z3].
  apply sqrt_is_zero.
  repeat (apply add_is_zero || apply mul_is_zero); by apply sub_self_is_zero.
Qed.

Lemma weld_step_nodup vertices uvs normals i st :
  finite_vec3 (vertices !!! i) ->
  weld_facts vertices uvs normals i st ->
  NoDup (Vertex.position <$> w_vertices st) ->
  NoDup (Vertex.position <$> w_vertices (weld_step vertices uvs normals st i)).
Proof.
  intros Hfin [_ _ Hcell _ _] Hnd. unfold weld_step.
  set (pos := vertices !!! i) in *. set (key := grid_key pos).
  destruct (match w_spatialHash st !! key with
            | Some candidates => find_welded pos (w_vertices st) candidates
            | None => None
            end) as [existingIdx|] eqn:Hfound; [done|].
  cbn [w_vertices]. rewrite fmap_app. apply NoDup_app. split; [done|]. split.
  - intros x Hx Hpos. apply list_elem_of_singleton in Hpos.
    change (Vertex.position (Vertex.ctor pos _ _ _)) with pos in Hpos. subst x.
    apply list_elem_of_fmap in Hx as (v & Hv & Hin).
    apply list_elem_of_lookup in Hin as [k Hk].
    destruct (Hcell k v Hk) as (candidates & Hc & Hkc).
    rewrite <- Hv in Hc. fold key in Hc. rewrite Hc in Hfound.
    apply find_welded_None in Hfound. rewrite Forall_forall in Hfound.
    specialize (Hfound k Hkc).
    rewrite (list_lookup_total_correct _ _ _ Hk), <- Hv in Hfound.
    by rewrite distance_self in Hfound.
  - apply NoDup_singleton.
Qed.

(** X17.  Exact duplicates are always welded: when every input corner
    has finite coordinates, no two vertices of the built mesh have the same
    position. *)
Theorem buildMesh_positions_distinct numVertices vertices uvs normals :
  inputs_ok numVertices vertices uvs normals ->
  (forall i, i < numVertices -> finite_vec3 (vertices !!! i)) ->
  let m := buildMesh Mesh.empty numVertices vertices uvs normals in
  NoDup (Vertex.position <$> Mesh.vertices m).
Proof.
  intros _ Hfin m. subst m. rewrite buildMesh_vertices. unfold weld_all.
  assert (forall k, k <= numVertices ->
            NoDup (Vertex.position
                     <$> w_vertices
                           (fold_left (weld_step vertices uvs normals) (seq 0 k)
                                      (WeldState [] ∅ (replicate numVertices 0)))))
    as H; [|by apply H].
  induction k as [|k IH]; intros Hk; [constructor|].
  rewrite seq_S, fold_left_app. cbn [fold_left plus].
  apply weld_step_nodup; [apply Hfin; lia|apply weld_loop_facts; lia|apply IH; lia].
Qed.

Lemma face_step_near numVertices vertices uvs normals st faces j :
  weld_facts vertices uvs normals numVertices st ->
  Forall (fun f => exists j, 3 * j + 2 < numVertices
                             /\ face_of_triangle vertices (w_vertices st) j f) faces ->
  Forall (fun f => exists j, 3 * j + 2 < numVertices
                             /\ face_of_triangle vertices (w_vertices st) j f)
         (face_step numVertices (w_vertices st) (w_vertexMapping st) faces (3 * j)).
Proof.
  intros [_ Hnear _ _ _] Hfaces. unfold face_step.
  case_decide as Hj; [|done]. destruct (_ || _); [done|].
  apply Forall_app. split; [done|]. apply Forall_singleton. exists j. split; [done|].
  unfold face_of_triangle.
  change (Face.v1 (Face.ctor ?a ?b ?c _ _ _)) with a.
  change (Face.v2 (Face.ctor ?a ?b ?c _ _ _)) with b.
  change (Face.v3 (Face.ctor ?a ?b ?c _ _ _)) with c.
  repeat split; apply Hnear; lia.
Qed.

(** X18.  Every face of the built mesh comes from one input triangle
    (corners [3j], [3j+1], [3j+2]): each of its three vertices lies in the
    grid cell of its corner and is the vertex created from that corner, or
    one the welding test accepted for it (closer than [EPSILON]).  A vertex
    in a neighbouring cell is never used, however close. *)
Theorem buildMesh_faces_follow_triangles numVertices vertices uvs normals :
  inputs_ok numVertices vertices uvs normals ->
  let m := buildMesh Mesh.empty numVertices vertices uvs normals in
  Forall (fun f => exists j, 3 * j + 2 < numVertices
                             /\ face_of_triangle vertices (Mesh.vertices m) j f)
         (Mesh.faces m).
Proof.
  intros _ m. subst m. rewrite buildMesh_vertices, buildMesh_faces.
  pose proof (weld_loop_facts numVertices vertices uvs normals numVertices (le_n _))
    as Hfacts.
  fold (weld_all numVertices vertices uvs normals) in Hfacts.
  apply (fold_left_preserves_in
           (Forall (fun f => exists j, 3 * j + 2 < numVertices
                      /\ face_of_triangle vertices
                           (w_vertices (weld_all numVertices vertices uvs normals)) j f))
           (fun i => exists j, i = 3 * j)).
  - constructor.
  - apply Forall_fmap, Forall_true. intros j. by exists j.
  - intros faces i [j ->] Hfaces. by eapply face_step_near.
Qed.

(* ===================================================================== *)
(** ** Further properties: the scheduler and the render buffers           *)
(* ===================================================================== *)

Lemma init_queue_queue vs es acc q :
  (fold_left (init_queue_step vs) es (acc, q)).2
  = q ++ live_edges ((fun e => if Edge.isDeleted e then e
                               else Edge.set_isDirty false (computeCost e vs)) <$> es).
Proof.
  unfold live_edges. revert acc q. induction es as [|e es IH]; intros acc q.
  - cbn [fold_left snd]. by rewrite app_nil_r.
  - cbn [fold_left]. rewrite fmap_cons. unfold init_queue_step at 2.
    destruct (Edge.isDeleted e) eqn:Hd.
    + rewrite IH, filter_cons_False; [done|]. by rewrite Hd.
    + rewrite IH, filter_cons_True by (by rewrite isDeleted_refresh).
      unfold pq_push. by rewrite <- app_assoc.
Qed.

(** X19.  The start of [meshSimplify] on an empty queue computes the same
    costs as [initializeEdgeCosts] and also clears the dirty flag of every
    live edge; the queue then holds exactly one entry per live edge, in
    edge order, equal to the stored record; tombstoned edges, vertices and
    faces are untouched. *)
Theorem init_queue_matches_initializeEdgeCosts m :
  let st' := init_queue (MkSim m []) in
  Mesh.edges (sim_mesh st')
  = (fun e => if Edge.isDeleted e then e else Edge.set_isDirty false e)
      <$> Mesh.edges (initializeEdgeCosts m)
  /\ sim_edgeQueue st' = live_edges (Mesh.edges (sim_mesh st'))
  /\ Mesh.vertices (sim_mesh st') = Mesh.vertices m
  /\ Mesh.faces (sim_mesh st') = Mesh.faces m
  /\ Mesh.deletedVertices (sim_mesh st') = Mesh.deletedVertices m.
Proof.
  unfold init_queue. cbn [sim_edgeQueue sim_mesh].
  pose proof (init_queue_edges (Mesh.vertices m) (Mesh.edges m) [] []) as Hedges.
  pose proof (init_queue_queue (Mesh.vertices m) (Mesh.edges m) [] []) as Hqueue.
  destruct (fold_left _ _ _) as [edges queue]. cbn [fst snd app] in Hedges, Hqueue.
  subst edges queue. cbn [sim_edgeQueue sim_mesh Mesh.edges Mesh.vertices Mesh.faces
    Mesh.deletedVertices initializeEdgeCosts].
  split; [|done]. rewrite <- list_fmap_compose. apply list_fmap_ext.
  intros ? e _. unfold compose. destruct (Edge.isDeleted e) eqn:Hd.
  - by rewrite Hd.
  - by rewrite computeCost_isDeleted, Hd.
Qed.

Lemma simplify_round_quiet budget st count :
  match simplify_round budget st count with
  | Return st' count' =>
      count' = S count \/ (count' = count /\ st' = st /\ sim_edgeQueue st = [])
  | Continue st' count' =>
      count' = S count
      \/ (count' = count
          /\ Mesh.vertices (sim_mesh st') = Mesh.vertices (sim_mesh st)
          /\ Mesh.faces (sim_mesh st') = Mesh.faces (sim_mesh st)
          /\ Mesh.deletedVertices (sim_mesh st') = Mesh.deletedVertices (sim_mesh st))
  end.
Proof.
  unfold simplify_round.
  destruct (pq_pop (sim_edgeQueue st)) as [[edge queue]|] eqn:Hpop.
  2:{ right. unfold pq_pop in Hpop. by destruct (sim_edgeQueue st). }
  destruct (find_edge_from 0 _ _ _) as [edgeIndex|]; [|by right].
  destruct (Edge.isDeleted _); [by right|].
  destruct (Edge.isDirty _); [by right|].
  case_decide; by left.
Qed.

Lemma simplify_loop_quiet fuel budget st count st' count' :
  simplify_loop fuel budget st count = Some (st', count') ->
  count <= count'
  /\ (count' = count ->
      sim_edgeQueue st' = []
      /\ Mesh.vertices (sim_mesh st') = Mesh.vertices (sim_mesh st)
      /\ Mesh.faces (sim_mesh st') = Mesh.faces (sim_mesh st)
      /\ Mesh.deletedVertices (sim_mesh st') = Mesh.deletedVertices (sim_mesh st)).
Proof.
  revert st count. induction fuel as [|fuel IH]; intros st count; simpl; [done|].
  pose proof (simplify_round_quiet budget st count) as Hr.
  destruct (simplify_round budget st count) as [st1 c1|st1 c1].
  - intros [= <- <-]. destruct Hr as [->|(-> & -> & Hq)]; [lia|]. split; [lia|done].
  - intros Hloop. destruct (IH _ _ Hloop) as [Hle Hsame].
    destruct Hr as [->|(-> & Hv & Hf & Hd)]; [lia|].
    split; [done|]. intros Hc. destruct (Hsame Hc) as (? & ? & ? & ?).
    repeat split; congruence.
Qed.

(** X20.  A call of [meshSimplify] that performs no collapse has emptied
    the queue and has left the vertices, the faces and [deletedVertices] as
    they were: it only dropped stale entries and refreshed dirty edges. *)
Theorem meshSimplify_without_collapse fuel originalVertexCount st st' :
  meshSimplify fuel originalVertexCount st = Some (st', 0) ->
  sim_edgeQueue st' = []
  /\ Mesh.vertices (sim_mesh st') = Mesh.vertices (sim_mesh st)
  /\ Mesh.faces (sim_mesh st') = Mesh.faces (sim_mesh st)
  /\ Mesh.deletedVertices (sim_mesh st') = Mesh.deletedVertices (sim_mesh st).
Proof.
  unfold meshSimplify. intros Hloop.
  destruct (simplify_loop_quiet _ _ _ _ _ _ Hloop) as [_ Hsame].
  destruct (Hsame eq_refl) as (Hq & Hv & Hf & Hd).
  rewrite init_queue_vertices in Hv. rewrite init_queue_faces in Hf.
  pose proof (init_queue_deleted st) as Hd'. unfold sim_deleted in Hd'.
  repeat split; congruence.
Qed.

Lemma find_edge_from_spec i a b es :
  match find_edge_from i a b es with
  | Some idx =>
      exists k e, idx = i + k /\ es !! k = Some e /\ edge_joins e a b = true
                  /\ Forall (fun e => edge_joins e a b = false) (take k es)
  | None => Forall (fun e => edge_joins e a b = false) es
  end.
Proof.
  revert i. induction es as [|e es IH]; intros i; cbn [find_edge_from]; [constructor|].
  fold (edge_joins e a b). destruct (edge_joins e a b) eqn:He.
  - exists 0, e. rewrite Nat.add_0_r. repeat split; [done|constructor].
  - specialize (IH (S i)). destruct (find_edge_from (S i) a b es) as [idx|].
    + destruct IH as (k & e' & -> & Hk & Hj & Hbefore). exists (S k), e'.
      split; [lia|]. split; [done|]. split; [done|]. by constructor.
    + by constructor.
Qed.

(** X21.  The scheduler's search for a queue entry in [mesh.edges]
    returns the first record whose endpoints are the entry's, in either
    order, whether that record is live or tombstoned; it fails exactly when
    no record has these endpoints. *)
Theorem find_edge_from_first_match a b es :
  match find_edge_from 0 a b es with
  | Some idx =>
      exists e, es !! idx = Some e /\ edge_joins e a b = true
                /\ Forall (fun e => edge_joins e a b = false) (take idx es)
  | None => Forall (fun e => edge_joins e a b = false) es
  end.
Proof.
  pose proof (find_edge_from_spec 0 a b es) as H.
  destruct (find_edge_from 0 a b es) as [idx|]; [|done].
  destruct H as (k & e & -> & ? & ? & ?). by exists e.
Qed.

Lemma isDirty_set_isDirty dirty e : Edge.isDirty (Edge.set_isDirty dirty e) = dirty.
Proof. done. Qed.

Lemma init_queue_all_live st :
  sim_edgeQueue st = [] ->
  Forall (fun e => Edge.isDeleted e = false) (Mesh.edges (sim_mesh st)) ->
  let st1 := init_queue st in
  sim_edgeQueue st1 = Mesh.edges (sim_mesh st1)
  /\ length (Mesh.edges (sim_mesh st1)) = length (Mesh.edges (sim_mesh st))
  /\ Forall (fun e => Edge.isDeleted e = false /\ Edge.isDirty e = false)
            (Mesh.edges (sim_mesh st1)).
Proof.
  intros Hq Hlive. cbv zeta. unfold init_queue. rewrite Hq.
  pose proof (init_queue_edges (Mesh.vertices (sim_mesh st))
                (Mesh.edges (sim_mesh st)) [] []) as Hedges.
  pose proof (init_queue_queue (Mesh.vertices (sim_mesh st))
                (Mesh.edges (sim_mesh st)) [] []) as Hqueue.
  destruct (fold_left _ _ _) as [edges queue]. cbn [fst snd app] in Hedges, Hqueue.
  cbn [sim_edgeQueue sim_mesh Mesh.edges].
  assert (Forall (fun e => Edge.isDeleted e = false /\ Edge.isDirty e = false) edges)
    as Hall.
  { subst edges. apply Forall_fmap. eapply Forall_impl; [exact Hlive|].
    intros e He. cbn [compose]. rewrite He.
    by rewrite isDeleted_refresh, isDirty_set_isDirty. }
  split; [|split; [|done]].
  - rewrite Hqueue, <- Hedges. unfold live_edges.
    clear -Hall. induction Hall as [|e es [He _] _ IH]; [done|].
    rewrite filter_cons_True by done. by rewrite IH.
  - subst edges. by rewrite length_fmap.
Qed.

Lemma pq_pop_elem q e q' : pq_pop q = Some (e, q') -> e ∈ q.
Proof.
  unfold pq_pop. destruct q as [|e0 rest]; [done|]. intros H.
  assert (e = (e0 :: rest) !!! pq_top_index (e0 :: rest)) as -> by congruence.
  apply list_elem_of_lookup. exists (pq_top_index (e0 :: rest)).
  apply list_lookup_lookup_total_lt, pq_top_index_lt. done.
Qed.

Lemma find_edge_from_elem e es :
  e ∈ es -> exists idx, find_edge_from 0 (Edge.v1 e) (Edge.v2 e) es = Some idx.
Proof.
  intros Hin. pose proof (find_edge_from_spec 0 (Edge.v1 e) (Edge.v2 e) es) as H.
  destruct (find_edge_from 0 _ _ es) as [idx|]; [by exists idx|].
  rewrite Forall_forall in H. specialize (H e Hin). unfold edge_joins in H.
  by rewrite bool_decide_true in H.
Qed.

Lemma simplify_round_collapses budget st count :
  sim_edgeQueue st <> [] ->
  sim_edgeQueue st = Mesh.edges (sim_mesh st) ->
  Forall (fun e => Edge.isDeleted e = false /\ Edge.isDirty e = false)
         (Mesh.edges (sim_mesh st)) ->
  match simplify_round budget st count with
  | Return _ count' | Continue _ count' => count' = S count
  end.
Proof.
  intros Hne Hq Hall. unfold simplify_round.
  destruct (pq_pop (sim_edgeQueue st)) as [[edge queue]|] eqn:Hpop.
  2:{ unfold pq_pop in Hpop. by destruct (sim_edgeQueue st). }
  apply pq_pop_elem in Hpop. rewrite Hq in Hpop.
  destruct (find_edge_from_elem _ _ Hpop) as [idx Hfind]. rewrite Hfind.
  apply find_edge_from_lt in Hfind.
  assert (Mesh.edges (sim_mesh st) !! idx = Some (Mesh.edges (sim_mesh st) !!! idx))
    as Hlk by (apply list_lookup_lookup_total_lt; lia).
  eapply Forall_lookup_1 in Hlk; [|exact Hall]. destruct Hlk as [-> ->].
  by case_decide.
Qed.

(** X22.  The first call always collapses: from an empty queue and a mesh
    with at least one edge and no tombstoned edge (the state after
    [buildMesh]), a call of [meshSimplify] ends and has performed at least
    one collapse, whatever the budget. *)
Theorem meshSimplify_first_call_collapses originalVertexCount st :
  sim_edgeQueue st = [] ->
  Mesh.edges (sim_mesh st) <> [] ->
  Forall (fun e => Edge.isDeleted e = false) (Mesh.edges (sim_mesh st)) ->
  exists fuel, forall fuel', fuel <= fuel' ->
    exists st' count,
      meshSimplify fuel' originalVertexCount st = Some (st', count)
      /\ 1 <= count.
Proof.
  intros Hq Hne Hlive.
  destruct (simplify_loop_halts (originalVertexCount / 100) (originalVertexCount / 100)
              (init_queue st) 0 ltac:(lia)) as (fuel & Hfuel).
  exists fuel. intros fuel' Hle.
  destruct (Hfuel fuel' Hle) as (st' & count & Hloop & _).
  exists st', count. unfold meshSimplify. split; [done|].
  destruct (init_queue_all_live st Hq Hlive) as (Hq1 & Hlen & Hall).
  assert (sim_edgeQueue (init_queue st) <> []) as Hne1.
  { rewrite Hq1. intros Hnil. rewrite Hnil in Hlen. cbn [length] in Hlen.
    destruct (Mesh.edges (sim_mesh st)); [done|discriminate Hlen]. }
  pose proof (simplify_round_collapses (originalVertexCount / 100) (init_queue st) 0
                Hne1 Hq1 Hall) as Hround.
  destruct fuel' as [|fuel']; [done|]. cbn [simplify_loop] in Hloop.
  destruct (simplify_round (originalVertexCount / 100) (init_queue st) 0)
    as [st1 c1|st1 c1]; subst c1.
  - injection Hloop as _ <-. lia.
  - by destruct (simplify_loop_quiet _ _ _ _ _ _ Hloop) as [? _].
Qed.

Lemma render_fold (vs : list Vertex.t) fs buf :
  let r := fold_left (render_face vs) fs buf in
  r_verticesVec4 r
  = r_verticesVec4 buf
    ++ ((fun i => glm.vec4_of (Vertex.position (vs !!! i)) F32.one) <$> render_indices fs)
  /\ r_colors r = r_colors buf ++ ((fun i => Vertex.color (vs !!! i)) <$> render_indices fs)
  /\ r_uvs r = r_uvs buf ++ ((fun i => Vertex.texCoord (vs !!! i)) <$> render_indices fs).
Proof.
  unfold render_indices, live_faces. revert buf.
  induction fs as [|f fs IH]; intros buf; cbv zeta.
  - cbn [fold_left]. by rewrite !app_nil_r.
  - cbn [fold_left]. destruct (IH (render_face vs buf f)) as (H1 & H2 & H3).
    rewrite H1, H2, H3. unfold render_face. destruct (Face.isDeleted f) eqn:Hd.
    + by rewrite filter_cons_False by (by rewrite Hd).
    + rewrite filter_cons_True by done.
      cbn [r_verticesVec4 r_colors r_uvs]. rewrite fmap_cons, concat_cons, !fmap_app.
      by rewrite <- !app_assoc.
Qed.

Lemma render_indices_length fs : length (render_indices fs) = 3 * length (live_faces fs).
Proof.
  unfold render_indices. induction (live_faces fs) as [|f l IH]; [done|].
  rewrite fmap_cons, concat_cons, length_app, IH. simpl. lia.
Qed.

(** X23.  [updateRenderData] emits the three corners of every live face,
    in face order, and nothing for a tombstoned face: the three buffers are
    aligned (entry [k] of each comes from the same vertex) and the returned
    count is three times the number of live faces. *)
Theorem updateRenderData_buffers m :
  let vs := Mesh.vertices m in
  let idxs := render_indices (Mesh.faces m) in
  let '(buf, n) := updateRenderData m in
  r_verticesVec4 buf
  = (fun i => glm.vec4_of (Vertex.position (vs !!! i)) F32.one) <$> idxs
  /\ r_colors buf = (fun i => Vertex.color (vs !!! i)) <$> idxs
  /\ r_uvs buf = (fun i => Vertex.texCoord (vs !!! i)) <$> idxs
  /\ n = 3 * length (live_faces (Mesh.faces m)).
Proof.
  unfold updateRenderData. cbv zeta.
  destruct (render_fold (Mesh.vertices m) (Mesh.faces m) (MkRenderData [] [] []))
    as (H1 & H2 & H3).
  cbn [r_verticesVec4 r_colors r_uvs app] in H1, H2, H3.
  split; [done|]. split; [done|]. split; [done|].
  by rewrite H1, length_fmap, render_indices_length.
Qed.

(** X24.  On a well-formed mesh [updateRenderData] reads live vertices
    only: every index it looks up is inside the vertex vector and the
    vertex there is not tombstoned. *)
Theorem updateRenderData_reads_live_vertices m :
  mesh_ok m ->
  exists idxs,
    Forall (live_vertex (Mesh.vertices m)) idxs
    /\ r_verticesVec4 (updateRenderData m).1
       = (fun i => glm.vec4_of (Vertex.position (Mesh.vertices m !!! i)) F32.one)
           <$> idxs
    /\ r_colors (updateRenderData m).1
       = (fun i => Vertex.color (Mesh.vertices m !!! i)) <$> idxs
    /\ r_uvs (updateRenderData m).1
       = (fun i => Vertex.texCoord (Mesh.vertices m !!! i)) <$> idxs.
Proof.
  intros [Hfaces _]. exists (render_indices (Mesh.faces m)).
  destruct (render_fold (Mesh.vertices m) (Mesh.faces m) (MkRenderData [] [] []))
    as (H1 & H2 & H3).
  cbn [r_verticesVec4 r_colors r_uvs app] in H1, H2, H3.
  split; [|done]. unfold render_indices, live_faces.
  apply Forall_concat, Forall_fmap, Forall_forall. intros f Hf.
  apply list_elem_of_filter in Hf as [Hd Hin].
  rewrite Forall_forall in Hfaces. destruct (Hfaces f Hin Hd) as (_ & _ & _ & ? & ? & ?).
  by repeat constructor.
Qed.

Lemma filter_flags_length {A} (flag : A -> bool) (l : list A) :
  length (filter (fun x => flag x = false) l)
  = length (filter (fun b : bool => b = false) (flag <$> l)).
Proof.
  induction l as [|x l IH]; [done|]. rewrite fmap_cons.
  destruct (flag x) eqn:Hx.
  - by rewrite !filter_cons_False by (by rewrite ?Hx).
  - rewrite !filter_cons_True by done. cbn [length]. by rewrite IH.
Qed.

Lemma updateRenderData_count m :
  (updateRenderData m).2 = 3 * length (live_faces (Mesh.faces m)).
Proof.
  unfold updateRenderData. cbn [snd].
  destruct (render_fold (Mesh.vertices m) (Mesh.faces m) (MkRenderData [] [] []))
    as (H1 & _). cbn [r_verticesVec4 app] in H1.
  by rewrite H1, length_fmap, render_indices_length.
Qed.

Lemma flags_grow_live_count bs bs' :
  flags_grow bs bs' ->
  length (filter (fun b : bool => b = false) bs')
  <= length (filter (fun b : bool => b = false) bs).
Proof.
  induction 1 as [|b b' bs bs' Hb _ IH]; [done|].
  destruct b'.
  - rewrite (filter_cons_False _ true) by done.
    destruct b; [by rewrite filter_cons_False by done|].
    rewrite filter_cons_True by done. cbn [length]. lia.
  - destruct b; [by specialize (Hb eq_refl)|].
    rewrite !filter_cons_True by done. cbn [length]. lia.
Qed.

(** X25.  How a collapse shows in the render buffers: after the collapse
    of a live edge [(v1, v2)] of a well-formed mesh, [updateRenderData]
    returns three times the number of faces that were live and do not have
    both [v1] and [v2] as corners; the count never grows. *)
Theorem updateRenderData_after_collapse m edgeIndex :
  mesh_ok m -> live_edge m edgeIndex ->
  let v1 := Edge.v1 (Mesh.edges m !!! edgeIndex) in
  let v2 := Edge.v2 (Mesh.edges m !!! edgeIndex) in
  let m' := edgeCollapse m edgeIndex in
  (updateRenderData m').2
  = 3 * length (filter (fun f => Face.isDeleted f || (face_has f v1 && face_has f v2)
                                 = false) (Mesh.faces m))
  /\ (updateRenderData m').2 <= (updateRenderData m).2.
Proof.
  intros Hok Hlive v1 v2 m'. subst m'. rewrite !updateRenderData_count.
  unfold live_faces. rewrite !(filter_flags_length Face.isDeleted). split.
  - rewrite (edgeCollapse_face_flags m edgeIndex Hok Hlive). fold v1 v2.
    by rewrite (filter_flags_length
                  (fun f => Face.isDeleted f || (face_has f v1 && face_has f v2))).
  - destruct (edgeCollapse_grow m edgeIndex) as (_ & _ & Hgrow).
    pose proof (flags_grow_live_count _ _ Hgrow). lia.
Qed.

(* ===================================================================== *)
(** ** Further properties: what a collapse writes                         *)
(* ===================================================================== *)

Lemma collapse_face_corners v1 v2 f :
  let f' := collapse_face v1 v2 f in
  (Face.v1 f', Face.v2 f', Face.v3 f')
  = (if Face.isDeleted f then (Face.v1 f, Face.v2 f, Face.v3 f)
     else (remap v1 v2 (Face.v1 f), remap v1 v2 (Face.v2 f), remap v1 v2 (Face.v3 f))).
Proof.
  cbv zeta. unfold collapse_face, remap. destruct f as [a b c n p d].
  cbn [Face.isDeleted Face.v1 Face.v2 Face.v3]. destruct d; [done|].
  destruct (decide (a = v2));
    cbn [Face.v1 Face.v2 Face.v3 Face.set_v1 Face.set_v2 Face.set_v3];
    destruct (decide (b = v2));
    cbn [Face.v1 Face.v2 Face.v3 Face.set_v1 Face.set_v2 Face.set_v3];
    destruct (decide (c = v2));
    cbn [Face.v1 Face.v2 Face.v3 Face.set_v1 Face.set_v2 Face.set_v3];
    by destruct (_ || _).
Qed.

Lemma collapse_edge_endpoints v1 v2 e :
  let e' := (collapse_edge v1 v2 e).1 in
  (Edge.v1 e', Edge.v2 e')
  = (if Edge.isDeleted e then (Edge.v1 e, Edge.v2 e)
     else (remap v1 v2 (Edge.v1 e), remap v1 v2 (Edge.v2 e))).
Proof.
  cbv zeta. unfold collapse_edge, remap. destruct e as [a b c p bd dirty d].
  cbn [Edge.isDeleted Edge.v1 Edge.v2]. destruct d; [done|].
  destruct (decide (a = v2)); cbn [Edge.v1 Edge.v2 Edge.set_v1 Edge.set_v2];
    destruct (decide (b = v2)); cbn [Edge.v1 Edge.v2 Edge.set_v1 Edge.set_v2];
    by case_decide.
Qed.

(** X26.  The index rewrite of a collapse: in every live face and in
    every other live edge each occurrence of [v2] becomes [v1] and nothing
    else changes; records that were tombstoned before the call keep their
    indices, and so does the collapsed edge itself (its [v1] is what the
    scheduler reads after the call). *)
Theorem edgeCollapse_rewrites_indices m edgeIndex :
  let v1 := Edge.v1 (Mesh.edges m !!! edgeIndex) in
  let v2 := Edge.v2 (Mesh.edges m !!! edgeIndex) in
  let m' := edgeCollapse m edgeIndex in
  (fun f => (Face.v1 f, Face.v2 f, Face.v3 f)) <$> Mesh.faces m'
  = (fun f => if Face.isDeleted f then (Face.v1 f, Face.v2 f, Face.v3 f)
              else (remap v1 v2 (Face.v1 f), remap v1 v2 (Face.v2 f),
                    remap v1 v2 (Face.v3 f))) <$> Mesh.faces m
  /\ forall k e, Mesh.edges m !! k = Some e ->
       exists e', Mesh.edges m' !! k = Some e'
         /\ (Edge.v1 e', Edge.v2 e')
            = (if Edge.isDeleted e || bool_decide (k = edgeIndex)
               then (Edge.v1 e, Edge.v2 e)
               else (remap v1 v2 (Edge.v1 e), remap v1 v2 (Edge.v2 e))).
Proof.
  intros v1 v2 m'. subst m'. split.
  - rewrite edgeCollapse_faces. fold v1 v2. rewrite <- list_fmap_compose.
    apply list_fmap_ext. intros ? f _. apply (collapse_face_corners v1 v2 f).
  - intros k e He.
    pose proof (edgeCollapse_edges m edgeIndex) as Hedges. cbv zeta in Hedges.
    fold v1 v2 in Hedges.
    assert (edge_pairs (Mesh.edges (edgeCollapse m edgeIndex))
            = (fun e => (Edge.v1 (collapse_edge v1 v2 e).1,
                         Edge.v2 (collapse_edge v1 v2 e).1))
                <$> alter (Edge.set_isDeleted true) edgeIndex (Mesh.edges m)) as Hpairs.
    { unfold edge_pairs. rewrite Hedges.
      rewrite (recompute_costs_frame (fun e => (Edge.v1 e, Edge.v2 e)))
        by (intros e0; by rewrite computeCost_v1, computeCost_v2).
      by rewrite collapse_edges_fst, <- list_fmap_compose. }
    assert (edge_pairs (Mesh.edges (edgeCollapse m edgeIndex)) !! k
            = Some (if Edge.isDeleted e || bool_decide (k = edgeIndex)
                    then (Edge.v1 e, Edge.v2 e)
                    else (remap v1 v2 (Edge.v1 e), remap v1 v2 (Edge.v2 e)))) as Hk.
    { rewrite Hpairs, list_lookup_fmap. case_bool_decide as Hki.
      - subst k. rewrite list_lookup_alter_eq, He. cbn [fmap option_fmap option_map].
        rewrite orb_true_r.
        exact (f_equal Some (collapse_edge_endpoints v1 v2 (Edge.set_isDeleted true e))).
      - rewrite list_lookup_alter_ne, He by done. cbn [fmap option_fmap option_map].
        rewrite orb_false_r.
        exact (f_equal Some (collapse_edge_endpoints v1 v2 e)). }
    unfold edge_pairs in Hk. rewrite list_lookup_fmap in Hk.
    destruct (Mesh.edges (edgeCollapse m edgeIndex) !! k) as [e'|]; [|done].
    exists e'. split; [done|]. by injection Hk.
Qed.

Lemma edgeCollapse_vertices_alter m ei :
  let edge := Mesh.edges m !!! ei in
  exists q uv col,
    Mesh.vertices (edgeCollapse m ei)
    = alter (Vertex.set_color col) (Edge.v1 edge)
        (alter (Vertex.set_texCoord uv) (Edge.v1 edge)
           (alter (Vertex.set_quadric q) (Edge.v1 edge) (collapse_vertices m ei))).
Proof.
  cbv zeta. pose proof (edgeCollapse_vertices m ei) as H. cbv zeta in H.
  rewrite H. do 3 eexists. do 2 f_equal. apply computeQuadric_alter.
Qed.

(** X27.  A collapse writes two vertex records and no other: every
    vertex but [v1] and [v2] is left exactly as it was, and [v2] (when it
    differs from [v1]) only gets the new position and its tombstone. *)
Theorem edgeCollapse_writes_two_vertices m edgeIndex :
  let edge := Mesh.edges m !!! edgeIndex in
  let vs' := Mesh.vertices (edgeCollapse m edgeIndex) in
  (forall j, j <> Edge.v1 edge -> j <> Edge.v2 edge -> vs' !! j = Mesh.vertices m !! j)
  /\ (Edge.v1 edge <> Edge.v2 edge ->
      vs' !! Edge.v2 edge
      = (fun v => Vertex.set_isDeleted true
                    (Vertex.set_position (Edge.optimalPosition edge) v))
          <$> Mesh.vertices m !! Edge.v2 edge).
Proof.
  intros edge vs'. subst vs'.
  destruct (edgeCollapse_vertices_alter m edgeIndex) as (q & uv & col & ->).
  fold edge. unfold collapse_vertices. fold edge. split.
  - intros j H1 H2. by rewrite !list_lookup_alter_ne by done.
  - intros Hne. rewrite !(list_lookup_alter_ne _ _ (Edge.v1 edge)) by done.
    rewrite !list_lookup_alter_eq, list_lookup_alter_ne by done.
    by destruct (Mesh.vertices m !! Edge.v2 edge).
Qed.

Lemma collapse_face_untouched v1 v2 f :
  Face.v1 f <> Face.v2 f -> Face.v2 f <> Face.v3 f -> Face.v3 f <> Face.v1 f ->
  face_has f v2 = false -> collapse_face v1 v2 f = f.
Proof.
  intros H12 H23 H31 Hhas. unfold collapse_face, face_has in *.
  destruct (Face.isDeleted f); [done|].
  apply orb_false_iff in Hhas as [Hhas H3]. apply orb_false_iff in Hhas as [H1 H2].
  apply bool_decide_eq_false in H1, H2, H3. cbv zeta.
  rewrite (decide_False (P := Face.v1 f = v2)) by done.
  rewrite (decide_False (P := Face.v2 f = v2)) by done.
  rewrite (decide_False (P := Face.v3 f = v2)) by done.
  by rewrite !bool_decide_false by done.
Qed.

Lemma collapse_edge_untouched v1 v2 e :
  Edge.isDeleted e = true
  \/ (Edge.v1 e <> Edge.v2 e /\ Edge.v1 e <> v1 /\ Edge.v1 e <> v2
      /\ Edge.v2 e <> v1 /\ Edge.v2 e <> v2) ->
  collapse_edge v1 v2 e = (e, false).
Proof.
  unfold collapse_edge. intros [->|(H12 & H11 & H1 & H21 & H2)]; [done|].
  destruct (Edge.isDeleted e); [done|]. cbv zeta.
  rewrite (decide_False (P := Edge.v1 e = v2)) by done.
  rewrite (decide_False (P := Edge.v2 e = v2)) by done.
  rewrite (decide_False (P := Edge.v1 e = Edge.v2 e)) by done.
  by rewrite !bool_decide_false by done.
Qed.

(** X28.  A collapse leaves the rest of the mesh alone: a face of a
    well-formed mesh without the corner [v2] keeps its whole record, and so
    does every edge other than the collapsed one that was tombstoned before
    or touches neither [v1] nor [v2] (its cost and position are not
    recomputed). *)
Theorem edgeCollapse_leaves_the_rest m edgeIndex :
  mesh_ok m -> live_edge m edgeIndex ->
  let v1 := Edge.v1 (Mesh.edges m !!! edgeIndex) in
  let v2 := Edge.v2 (Mesh.edges m !!! edgeIndex) in
  let m' := edgeCollapse m edgeIndex in
  (forall k f, Mesh.faces m !! k = Some f -> face_has f v2 = false ->
               Mesh.faces m' !! k = Some f)
  /\ (forall k e, Mesh.edges m !! k = Some e -> k <> edgeIndex ->
        Edge.isDeleted e = true
        \/ (Edge.v1 e <> v1 /\ Edge.v1 e <> v2 /\ Edge.v2 e <> v1 /\ Edge.v2 e <> v2) ->
        Mesh.edges m' !! k = Some e).
Proof.
  intros [Hfaces Hedges] Hlive v1 v2 m'. subst m'. split.
  - intros k f Hf Hhas. rewrite edgeCollapse_faces. fold v1 v2.
    rewrite list_lookup_fmap, Hf. cbn [fmap option_fmap option_map]. f_equal.
    destruct (Face.isDeleted f) eqn:Hd.
    + unfold collapse_face. by rewrite Hd.
    + eapply Forall_lookup_1 in Hf; [|exact Hfaces].
      destruct (Hf Hd) as (? & ? & ? & _). by apply collapse_face_untouched.
  - intros k e He Hk Hcase.
    assert (collapse_edge v1 v2 e = (e, false)) as Hce.
    { apply collapse_edge_untouched. destruct Hcase as [?|(? & ? & ? & ?)]; [by left|].
      destruct (Edge.isDeleted e) eqn:Hd; [by left|]. right.
      eapply Forall_lookup_1 in He; [|exact Hedges]. destruct (He Hd) as (? & _). done. }
    pose proof (edgeCollapse_edges m edgeIndex) as H. cbv zeta in H. fold v1 v2 in H.
    rewrite H, recompute_costs_lookup, collapse_edges_fst, list_lookup_fmap,
      list_lookup_alter_ne, He by done.
    cbn [fmap option_fmap option_map]. rewrite Hce. cbn [fst]. f_equal.
    rewrite bool_decide_false; [done|].
    intros Hin. apply collapse_edges_snd in Hin as (k' & e' & Hkk & He' & Hhit).
    cbn [plus] in Hkk. subst k'. rewrite list_lookup_alter_ne, He in He' by done.
    injection He' as <-. by rewrite Hce in Hhit.
Qed.

(* ===================================================================== *)
(** ** Further properties: quadrics are symmetric                         *)
(* ===================================================================== *)

Lemma mul_comm x y : F32.mul x y = F32.mul y x.
Proof.
  unfold F32.mul.
  destruct x as [sx|sx| |sx mx ex], y as [sy|sy| |sy my ey]; try reflexivity;
    try (cbn [SFmul]; by rewrite (xorb_comm sx sy)).
  unfold SFmul. by rewrite (xorb_comm sx sy), (Pos.mul_comm mx my), (Z.add_comm ex ey).
Qed.

Lemma mat4_zero_symmetric : mat4_symmetric glm.mat4_zero.
Proof. by repeat split. Qed.

Lemma face_Kp_symmetric f : mat4_symmetric (face_Kp f).
Proof.
  unfold face_Kp, glm.outerProduct, glm.vec4_scale, mat4_symmetric.
  cbn [x4 y4 z4 w4 col0 col1 col2 col3]. repeat split; apply mul_comm.
Qed.

Lemma mat4_add_symmetric a b :
  mat4_symmetric a -> mat4_symmetric b -> mat4_symmetric (glm.mat4_add a b).
Proof.
  unfold mat4_symmetric, glm.mat4_add, glm.vec4_add.
  cbn [x4 y4 z4 w4 col0 col1 col2 col3].
  intros (? & ? & ? & ? & ? & ?) (? & ? & ? & ? & ? & ?). repeat split; congruence.
Qed.

Lemma quadric_sum_symmetric i fs q :
  mat4_symmetric q -> mat4_symmetric (quadric_sum i fs q).
Proof.
  unfold quadric_sum. revert q. induction fs as [|f fs IH]; intros q Hq; simpl; [done|].
  destruct (Face.isDeleted f); [by apply IH|]. destruct (face_has f i); [|by apply IH].
  apply IH. apply mat4_add_symmetric; [done|apply face_Kp_symmetric].
Qed.

Lemma add_quadric_symmetric f vs (i : nat) :
  quadrics_symmetric vs -> quadrics_symmetric (alter (add_quadric (face_Kp f)) i vs).
Proof.
  intros H. apply Forall_alter; [done|]. intros v _ Hv.
  apply mat4_add_symmetric; [done|apply face_Kp_symmetric].
Qed.

Lemma computeAllQuadrics_symmetric vs fs : quadrics_symmetric (computeAllQuadrics vs fs).
Proof.
  unfold computeAllQuadrics. apply (fold_left_preserves quadrics_symmetric).
  - apply Forall_fmap, Forall_true. intros v. apply mat4_zero_symmetric.
  - intros vs' f Hvs. destruct (Face.isDeleted f); [done|].
    by repeat apply add_quadric_symmetric.
Qed.

Lemma edgeCollapse_symmetric m ei :
  quadrics_symmetric (Mesh.vertices m) ->
  quadrics_symmetric (Mesh.vertices (edgeCollapse m ei)).
Proof.
  intros H. pose proof (edgeCollapse_vertices m ei) as Hvs. cbv zeta in Hvs.
  rewrite Hvs. unfold quadrics_symmetric.
  do 2 (apply Forall_alter; [|by intros v _ Hv]).
  unfold collapse_quadrics. rewrite computeQuadric_alter. apply Forall_alter.
  - unfold collapse_vertices. by do 3 (apply Forall_alter; [|by intros v _ Hv]).
  - intros v _ _. apply quadric_sum_symmetric, mat4_zero_symmetric.
Qed.

Lemma simplify_round_symmetric budget st count :
  quadrics_symmetric (Mesh.vertices (sim_mesh st)) ->
  quadrics_symmetric
    (Mesh.vertices (sim_mesh (round_state (simplify_round budget st count)))).
Proof.
  intros H. unfold simplify_round.
  destruct (pq_pop _) as [[edge queue]|]; [|done].
  destruct (find_edge_from _ _ _ _) as [edgeIndex|]; [|done].
  destruct (Edge.isDeleted _); [done|]. destruct (Edge.isDirty _); [done|].
  case_decide; cbn [round_state]; rewrite mark_dirty_vertices;
    by apply edgeCollapse_symmetric.
Qed.

Lemma simplify_loop_symmetric fuel budget st count st' count' :
  quadrics_symmetric (Mesh.vertices (sim_mesh st)) ->
  simplify_loop fuel budget st count = Some (st', count') ->
  quadrics_symmetric (Mesh.vertices (sim_mesh st')).
Proof.
  revert st count. induction fuel as [|fuel IH]; intros st count H; simpl; [done|].
  pose proof (simplify_round_symmetric budget st count H) as Hr.
  destruct (simplify_round budget st count) as [st1 c1|st1 c1]; cbn [round_state] in Hr.
  - by intros [= <- _].
  - by apply IH.
Qed.

(** X29.  In every reachable mesh state every vertex quadric is a
    symmetric 4x4 matrix, entry for entry in binary32: sums of outer
    products [p * p^T] of face planes, starting from zero. *)
Theorem reachable_quadrics_symmetric m :
  reachable m -> Forall (fun v => mat4_symmetric (Vertex.quadric v)) (Mesh.vertices m).
Proof.
  fold (quadrics_symmetric (Mesh.vertices m)).
  induction 1 as [n vs uvs ns _ _ _|m _ IH|m i dirty _ IH|m i dirty _ IH|m ei Hm IH Hlive
                  |fuel n st st' count Hst IH Hcall].
  - rewrite buildMesh_vertices.
    destruct (weld_loop_facts n vs uvs ns n (le_n _)) as [Hcopies _ _ _ _].
    eapply Forall_impl; [exact Hcopies|]. intros v (k & _ & ->).
    apply mat4_zero_symmetric.
  - apply computeAllQuadrics_symmetric.
  - exact IH.
  - exact IH.
  - by apply edgeCollapse_symmetric.
  - unfold meshSimplify in Hcall. eapply simplify_loop_symmetric; [|exact Hcall].
    by rewrite init_queue_vertices.
Qed.

End Program.

(* ===================================================================== *)
(** ** The checker is sound                                               *)
(* ===================================================================== *)

Lemma live_vertexb_sound vs i : live_vertexb vs i = true -> live_vertex vs i.
Proof.
  unfold live_vertexb, live_vertex. destruct (vs !! i) as [v|]; [|done].
  simpl. by destruct (Vertex.isDeleted v).
Qed.

Lemma forallb_Forall {A} (p : A -> bool) (P : A -> Prop) (l : list A) :
  (forall x, p x = true -> P x) -> forallb p l = true -> Forall P l.
Proof.
  intros Hp. induction l as [|x l IH]; simpl; [constructor|].
  intros [Hx Hl]%andb_true_iff. constructor; auto.
Qed.

Lemma mesh_okb_sound m : mesh_okb m = true -> mesh_ok m.
Proof.
  unfold mesh_okb, mesh_ok. intros [Hf He]%andb_true_iff. split.
  - eapply forallb_Forall; [|exact Hf]. intros f Hok Hdel. unfold face_okb in Hok.
    rewrite Hdel in Hok. simpl in Hok.
    repeat (apply andb_true_iff in Hok as [Hok ?]).
    repeat match goal with H : negb (_ =? _) = true |- _ =>
      apply negb_true_iff, Nat.eqb_neq in H end.
    auto 10 using live_vertexb_sound.
  - eapply forallb_Forall; [|exact He]. intros e Hok Hdel. unfold edge_okb in Hok.
    rewrite Hdel in Hok. simpl in Hok.
    repeat (apply andb_true_iff in Hok as [Hok ?]).
    apply negb_true_iff, Nat.eqb_neq in Hok.
    auto using live_vertexb_sound.
Qed.

(* ===================================================================== *)
(** ** The claims at concrete inputs                                      *)
(* ===================================================================== *)

Lemma square_with_costs_ok glm_inverse uninit_vec4 uninit_vec3 :
  mesh_ok (square_with_costs glm_inverse uninit_vec4 uninit_vec3)
  /\ live_edge (square_with_costs glm_inverse uninit_vec4 uninit_vec3) 0.
Proof. split; [apply mesh_okb_sound|]; vm_compute; reflexivity. Qed.

Lemma square_before_second_collapse_ok glm_inverse uninit_vec4 uninit_vec3 :
  mesh_ok (square_before_second_collapse glm_inverse uninit_vec4 uninit_vec3)
  /\ live_edge (square_before_second_collapse glm_inverse uninit_vec4 uninit_vec3) 3.
Proof. split; [apply mesh_okb_sound|]; vm_compute; reflexivity. Qed.

(** The first collapse on the square, for all values of the parameters:
    edge 0 joins vertices 0 and 1; afterwards edges 1 and 2 both join
    vertices 0 and 2. *)
Lemma square_first_collapse_keys glm_inverse uninit_vec4 uninit_vec3 :
  live_edge_keys
    (Mesh.edges (edgeCollapse glm_inverse uninit_vec4
                   (square_with_costs glm_inverse uninit_vec4 uninit_vec3) 0))
  = [(0, 2); (0, 2); (2, 3); (0, 3)].
Proof. vm_compute. reflexivity. Qed.

(** The first call of [meshSimplify] on the square, for all values of the
    parameters: one collapse although the budget [4 / 100] is [0]. *)
Lemma square_first_call glm_inverse uninit_vec4 uninit_vec3 :
  snd <$> meshSimplify glm_inverse uninit_vec4 100 4 (square_sim uninit_vec3) = Some 1
  /\ Mesh.deletedVertices
       (sim_mesh (after_call glm_inverse uninit_vec4 100 4 (square_sim uninit_vec3))) = 1
  /\ live_edge_keys
       (Mesh.edges
          (sim_mesh (after_call glm_inverse uninit_vec4 100 4 (square_sim uninit_vec3))))
     = [(0, 2); (0, 2); (2, 3); (0, 3)].
Proof. vm_compute. repeat split. Qed.

(** The second collapse on the square, for all values of the parameters:
    edge 2 is live, ends at the surviving vertex and is still dirty. *)
Lemma square_second_collapse_dirty glm_inverse uninit_vec4 uninit_vec3 :
  let m := square_before_second_collapse glm_inverse uninit_vec4 uninit_vec3 in
  let m' := edgeCollapse glm_inverse uninit_vec4 m 3 in
  Edge.isDeleted <$> Mesh.edges m' !! 2 = Some false
  /\ Edge.v2 <$> Mesh.edges m' !! 2 = Some (Edge.v1 (Mesh.edges m !!! 3))
  /\ Edge.isDirty <$> Mesh.edges m' !! 2 = Some true.
Proof. vm_compute. repeat split. Qed.

(** C1 at the square: built, given quadrics, run through one call of
    [meshSimplify] (one collapse), then collapsed along the live edge 3. *)
Lemma reachable_faces_edges_well_formed_witness :
  let m1 := sim_mesh (after_call unused_inverse zero4 100 4 (square_sim zero3)) in
  let m := edgeCollapse unused_inverse zero4 m1 3 in
  (reachable unused_inverse zero4 zero3 m1 /\ live_edge m1 3)
  /\ reachable unused_inverse zero4 zero3 m
  /\ Forall (face_ok (Mesh.vertices m)) (Mesh.faces m)
  /\ Forall (edge_ok (Mesh.vertices m)) (Mesh.edges m).
Proof.
  cbv zeta.
  assert (reachable unused_inverse zero4 zero3
            (sim_mesh (after_call unused_inverse zero4 100 4 (square_sim zero3)))) as H1
    by apply after_call_reachable, square_mesh_reachable.
  assert (live_edge
            (sim_mesh (after_call unused_inverse zero4 100 4 (square_sim zero3))) 3) as H3
    by (vm_compute; reflexivity).
  pose proof (reach_collapse unused_inverse zero4 zero3 _ 3 H1 H3) as H.
  split; [by split|]. split; [exact H|].
  exact (reachable_faces_edges_well_formed unused_inverse zero4 zero3 _ H).
Defined.

(** C2 (the code against the claim).  The square as the scheduler first
    collapses it: before the collapse the live edges are pairwise
    distinct; collapsing the live edge 0 = (0,1) of triangle (0,1,2) leaves
    two live copies of the edge between vertices 0 and 2, both as the
    result of [edgeCollapse] and as the state the call of [meshSimplify]
    ends in. *)
Theorem collapse_leaves_duplicate_edges :
  let m := square_with_costs unused_inverse zero4 zero3 in
  reachable unused_inverse zero4 zero3 m /\ live_edge m 0
  /\ reachable unused_inverse zero4 zero3
       (sim_mesh (after_call unused_inverse zero4 100 4 (square_sim zero3)))
  /\ NoDup (live_edge_keys (Mesh.edges m))
  /\ live_edge_keys (Mesh.edges (edgeCollapse unused_inverse zero4 m 0))
     = [(0, 2); (0, 2); (2, 3); (0, 3)]
  /\ live_edge_keys
       (Mesh.edges (sim_mesh (after_call unused_inverse zero4 100 4 (square_sim zero3))))
     = [(0, 2); (0, 2); (2, 3); (0, 3)].
Proof.
  cbv zeta. split; [apply square_with_costs_reachable|].
  split; [apply square_with_costs_ok|].
  split; [apply after_call_reachable, square_mesh_reachable|].
  split; [|split].
  - apply (bool_decide_unpack _). vm_compute. exact I.
  - apply square_first_collapse_keys.
  - apply square_first_call.
Qed.

(** C3 at the floating segment from (0,0,0) to (2,0,0). *)
Lemma computeCost_zero_quadrics_picks_first_endpoint_witness :
  (Edge.v1 segment_edge < length segment_vertices
   /\ Edge.v2 segment_edge < length segment_vertices
   /\ Vertex.quadric (segment_vertices !!! Edge.v1 segment_edge) = glm.mat4_zero
   /\ Vertex.quadric (segment_vertices !!! Edge.v2 segment_edge) = glm.mat4_zero
   /\ finite_vec3 (Vertex.position (segment_vertices !!! Edge.v1 segment_edge)))
  /\ Edge.optimalPosition (computeCost unused_inverse zero4 segment_edge segment_vertices)
     = Vertex.position (segment_vertices !!! Edge.v1 segment_edge)
  /\ Edge.cost (computeCost unused_inverse zero4 segment_edge segment_vertices) = F32.zero.
Proof.
  split.
  - repeat split; simpl; try lia; reflexivity.
  - apply (computeCost_zero_quadrics_picks_first_endpoint unused_inverse zero4
             segment_edge segment_vertices).
    + simpl; lia.
    + simpl; lia.
    + reflexivity.
    + reflexivity.
    + repeat split; reflexivity.
Defined.

(** C3 as stated fails at the floating segment: both quadrics are zero,
    and the solver stores (0,0,0), the first endpoint, while the midpoint
    of the two endpoints is (1,0,0). *)
Lemma computeCost_zero_quadrics_not_midpoint :
  let p1 := Vertex.position (segment_vertices !!! Edge.v1 segment_edge) in
  let p2 := Vertex.position (segment_vertices !!! Edge.v2 segment_edge) in
  Vertex.quadric (segment_vertices !!! Edge.v1 segment_edge) = glm.mat4_zero
  /\ Vertex.quadric (segment_vertices !!! Edge.v2 segment_edge) = glm.mat4_zero
  /\ Edge.optimalPosition (computeCost unused_inverse zero4 segment_edge segment_vertices)
     = Vec3 F32.zero F32.zero F32.zero
  /\ glm.vec3_scale (glm.vec3_add p1 p2) F32.half = Vec3 F32.one F32.zero F32.zero
  /\ Edge.optimalPosition (computeCost unused_inverse zero4 segment_edge segment_vertices)
     <> glm.vec3_scale (glm.vec3_add p1 p2) F32.half.
Proof. vm_compute. repeat split. discriminate. Qed.

(** C4 as stated fails at the square: it has 4 vertices, so the budget is
    [4 / 100 = 0]; one call of [meshSimplify] still performs one collapse
    and tombstones a vertex. *)
Lemma meshSimplify_budget_zero_collapses :
  length (Mesh.vertices (square_mesh zero3)) = 4
  /\ 4 / 100 = 0
  /\ snd <$> meshSimplify unused_inverse zero4 100 4 (square_sim zero3) = Some 1
  /\ Mesh.deletedVertices (sim_mesh (square_sim zero3)) = 0
  /\ Mesh.deletedVertices
       (sim_mesh (after_call unused_inverse zero4 100 4 (square_sim zero3))) = 1.
Proof.
  split; [reflexivity|]. split; [reflexivity|].
  split; [apply square_first_call|]. split; [reflexivity|]. apply square_first_call.
Qed.

(** C5 (the code against the claim).  The first collapse on the square:
    edge 0 joins vertex 0 at (0,0,0), with texture coordinate (0,0), and
    vertex 1 at (1,0,0), with (1,0); its optimal position is (0,0,0).  The
    weight from the positions before the collapse is 0, which would keep
    (0,0); the code computes the weight after both positions are
    overwritten, gets the default 0.5 and stores (0.5, 0). *)
Theorem edgeCollapse_weight_ignores_positions :
  let m := square_with_costs unused_inverse zero4 zero3 in
  let edge := Mesh.edges m !!! 0 in
  let v1 := Mesh.vertices m !!! Edge.v1 edge in
  let v2 := Mesh.vertices m !!! Edge.v2 edge in
  let t_spec := spec_interpolation_weight (Vertex.position v1) (Vertex.position v2)
                  (Edge.optimalPosition edge) in
  let m' := edgeCollapse unused_inverse zero4 m 0 in
  reachable unused_inverse zero4 zero3 m /\ live_edge m 0
  /\ t_spec = F32.zero
  /\ glm.mix2 (Vertex.texCoord v1) (Vertex.texCoord v2) t_spec = Vec2 F32.zero F32.zero
  /\ interpolation_weight (collapse_quadrics m 0) (Edge.v1 edge) (Edge.v2 edge)
       (Edge.optimalPosition edge) = F32.half
  /\ Vertex.texCoord (Mesh.vertices m' !!! Edge.v1 edge) = Vec2 F32.half F32.zero.
Proof.
  cbv zeta. split; [apply square_with_costs_reachable|].
  split; [apply square_with_costs_ok|].
  vm_compute. repeat split.
Qed.

(** C6 at the built square, vertex 0. *)
Lemma computeAllQuadrics_matches_computeQuadric_witness :
  let m := buildMesh zero3 Mesh.empty 6 square_corners square_uvs square_normals in
  (mesh_ok m /\ live_vertex (Mesh.vertices m) 0)
  /\ Vertex.quadric (computeAllQuadrics (Mesh.vertices m) (Mesh.faces m) !!! 0)
     = Vertex.quadric (computeQuadric 0 (Mesh.vertices m) (Mesh.faces m) !!! 0).
Proof.
  cbv zeta.
  assert (mesh_ok (buildMesh zero3 Mesh.empty 6 square_corners square_uvs square_normals))
    as Hok by (apply mesh_okb_sound; vm_compute; reflexivity).
  assert (live_vertex
            (Mesh.vertices
               (buildMesh zero3 Mesh.empty 6 square_corners square_uvs square_normals)) 0)
    as Hlive by (vm_compute; reflexivity).
  split; [by split|].
  exact (computeAllQuadrics_matches_computeQuadric _ 0 Hok Hlive).
Defined.

(** C9 at the first collapse on the square. *)
Lemma edgeCollapse_refreshes_costs_keeps_dirty_witness :
  let m := square_with_costs unused_inverse zero4 zero3 in
  let m' := edgeCollapse unused_inverse zero4 m 0 in
  (mesh_ok m /\ live_edge m 0)
  /\ (forall i e, Mesh.edges m' !! i = Some e -> Edge.isDeleted e = false ->
                  Edge.v1 e = Edge.v1 (Mesh.edges m !!! 0)
                  \/ Edge.v2 e = Edge.v1 (Mesh.edges m !!! 0) ->
                  computeCost unused_inverse zero4 e (Mesh.vertices m') = e)
  /\ Edge.isDirty <$> Mesh.edges m' = Edge.isDirty <$> Mesh.edges m.
Proof.
  cbv zeta. split; [apply square_with_costs_ok|].
  apply (edgeCollapse_refreshes_costs_keeps_dirty unused_inverse zero4
           (square_with_costs unused_inverse zero4 zero3) 0);
    apply square_with_costs_ok.
Defined.

(** C9 as stated fails at the second collapse on the square: the mesh is
    a reachable state, well formed, and edge 3 = (2,3) is live; after its
    collapse edge 2 is live and ends at the surviving vertex 2, and its
    dirty flag is still set. *)
Lemma edgeCollapse_leaves_dirty_flag :
  let m := square_before_second_collapse unused_inverse zero4 zero3 in
  let m' := edgeCollapse unused_inverse zero4 m 3 in
  reachable unused_inverse zero4 zero3 m /\ mesh_ok m /\ live_edge m 3
  /\ Edge.isDeleted <$> Mesh.edges m' !! 2 = Some false
  /\ Edge.v2 <$> Mesh.edges m' !! 2 = Some (Edge.v1 (Mesh.edges m !!! 3))
  /\ Edge.isDirty <$> Mesh.edges m' !! 2 = Some true.
Proof.
  cbv zeta. split; [apply square_before_second_collapse_reachable|].
  split; [apply square_before_second_collapse_ok|].
  split; [apply square_before_second_collapse_ok|].
  apply square_second_collapse_dirty.
Qed.

(** C10 at the first collapse on the square. *)
Lemma edgeCollapse_moves_both_endpoints_witness :
  let m := square_with_costs unused_inverse zero4 zero3 in
  let edge := Mesh.edges m !!! 0 in
  let vs' := Mesh.vertices (edgeCollapse unused_inverse zero4 m 0) in
  (mesh_ok m /\ live_edge m 0)
  /\ Vertex.position (vs' !!! Edge.v1 edge) = Edge.optimalPosition edge
  /\ Vertex.position (vs' !!! Edge.v2 edge) = Edge.optimalPosition edge
  /\ Vertex.isDeleted (vs' !!! Edge.v2 edge) = true.
Proof.
  cbv zeta. split; [apply square_with_costs_ok|].
  apply (edgeCollapse_moves_both_endpoints unused_inverse zero4
           (square_with_costs unused_inverse zero4 zero3) 0);
    apply square_with_costs_ok.
Defined.

(* ===================================================================== *)
(** ** The further properties at concrete inputs                          *)
(* ===================================================================== *)

Lemma square_inputs_ok : inputs_ok 6 square_corners square_uvs square_normals.
Proof. unfold inputs_ok. repeat split; exact (le_n 6). Defined.

Lemma square_after_call_reachable :
  reachable unused_inverse zero4 zero3
    (sim_mesh (after_call unused_inverse zero4 100 4 (square_sim zero3))).
Proof. apply after_call_reachable, square_mesh_reachable. Qed.

(** X2 at the square after its first collapse: vertex 1 is tombstoned and
    the one face that had it is gone. *)
Lemma computeQuadric_isolated_vertex_witness :
  let m := sim_mesh (after_call unused_inverse zero4 100 4 (square_sim zero3)) in
  (1 < length (Mesh.vertices m)
   /\ Forall (fun f => Face.isDeleted f = false -> face_has f 1 = false) (Mesh.faces m))
  /\ Vertex.quadric (computeQuadric 1 (Mesh.vertices m) (Mesh.faces m) !!! 1)
     = glm.mat4_zero.
Proof.
  cbv zeta.
  assert (1 < length (Mesh.vertices
                        (sim_mesh (after_call unused_inverse zero4 100 4
                                     (square_sim zero3))))) as H1
    by (vm_compute; lia).
  assert (Forall (fun f => Face.isDeleted f = false -> face_has f 1 = false)
                 (Mesh.faces (sim_mesh (after_call unused_inverse zero4 100 4
                                          (square_sim zero3))))) as H2.
  { eapply (forallb_Forall (fun f => Face.isDeleted f || negb (face_has f 1))).
    - intros f Hf Hd. rewrite Hd in Hf. by apply negb_true_iff in Hf.
    - vm_compute. reflexivity. }
  split; [by split|]. exact (computeQuadric_isolated_vertex 1 _ _ H1 H2).
Defined.

(** X4 at the square with its costs, vertex 2. *)
Lemma initializeQuadrics_matches_computeAllQuadrics_witness :
  let m := square_with_costs unused_inverse zero4 zero3 in
  (mesh_ok m /\ 2 < length (Mesh.vertices m))
  /\ (let vs' := Mesh.vertices (initializeQuadrics m) in
      Vertex.quadric (vs' !!! 2)
      = (if Vertex.isDeleted (Mesh.vertices m !!! 2)
         then Vertex.quadric (Mesh.vertices m !!! 2)
         else Vertex.quadric
                (computeAllQuadrics (Mesh.vertices m) (Mesh.faces m) !!! 2))
      /\ Vertex.set_quadric glm.mat4_zero <$> vs'
         = Vertex.set_quadric glm.mat4_zero <$> Mesh.vertices m).
Proof.
  cbv zeta. destruct (square_with_costs_ok unused_inverse zero4 zero3) as [Hok _].
  assert (2 < length (Mesh.vertices (square_with_costs unused_inverse zero4 zero3)))
    as H2 by (vm_compute; lia).
  split; [by split|].
  exact (initializeQuadrics_matches_computeAllQuadrics _ 2 Hok H2).
Defined.

(** X6 at the sliver: the three corners lie on one line. *)
Lemma computeNormal_zero_area_witness :
  let pos1 := Vec3 F32.zero F32.zero F32.zero in
  let pos2 := Vec3 F32.one F32.zero F32.zero in
  let pos3 := Vec3 two F32.zero F32.zero in
  let c := glm.cross (glm.vec3_sub pos2 pos1) (glm.vec3_sub pos3 pos1) in
  (is_zero (x3 c) = true /\ is_zero (y3 c) = true /\ is_zero (z3 c) = true)
  /\ Face.computeNormal pos1 pos2 pos3 = (nan3, nan4).
Proof.
  cbv zeta. split; [by vm_compute|].
  apply (computeNormal_zero_area (Vec3 F32.zero F32.zero F32.zero)
           (Vec3 F32.one F32.zero F32.zero) (Vec3 two F32.zero F32.zero));
    vm_compute; reflexivity.
Defined.

(** X7 at the sliver after [buildMesh] and [computeAllQuadrics]: its one
    face has an all-NaN plane, so all three quadrics are NaN. *)
Lemma computeCost_nan_quadric_witness :
  let m := sliver_mesh zero3 in
  let edge := Mesh.edges m !!! 0 in
  (length (Mesh.faces m) = 1
   /\ (Vertex.quadric (Mesh.vertices m !!! Edge.v1 edge) = mat4_nan
       \/ Vertex.quadric (Mesh.vertices m !!! Edge.v2 edge) = mat4_nan))
  /\ computeCost unused_inverse zero4 edge (Mesh.vertices m)
     = Edge.set_cost F32.FLT_MAX
         (Edge.set_optimalPosition (glm.vec3_of zero4) edge).
Proof.
  cbv zeta.
  assert (Vertex.quadric (Mesh.vertices (sliver_mesh zero3)
                            !!! Edge.v1 (Mesh.edges (sliver_mesh zero3) !!! 0))
          = mat4_nan
          \/ Vertex.quadric (Mesh.vertices (sliver_mesh zero3)
                               !!! Edge.v2 (Mesh.edges (sliver_mesh zero3) !!! 0))
             = mat4_nan) as H by (left; vm_compute; reflexivity).
  split; [split; [by vm_compute|exact H]|].
  exact (computeCost_nan_quadric unused_inverse zero4 _ _ H).
Defined.

(** X8 at the floating segment (zero quadrics, zero determinant). *)
Lemma computeCost_singular_candidates_witness :
  let p1 := Vertex.position (segment_vertices !!! Edge.v1 segment_edge) in
  let p2 := Vertex.position (segment_vertices !!! Edge.v2 segment_edge) in
  let Q := glm.mat4_add (Vertex.quadric (segment_vertices !!! Edge.v1 segment_edge))
                        (Vertex.quadric (segment_vertices !!! Edge.v2 segment_edge)) in
  let r := computeCost unused_inverse zero4 segment_edge segment_vertices in
  F32.gtb (F32.abs (glm.determinant (constrain_last_row Q))) QEM_EPSILON = false
  /\ ((Edge.cost r = F32.FLT_MAX /\ Edge.optimalPosition r = glm.vec3_of zero4)
      \/ exists c, c ∈ [p1; p2; glm.vec3_scale (glm.vec3_add p1 p2) F32.half]
                   /\ Edge.optimalPosition r = c /\ Edge.cost r = candidate_cost Q c).
Proof.
  cbv zeta.
  assert (F32.gtb
            (F32.abs
               (glm.determinant
                  (constrain_last_row
                     (glm.mat4_add
                        (Vertex.quadric (segment_vertices !!! Edge.v1 segment_edge))
                        (Vertex.quadric (segment_vertices !!! Edge.v2 segment_edge))))))
            QEM_EPSILON = false) as H by (vm_compute; reflexivity).
  split; [exact H|].
  exact (computeCost_singular_candidates unused_inverse zero4 segment_edge
           segment_vertices H).
Defined.

(** X10 at the first collapse of the square. *)
Lemma edgeCollapse_tombstones_exactly_witness :
  let m := square_with_costs unused_inverse zero4 zero3 in
  let v1 := Edge.v1 (Mesh.edges m !!! 0) in
  let v2 := Edge.v2 (Mesh.edges m !!! 0) in
  let m' := edgeCollapse unused_inverse zero4 m 0 in
  (mesh_ok m /\ live_edge m 0)
  /\ Face.isDeleted <$> Mesh.faces m'
     = (fun f => Face.isDeleted f || (face_has f v1 && face_has f v2)) <$> Mesh.faces m
  /\ Edge.isDeleted <$> Mesh.edges m'
     = (fun e => Edge.isDeleted e || edge_joins e v1 v2) <$> Mesh.edges m
  /\ Vertex.isDeleted <$> Mesh.vertices m'
     = <[v2 := true]> (Vertex.isDeleted <$> Mesh.vertices m).
Proof.
  cbv zeta. destruct (square_with_costs_ok unused_inverse zero4 zero3) as [Hok Hlive].
  split; [by split|].
  exact (edgeCollapse_tombstones_exactly unused_inverse zero4 _ 0 Hok Hlive).
Defined.

(** X11 at the first collapse of the square. *)
Lemma edgeCollapse_forgets_v2_witness :
  let m := square_with_costs unused_inverse zero4 zero3 in
  let v1 := Edge.v1 (Mesh.edges m !!! 0) in
  let v2 := Edge.v2 (Mesh.edges m !!! 0) in
  let m' := edgeCollapse unused_inverse zero4 m 0 in
  (mesh_ok m /\ live_edge m 0)
  /\ Forall (fun f => Face.isDeleted f = false -> face_has f v2 = false) (Mesh.faces m')
  /\ Forall (fun e => Edge.isDeleted e = false -> Edge.v1 e <> v2 /\ Edge.v2 e <> v2)
            (Mesh.edges m')
  /\ live_vertex (Mesh.vertices m') v1.
Proof.
  cbv zeta. destruct (square_with_costs_ok unused_inverse zero4 zero3) as [Hok Hlive].
  split; [by split|].
  exact (edgeCollapse_forgets_v2 unused_inverse zero4 _ 0 Hok Hlive).
Defined.

(** X12 at the first collapse of the square. *)
Lemma edgeCollapse_averages_attributes_witness :
  let m := square_with_costs unused_inverse zero4 zero3 in
  let v1 := Edge.v1 (Mesh.edges m !!! 0) in
  let v2 := Edge.v2 (Mesh.edges m !!! 0) in
  let vs := Mesh.vertices m in
  let vs' := Mesh.vertices (edgeCollapse unused_inverse zero4 m 0) in
  (mesh_ok m /\ live_edge m 0)
  /\ Vertex.texCoord (vs' !!! v1)
     = glm.mix2 (Vertex.texCoord (vs !!! v1)) (Vertex.texCoord (vs !!! v2)) F32.half
  /\ Vertex.color (vs' !!! v1)
     = glm.mix4 (Vertex.color (vs !!! v1)) (Vertex.color (vs !!! v2)) F32.half
  /\ (forall j, j <> v1 ->
        Vertex.texCoord (vs' !!! j) = Vertex.texCoord (vs !!! j)
        /\ Vertex.color (vs' !!! j) = Vertex.color (vs !!! j))
  /\ Vertex.normal <$> vs' = Vertex.normal <$> vs.
Proof.
  cbv zeta. destruct (square_with_costs_ok unused_inverse zero4 zero3) as [Hok Hlive].
  split; [by split|].
  exact (edgeCollapse_averages_attributes unused_inverse zero4 _ 0 Hok Hlive).
Defined.

(** X13 at the square after one call of [meshSimplify]. *)
Lemma deletedVertices_counts_tombstones_witness :
  let m := sim_mesh (after_call unused_inverse zero4 100 4 (square_sim zero3)) in
  reachable unused_inverse zero4 zero3 m
  /\ Mesh.deletedVertices m = deleted_count (Mesh.vertices m).
Proof.
  cbv zeta. split; [exact square_after_call_reachable|].
  exact (deletedVertices_counts_tombstones unused_inverse zero4 zero3 _
           square_after_call_reachable).
Defined.

(** X14 at the square. *)
Lemma buildMesh_sizes_witness :
  let m := buildMesh zero3 Mesh.empty 6 square_corners square_uvs square_normals in
  inputs_ok 6 square_corners square_uvs square_normals
  /\ length (Mesh.vertices m) <= 6
  /\ length (Mesh.faces m) <= 6 / 3
  /\ length (Mesh.edges m) <= 3 * length (Mesh.faces m)
  /\ Mesh.deletedVertices m = 0
  /\ Forall (fun v => Vertex.isDeleted v = false) (Mesh.vertices m).
Proof.
  cbv zeta. split; [exact square_inputs_ok|].
  exact (buildMesh_sizes zero3 6 square_corners square_uvs square_normals
           square_inputs_ok).
Defined.

(** X15 at the square. *)
Lemma buildMesh_edges_are_face_sides_witness :
  let m := buildMesh zero3 Mesh.empty 6 square_corners square_uvs square_normals in
  inputs_ok 6 square_corners square_uvs square_normals
  /\ NoDup (edge_pairs (Mesh.edges m))
  /\ Forall (fun e => Edge.v1 e < Edge.v2 e
                      /\ e = Edge.ctor zero3 (Edge.v1 e) (Edge.v2 e))
            (Mesh.edges m)
  /\ forall p, p ∈ edge_pairs (Mesh.edges m)
               <-> exists f, f ∈ Mesh.faces m /\ p ∈ face_sides f.
Proof.
  cbv zeta. split; [exact square_inputs_ok|].
  exact (buildMesh_edges_are_face_sides zero3 6 square_corners square_uvs
           square_normals square_inputs_ok).
Defined.

(** X16 at the square. *)
Lemma buildMesh_vertices_are_input_corners_witness :
  let m := buildMesh zero3 Mesh.empty 6 square_corners square_uvs square_normals in
  inputs_ok 6 square_corners square_uvs square_normals
  /\ Forall (fun v => exists k, k < 6
                        /\ v = corner_vertex square_corners square_uvs square_normals k)
            (Mesh.vertices m).
Proof.
  cbv zeta. split; [exact square_inputs_ok|].
  exact (buildMesh_vertices_are_input_corners zero3 6 square_corners square_uvs
           square_normals square_inputs_ok).
Defined.

Lemma square_corners_finite i : i < 6 -> finite_vec3 (square_corners !!! i).
Proof.
  intros Hi. do 6 (destruct i as [|i]; [by repeat split|]). lia.
Qed.

(** X17 at the square: six corners, two of them repeated, four vertices. *)
Lemma buildMesh_positions_distinct_witness :
  let m := buildMesh zero3 Mesh.empty 6 square_corners square_uvs square_normals in
  (inputs_ok 6 square_corners square_uvs square_normals
   /\ forall i, i < 6 -> finite_vec3 (square_corners !!! i))
  /\ NoDup (Vertex.position <$> Mesh.vertices m).
Proof.
  cbv zeta. split; [split; [exact square_inputs_ok|exact square_corners_finite]|].
  exact (buildMesh_positions_distinct zero3 6 square_corners square_uvs square_normals
           square_inputs_ok square_corners_finite).
Defined.

(** X18 at the square. *)
Lemma buildMesh_faces_follow_triangles_witness :
  let m := buildMesh zero3 Mesh.empty 6 square_corners square_uvs square_normals in
  inputs_ok 6 square_corners square_uvs square_normals
  /\ Forall (fun f => exists j, 3 * j + 2 < 6
                        /\ face_of_triangle square_corners (Mesh.vertices m) j f)
            (Mesh.faces m).
Proof.
  cbv zeta. split; [exact square_inputs_ok|].
  exact (buildMesh_faces_follow_triangles zero3 6 square_corners square_uvs
           square_normals square_inputs_ok).
Defined.

(** X20 at the square after three calls: the fourth call finds only stale
    entries, collapses nothing and returns with an empty queue. *)
Lemma meshSimplify_without_collapse_witness :
  let st := collapsed_square unused_inverse zero4 zero3 in
  let st' := after_call unused_inverse zero4 100 4 st in
  (sim_edgeQueue st <> [] /\ meshSimplify unused_inverse zero4 100 4 st = Some (st', 0))
  /\ sim_edgeQueue st' = []
  /\ Mesh.vertices (sim_mesh st') = Mesh.vertices (sim_mesh st)
  /\ Mesh.faces (sim_mesh st') = Mesh.faces (sim_mesh st)
  /\ Mesh.deletedVertices (sim_mesh st') = Mesh.deletedVertices (sim_mesh st).
Proof.
  cbv zeta.
  assert (meshSimplify unused_inverse zero4 100 4
            (collapsed_square unused_inverse zero4 zero3)
          = Some (after_call unused_inverse zero4 100 4
                    (collapsed_square unused_inverse zero4 zero3), 0)) as H
    by (vm_compute; reflexivity).
  split; [split; [by vm_compute|exact H]|].
  exact (meshSimplify_without_collapse unused_inverse zero4 100 4 _ _ H).
Defined.

(** X24 at the square with its costs. *)
Lemma updateRenderData_reads_live_vertices_witness :
  let m := square_with_costs unused_inverse zero4 zero3 in
  mesh_ok m
  /\ exists idxs,
       Forall (live_vertex (Mesh.vertices m)) idxs
       /\ r_verticesVec4 (updateRenderData m).1
          = (fun i => glm.vec4_of (Vertex.position (Mesh.vertices m !!! i)) F32.one)
              <$> idxs
       /\ r_colors (updateRenderData m).1
          = (fun i => Vertex.color (Mesh.vertices m !!! i)) <$> idxs
       /\ r_uvs (updateRenderData m).1
          = (fun i => Vertex.texCoord (Mesh.vertices m !!! i)) <$> idxs.
Proof.
  cbv zeta. destruct (square_with_costs_ok unused_inverse zero4 zero3) as [Hok _].
  split; [exact Hok|]. exact (updateRenderData_reads_live_vertices _ Hok).
Defined.

(** X29 at the square after one call of [meshSimplify]. *)
Lemma reachable_quadrics_symmetric_witness :
  let m := sim_mesh (after_call unused_inverse zero4 100 4 (square_sim zero3)) in
  reachable unused_inverse zero4 zero3 m
  /\ Forall (fun v => mat4_symmetric (Vertex.quadric v)) (Mesh.vertices m).
Proof.
  cbv zeta. split; [exact square_after_call_reachable|].
  exact (reachable_quadrics_symmetric unused_inverse zero4 zero3 _
           square_after_call_reachable).
Defined.

(** X28 at the first collapse of the square. *)
Lemma edgeCollapse_leaves_the_rest_witness :
  let m := square_with_costs unused_inverse zero4 zero3 in
  let v1 := Edge.v1 (Mesh.edges m !!! 0) in
  let v2 := Edge.v2 (Mesh.edges m !!! 0) in
  let m' := edgeCollapse unused_inverse zero4 m 0 in
  (mesh_ok m /\ live_edge m 0)
  /\ (forall k f, Mesh.faces m !! k = Some f -> face_has f v2 = false ->
                  Mesh.faces m' !! k = Some f)
  /\ (forall k e, Mesh.edges m !! k = Some e -> k <> 0 ->
        Edge.isDeleted e = true
        \/ (Edge.v1 e <> v1 /\ Edge.v1 e <> v2 /\ Edge.v2 e <> v1 /\ Edge.v2 e <> v2) ->
        Mesh.edges m' !! k = Some e).
Proof.
  cbv zeta. destruct (square_with_costs_ok unused_inverse zero4 zero3) as [Hok Hlive].
  split; [by split|].
  exact (edgeCollapse_leaves_the_rest unused_inverse zero4 _ 0 Hok Hlive).
Defined.

(** X25 at the first collapse of the square: one of the two triangles
    goes, three of six buffer entries remain. *)
Lemma updateRenderData_after_collapse_witness :
  let m := square_with_costs unused_inverse zero4 zero3 in
  let v1 := Edge.v1 (Mesh.edges m !!! 0) in
  let v2 := Edge.v2 (Mesh.edges m !!! 0) in
  let m' := edgeCollapse unused_inverse zero4 m 0 in
  (mesh_ok m /\ live_edge m 0)
  /\ (updateRenderData m').2
     = 3 * length (filter (fun f => Face.isDeleted f || (face_has f v1 && face_has f v2)
                                    = false) (Mesh.faces m))
  /\ (updateRenderData m').2 <= (updateRenderData m).2.
Proof.
  cbv zeta. destruct (square_with_costs_ok unused_inverse zero4 zero3) as [Hok Hlive].
  split; [by split|].
  exact (updateRenderData_after_collapse unused_inverse zero4 _ 0 Hok Hlive).
Defined.

(** X22 at the square before its first call (budget [4 / 100 = 0]). *)
Lemma meshSimplify_first_call_collapses_witness :
  let st := square_sim zero3 in
  (sim_edgeQueue st = [] /\ Mesh.edges (sim_mesh st) <> []
   /\ Forall (fun e => Edge.isDeleted e = false) (Mesh.edges (sim_mesh st)))
  /\ exists fuel, forall fuel', fuel <= fuel' ->
       exists st' count,
         meshSimplify unused_inverse zero4 fuel' 4 st = Some (st', count)
         /\ 1 <= count.
Proof.
  cbv zeta.
  assert (sim_edgeQueue (square_sim zero3) = []) as Hq by reflexivity.
  assert (Mesh.edges (sim_mesh (square_sim zero3)) <> []) as Hne by (by vm_compute).
  assert (Forall (fun e => Edge.isDeleted e = false)
                 (Mesh.edges (sim_mesh (square_sim zero3)))) as Hlive.
  { eapply (forallb_Forall (fun e => negb (Edge.isDeleted e))).
    - intros e He. by apply negb_true_iff in He.
    - vm_compute. reflexivity. }
  split; [by repeat split|].
  exact (meshSimplify_first_call_collapses unused_inverse zero4 4 _ Hq Hne Hlive).
Defined.
